(** * fast_grpc: method dispatch, dependency resolution and middleware chain

    A shallow embedding of the request-dispatch core of the fast_grpc
    package: [fast_grpc/core/dependencies.py], [fast_grpc/core/controller.py],
    [fast_grpc/handlers/methods.py], [fast_grpc/middleware/...] and
    [fast_grpc/exceptions/exception_handlers.py]; and of what surrounds it:
    the naming helpers of [fast_grpc/schema/utils.py], the registration of
    services in [fast_grpc/core/app.py] and the controller classes of
    [fast_grpc/core/meta.py].

    Python objects that the code mutates and shares (generator objects, the
    [_cached_dependencies] lists of [Depends] and [Dependencies]) live in an
    explicit store; an [async def] body is a computation in a state-and-
    exception monad; an async generator is such a computation that also
    returns the items it yielded before it finished or raised. *)

From stdpp Require Import base option list gmap strings fin_maps.
From Stdlib Require Import ZArith Lia Ascii.

Set Warnings "-register-all".
Open Scope string_scope.
Open Scope list_scope.

(** ** Python values *)

(** The values that travel through a call.  Generator objects are references
    into the store, because the code keeps them in lists and advances them
    later. *)
Inductive Value :=
| VNone
| VBool (b : bool)
| VInt (z : Z)
| VStr (s : string)
| VTuple (vs : list Value)
| VDict (items : list (string * Value))
| VMessage (ty : string) (fields : list (string * Value))
| VModel (cls : string) (fields : list (string * Value))
| VAsyncIterator (items : list Value)
| VValidatedIterator (model : string) (items : list Value)
| VGenerator (g : nat)
| VAsyncGen (g : nat)
| VCoroutine (v : Value).

(** ** gRPC status codes ([grpc.StatusCode]) *)

Inductive StatusCode :=
| OK | CANCELLED | UNKNOWN | INVALID_ARGUMENT | DEADLINE_EXCEEDED | NOT_FOUND
| ALREADY_EXISTS | PERMISSION_DENIED | RESOURCE_EXHAUSTED | FAILED_PRECONDITION
| ABORTED | OUT_OF_RANGE | UNIMPLEMENTED | INTERNAL | UNAVAILABLE | DATA_LOSS
| UNAUTHENTICATED.

Definition status_name (c : StatusCode) : string :=
  match c with
  | OK => "OK" | CANCELLED => "CANCELLED" | UNKNOWN => "UNKNOWN"
  | INVALID_ARGUMENT => "INVALID_ARGUMENT"
  | DEADLINE_EXCEEDED => "DEADLINE_EXCEEDED" | NOT_FOUND => "NOT_FOUND"
  | ALREADY_EXISTS => "ALREADY_EXISTS"
  | PERMISSION_DENIED => "PERMISSION_DENIED"
  | RESOURCE_EXHAUSTED => "RESOURCE_EXHAUSTED"
  | FAILED_PRECONDITION => "FAILED_PRECONDITION" | ABORTED => "ABORTED"
  | OUT_OF_RANGE => "OUT_OF_RANGE" | UNIMPLEMENTED => "UNIMPLEMENTED"
  | INTERNAL => "INTERNAL" | UNAVAILABLE => "UNAVAILABLE"
  | DATA_LOSS => "DATA_LOSS" | UNAUTHENTICATED => "UNAUTHENTICATED"
  end.

(** ** Exceptions *)

(** One entry of pydantic's [ValidationError.errors()]. *)
Record ErrorDetails := {
  err_msg : string;
  err_loc : Value;
  err_input : Value
}.

(** Attributes an exception object may carry. *)
Inductive ExcData :=
| NoData
| GrpcData (status : StatusCode) (details : string)
| ValidationData (errors : list ErrorDetails).

(** An exception object: its class ([type(exc)]), the proper ancestors of
    that class, its [str()] and its attributes. *)
Record Exc := {
  exc_type : string;
  exc_bases : list string;
  exc_str : string;
  exc_data : ExcData
}.

Definition isinstance (e : Exc) (cls : string) : bool :=
  bool_decide (cls ∈ exc_type e :: exc_bases e).

Definition builtin_exc (cls msg : string) : Exc :=
  {| exc_type := cls; exc_bases := ["Exception"; "BaseException"];
     exc_str := msg; exc_data := NoData |}.

Definition TypeError := builtin_exc "TypeError".
Definition AttributeError := builtin_exc "AttributeError".
(** [IndexError] and [KeyError] are [LookupError]s. *)
Definition lookup_exc (cls msg : string) : Exc :=
  {| exc_type := cls; exc_bases := ["LookupError"; "Exception"; "BaseException"];
     exc_str := msg; exc_data := NoData |}.
Definition IndexError := lookup_exc "IndexError".
Definition KeyError := lookup_exc "KeyError".
Definition RuntimeError := builtin_exc "RuntimeError".
Definition ValueError := builtin_exc "ValueError".
Definition StopIteration := builtin_exc "StopIteration" "".
Definition StopAsyncIteration := builtin_exc "StopAsyncIteration" "".
(** [raise Exception(msg)] *)
Definition PlainException :=
  fun msg => {| exc_type := "Exception"; exc_bases := ["BaseException"];
                exc_str := msg; exc_data := NoData |}.

(** [fast_grpc.exceptions.GRPCException(status, details)] *)
Definition GRPCException (status : StatusCode) (details : string) : Exc :=
  {| exc_type := "GRPCException"; exc_bases := ["Exception"; "BaseException"];
     exc_str := status_name status +:+ ": " +:+ details;
     exc_data := GrpcData status details |}.

(** [pydantic.ValidationError]: a [ValueError] carrying its error list. *)
Definition ValidationError (msg : string) (errors : list ErrorDetails) : Exc :=
  {| exc_type := "ValidationError";
     exc_bases := ["ValueError"; "Exception"; "BaseException"];
     exc_str := msg; exc_data := ValidationData errors |}.

(** What becomes of an exception that leaves the body of a generator, and of
    an async generator: an exhaustion signal raised by the body itself is
    replaced by a [RuntimeError] (PEP 479, PEP 525). *)
Definition leaving_generator (e : Exc) : Exc :=
  if isinstance e "StopIteration"
  then RuntimeError "generator raised StopIteration"
  else e.
Definition leaving_async_generator (e : Exc) : Exc :=
  if isinstance e "StopIteration"
  then RuntimeError "async generator raised StopIteration"
  else if isinstance e "StopAsyncIteration"
  then RuntimeError "async generator raised StopAsyncIteration"
  else e.

(** ** The store and the trace *)

Inductive Event :=
| EvCall (f : nat)                                (* producer function f was called *)
| EvNext (g : nat)                                (* next()/anext() on generator g *)
| EvReturn (g : nat)                              (* the body of generator g ran to its end *)
| EvEndpoint (kwargs : list (string * Value))     (* the endpoint body started *)
| EvAbort (code : StatusCode) (details : string). (* transport abort *)

Record World := {
  trace : list Event;
  (** generator objects: the values the suspended body has still to yield,
      and the exception it raises after the last of them, if it does not
      return *)
  generators : gmap nat (list Value * option Exc);
  next_generator : nat;
  (** [Depends._cached_dependencies], per [Depends] instance *)
  depends_cached : gmap nat (list Value);
  (** [Dependencies._cached_dependencies], per [Dependencies] instance *)
  dependencies_cached : gmap nat (list Value)
}.

Definition empty_world : World :=
  {| trace := []; generators := ∅; next_generator := 0;
     depends_cached := ∅; dependencies_cached := ∅ |}.

Definition set_trace (f : list Event → list Event) (w : World) : World :=
  {| trace := f (trace w); generators := generators w;
     next_generator := next_generator w;
     depends_cached := depends_cached w;
     dependencies_cached := dependencies_cached w |}.
Definition set_generators
    (f : gmap nat (list Value * option Exc) → gmap nat (list Value * option Exc))
    (n : nat) (w : World) : World :=
  {| trace := trace w; generators := f (generators w);
     next_generator := n;
     depends_cached := depends_cached w;
     dependencies_cached := dependencies_cached w |}.
Definition set_depends_cached
    (f : gmap nat (list Value) → gmap nat (list Value)) (w : World) : World :=
  {| trace := trace w; generators := generators w;
     next_generator := next_generator w;
     depends_cached := f (depends_cached w);
     dependencies_cached := dependencies_cached w |}.
Definition set_dependencies_cached
    (f : gmap nat (list Value) → gmap nat (list Value)) (w : World) : World :=
  {| trace := trace w; generators := generators w;
     next_generator := next_generator w;
     depends_cached := depends_cached w;
     dependencies_cached := f (dependencies_cached w) |}.

(** The list held by an object with a [_cached_dependencies] attribute. *)
Definition cached_list (m : gmap nat (list Value)) (self : nat) : list Value :=
  default [] (m !! self).
Arguments cached_list : simpl never.

(** ** The monad of [async def] bodies *)

Inductive Result (A : Type) :=
| Ok (a : A)
| Raise (e : Exc).
Arguments Ok {A} a.
Arguments Raise {A} e.

Definition M (A : Type) : Type := World → Result A * World.

Definition ret {A} (a : A) : M A := λ w, (Ok a, w).
Definition raise {A} (e : Exc) : M A := λ w, (Raise e, w).
Definition bind {A B} (m : M A) (k : A → M B) : M B :=
  λ w, match m w with
       | (Ok a, w') => k a w'
       | (Raise e, w') => (Raise e, w')
       end.
(** [try: m  except BaseException as e: h e] *)
Definition try_except {A} (m : M A) (h : Exc → M A) : M A :=
  λ w, match m w with
       | (Ok a, w') => (Ok a, w')
       | (Raise e, w') => h e w'
       end.

Notation "x <- c1 ;; c2" := (bind c1 (λ x, c2))
  (at level 100, c1 at next level, c2 at level 200, right associativity).
Notation "c1 ;; c2" := (bind c1 (λ _, c2))
  (at level 100, c2 at level 200, right associativity).

Definition get_world : M World := λ w, (Ok w, w).
Definition modify (f : World → World) : M unit := λ w, (Ok tt, f w).
Definition emit (ev : Event) : M unit := modify (set_trace (λ t, t ++ [ev])).
Definition lift_result {A} (r : Result A) : M A := λ w, (r, w).

(** An async generator run to its end: the items yielded, and how the body
    finished. *)
Definition G : Type := World → (list Value * option Exc) * World.

(** ** Python dictionaries with string keys, in insertion order *)

(** [d[k] = v] *)
Fixpoint dict_set (k : string) (v : Value) (d : list (string * Value))
    : list (string * Value) :=
  match d with
  | [] => [(k, v)]
  | (k', v') :: d' =>
      if decide (k = k') then (k, v) :: d' else (k', v') :: dict_set k v d'
  end.

(** [d |= other] *)
Definition dict_update (d other : list (string * Value)) : list (string * Value) :=
  fold_left (λ acc kv, dict_set kv.1 kv.2 acc) other d.

(** ** Generator objects *)

(** Calling a generator function creates a suspended generator object; the
    store keeps what its body has still to yield and how it ends after that:
    by returning ([None]) or by raising.  An object that is absent from the
    store has finished. *)
Definition new_generator (ys : list Value) (finish : option Exc) : M nat :=
  λ w, (Ok (next_generator w),
        set_generators (<[next_generator w := (ys, finish)]>)
          (S (next_generator w)) w).

(** [next(g)] and [anext(g)]: resume the body.  Either it reaches its next
    [yield]; or it runs the code after its last [yield] to the end (event
    [EvReturn]) and the exhaustion signal [stop] is raised; or that code
    raises, and the exception leaves the body as [leaving] says; a finished
    generator signals exhaustion without running anything. *)
Definition advance (stop : Exc) (leaving : Exc → Exc) (g : nat) : M Value :=
  emit (EvNext g) ;;
  w <- get_world ;;
  match generators w !! g with
  | Some (y :: ys, finish) =>
      modify (set_generators (<[g := (ys, finish)]>) (next_generator w)) ;; ret y
  | Some ([], None) =>
      modify (set_generators (delete g) (next_generator w)) ;;
      emit (EvReturn g) ;; raise stop
  | Some ([], Some e) =>
      modify (set_generators (delete g) (next_generator w)) ;;
      raise (leaving e)
  | None => raise stop
  end.
Definition next_ : nat → M Value := advance StopIteration leaving_generator.
Definition anext : nat → M Value :=
  advance StopAsyncIteration leaving_async_generator.

(** PEP 479: a [StopIteration] that escapes the body of a coroutine is turned
    into a [RuntimeError]. *)
Definition coroutine_body {A} (m : M A) : M A :=
  try_except m (λ e,
    if isinstance e "StopIteration"
    then raise (RuntimeError "coroutine raised StopIteration")
    else raise e).

(** ** fast_grpc/core/dependencies.py *)

(** What calling a producer function gives. *)
Inductive Produced :=
| PReturn (v : Value)               (* a plain function that returns v *)
| PRaise (e : Exc)                  (* a plain function that raises *)
| PCoroutine (r : Result Value)     (* async def: awaiting it gives r *)
| PGenerator (ys : list Value)      (* generator function yielding ys *)
| PAsyncGenerator (ys : list Value)
| PGeneratorRaise (ys : list Value) (e : Exc)
                                    (* generator function that yields ys and then raises e *)
| PAsyncGeneratorRaise (ys : list Value) (e : Exc).

(** A producer function: its identity (the key of the cache), its signature
    and its body.  A parameter either has a [Depends(dep)] default or any
    other default. *)
Inductive Func :=
| MkFunc (id : nat) (params : Params) (body : list (string * Value) → Produced)
with Params :=
| PNil
| PDepends (name : string) (dependency : Func) (rest : Params)
| PDefault (name : string) (default : Value) (rest : Params).

Scheme Func_mut := Induction for Func Sort Prop
  with Params_mut := Induction for Params Sort Prop.
Combined Scheme Func_Params_mutind from Func_mut, Params_mut.

Definition fn_id (f : Func) : nat := match f with MkFunc id _ _ => id end.
Definition fn_params (f : Func) : Params :=
  match f with MkFunc _ ps _ => ps end.

(** A [Depends(dependency)] marker placed in the endpoint's signature; it
    owns a [_cached_dependencies] list. *)
Record Depends := {
  depends_id : nat;
  dependency : Func
}.

(** [self._cached_dependencies.append(x)] on a [Depends]. *)
Definition depends_append (self : nat) (x : Value) : M unit :=
  modify (set_depends_cached
            (λ m, <[self := cached_list m self ++ [x]]> m)).

(** The tail of [resolve_dependencies]: what is done with the result of
    calling [func] on the resolved keyword arguments. *)
Definition use_result (self : nat) (p : Produced) : M Value :=
  match p with
  | PRaise e => raise e
  | PGenerator ys =>
      g <- new_generator ys None ;; depends_append self (VGenerator g) ;; next_ g
  | PGeneratorRaise ys e =>
      g <- new_generator ys (Some e) ;;
      depends_append self (VGenerator g) ;; next_ g
  | PCoroutine r => lift_result r
  | PAsyncGenerator ys =>
      g <- new_generator ys None ;; depends_append self (VAsyncGen g) ;; anext g
  | PAsyncGeneratorRaise ys e =>
      g <- new_generator ys (Some e) ;;
      depends_append self (VAsyncGen g) ;; anext g
  | PReturn (VGenerator g) => depends_append self (VGenerator g) ;; next_ g
  | PReturn (VCoroutine v) => ret v
  | PReturn (VAsyncGen g) => depends_append self (VAsyncGen g) ;; anext g
  | PReturn v => ret v
  end.

(** [Depends.resolve_dependencies(self, func, cache)].  The cache is the
    Python dict handed down the recursion; it is threaded explicitly. *)
Fixpoint resolve_dependencies (self : nat) (func : Func) (cache : gmap nat Value)
    {struct func} : M (Value * gmap nat Value) :=
  match func with
  | MkFunc id params body =>
      coroutine_body (
        kc <- resolve_params self params cache ;;
        emit (EvCall id) ;;
        v <- use_result self (body kc.1) ;;
        ret (v, kc.2))
  end
with resolve_params (self : nat) (params : Params) (cache : gmap nat Value)
    {struct params} : M (list (string * Value) * gmap nat Value) :=
  match params with
  | PNil => ret ([], cache)
  | PDepends name dep rest =>
      match cache !! fn_id dep with
      | Some dep_value =>
          kc <- resolve_params self rest cache ;;
          ret ((name, dep_value) :: kc.1, kc.2)
      | None =>
          vc <- resolve_dependencies self dep cache ;;
          kc <- resolve_params self rest (<[fn_id dep := vc.1]> vc.2) ;;
          ret ((name, vc.1) :: kc.1, kc.2)
      end
  | PDefault name default rest =>
      kc <- resolve_params self rest cache ;;
      ret ((name, default) :: kc.1, kc.2)
  end.

(** [Depends.__call__]: resolve with no cache given, and hand back the
    instance's own list. *)
Definition Depends_call (d : Depends) : M (Value * list Value) :=
  vc <- resolve_dependencies (depends_id d) (dependency d) ∅ ;;
  w <- get_world ;;
  ret (vc.1, cached_list (depends_cached w) (depends_id d)).

(** *** Awaitables and endpoints *)

(** What calling a user endpoint gives: a coroutine object ([async def]) or
    an async generator object ([async def] with [yield]).  Nothing of the
    body runs until the object is awaited or iterated. *)
Inductive PyObj :=
| Coroutine (body : M Value)
| AsyncGenerator (body : G).

(** [await obj] *)
Definition await_ (obj : PyObj) : M Value :=
  match obj with
  | Coroutine body => body
  | AsyncGenerator _ =>
      raise (TypeError "object async_generator can't be used in 'await' expression")
  end.

Definition g_done : G := λ w, (([], None), w).
Definition g_raise (e : Exc) : G := λ w, (([], Some e), w).

(** [async for x in obj] *)
Definition async_for (obj : PyObj) : G :=
  match obj with
  | AsyncGenerator body => body
  | Coroutine _ =>
      g_raise (TypeError "'async for' requires an object with __aiter__ method, got coroutine")
  end.

(** Run the straight-line part [m] of a generator body, then go on as [k]. *)
Definition g_bind {A} (m : M A) (k : A → G) : G :=
  λ w, match m w with
       | (Ok a, w') => k a w'
       | (Raise e, w') => (([], Some e), w')
       end.

(** [async for x in g: yield (f x)] run item by item: the first [f x] that
    raises ends the generator there. *)
Fixpoint yield_each (f : Value → M Value) (items : list Value)
    (finish : option Exc) : G :=
  match items with
  | [] => λ w, (([], finish), w)
  | x :: rest =>
      λ w, match f x w with
           | (Ok y, w') =>
               let '((ys, out), w'') := yield_each f rest finish w' in
               ((y :: ys, out), w'')
           | (Raise e, w') => (([], Some e), w')
           end
  end.
Definition g_map (g : G) (f : Value → M Value) : G :=
  λ w, let '((items, out), w') := g w in yield_each f items out w'.

(** Code placed after the loop of a generator body: it runs only when the
    loop ended normally. *)
Definition g_then (g : G) (after : M unit) : G :=
  λ w, let '((items, out), w') := g w in
       match out with
       | Some e => ((items, Some e), w')
       | None => match after w' with
                 | (Ok _, w'') => ((items, None), w'')
                 | (Raise e, w'') => ((items, Some e), w'')
                 end
       end.

(** [try: <generator body g>  except BaseException as e: h e] *)
Definition g_try (g : G) (h : Exc → M unit) : G :=
  λ w, let '((items, out), w') := g w in
       match out with
       | None => ((items, None), w')
       | Some e => match h e w' with
                   | (Ok _, w'') => ((items, None), w'')
                   | (Raise e', w'') => ((items, Some e'), w'')
                   end
       end.

(** The body of an [async def] with [yield], seen from outside: an
    exhaustion signal that leaves it is replaced as
    [leaving_async_generator] says. *)
Definition async_generator_body (g : G) : G :=
  λ w, let '((items, out), w') := g w in
       ((items, leaving_async_generator <$> out), w').

(** What [get_param_annotation_model] hands back: a class, or a generic
    alias, which is no class. *)
Inductive AnnotationModel :=
| ModelClass (cls : string)
| ModelAlias (name : string).

(** The origin of a generic alias ([typing.get_origin]): a class, which is
    or is not a subclass of [AsyncIterable], or a special form such as
    [typing.Union], which is no class. *)
Inductive Origin :=
| OriginClass (is_async_iterable : bool)
| OriginSpecialForm.

(** An annotation of the endpoint's signature, as far as the method reads
    it: none ([inspect.Signature.empty]), [None], a class, or a generic
    alias such as [AsyncIterator[HelloRequest]], given by its name, its
    origin and its arguments. *)
Inductive Annotation :=
| NoAnnotation
| NoneAnnotation
| ClassAnnotation (cls : string)
| GenericAlias (name : string) (origin : Origin) (args : list AnnotationModel).

(** What [issubclass] raises when its first argument is no class. *)
Definition not_a_class : Exc := TypeError "issubclass() arg 1 must be a class".

(** [get_param_annotation_model] of schema/utils.py.  For a streaming
    parameter it asks [issubclass(get_origin(annotation), AsyncIterable)],
    and the origin of [None] and of a plain class is [None]. *)
Definition get_param_annotation_model (annotation : Annotation)
    (is_streaming : bool) : Result (option AnnotationModel) :=
  match annotation with
  | NoAnnotation => Ok None
  | NoneAnnotation => if is_streaming then Raise not_a_class else Ok None
  | ClassAnnotation cls =>
      if is_streaming then Raise not_a_class else Ok (Some (ModelClass cls))
  | GenericAlias name origin args =>
      if is_streaming then
        match origin with
        | OriginClass true => Ok (head args)
        | OriginClass false => Ok None
        | OriginSpecialForm => Raise not_a_class
        end
      else Ok (Some (ModelAlias name))
  end.

(** A default in the endpoint's signature. *)
Inductive ParamDefault :=
| NoDefault
| DefaultValue (v : Value)
| DefaultDepends (d : Depends).

(** A user endpoint: [__name__], the signature, the two annotations the
    method reads (that of the first parameter and the return annotation) and
    the function itself, applied to keyword arguments. *)
Record Endpoint := {
  ep_name : string;
  ep_params : list (string * ParamDefault);
  ep_request_annotation : Annotation;
  ep_return_annotation : Annotation;
  ep_call : list (string * Value) → PyObj
}.

(** The [Dependencies] object of a method. *)
Record Dependencies := {
  dependencies_id : nat;
  endpoint_dependencies : list (string * Depends)
}.

(** [Dependencies._get_endpoint_dependencies] *)
Fixpoint _get_endpoint_dependencies (params : list (string * ParamDefault))
    : list (string * Depends) :=
  match params with
  | [] => []
  | (k, DefaultDepends d) :: rest => (k, d) :: _get_endpoint_dependencies rest
  | _ :: rest => _get_endpoint_dependencies rest
  end.

(** [Dependencies.__init__]; [self] is the identity of the new object. *)
Definition Dependencies_init (self : nat) (endpoint : Endpoint) : Dependencies :=
  {| dependencies_id := self;
     endpoint_dependencies := _get_endpoint_dependencies (ep_params endpoint) |}.

(** [self._cached_dependencies.extend(xs)] on a [Dependencies]; [append] is
    the case of one element. *)
Definition dependencies_extend (self : nat) (xs : list Value) : M unit :=
  modify (set_dependencies_cached
            (λ m, <[self := cached_list m self ++ xs]> m)).

(** One handle of the cleanup loop, with its [try ... except
    (StopAsyncIteration, StopIteration): pass]. *)
Definition close_dependency (gen_dependency : Value) : M unit :=
  try_except
    (match gen_dependency with
     | VGenerator g => next_ g ;; ret tt
     | VAsyncGen g => anext g ;; ret tt
     | _ => ret tt
     end)
    (λ e, if isinstance e "StopAsyncIteration" || isinstance e "StopIteration"
          then ret tt else raise e).

Fixpoint close_dependencies (gens : list Value) : M unit :=
  match gens with
  | [] => ret tt
  | gen_dependency :: rest =>
      close_dependency gen_dependency ;; close_dependencies rest
  end.

(** [Dependencies.get_close_dependencies_wrapped_endpoint]: the wrapper is a
    plain [async def], whatever the endpoint is. *)
Definition get_close_dependencies_wrapped_endpoint (self : Dependencies)
    (endpoint : list (string * Value) → PyObj) : list (string * Value) → PyObj :=
  λ kwargs, Coroutine (
    result <- await_ (endpoint kwargs) ;;
    w <- get_world ;;
    close_dependencies
      (cached_list (dependencies_cached w) (dependencies_id self)) ;;
    ret result).

(** The body of the loop of [get_dependencies_results] for one parameter. *)
Definition resolve_endpoint_dependency (self : nat) (param : string)
    (dependency : Depends) (dependencies_results : list (string * Value))
    : M (list (string * Value)) :=
  hg <- Depends_call dependency ;;
  (if bool_decide (hg.2 = []) then ret tt
   else dependencies_extend self hg.2) ;;
  match hg.1 with
  | VGenerator g =>
      dependencies_extend self [VGenerator g] ;;
      v <- next_ g ;;
      ret (dict_set param v dependencies_results)
  | VCoroutine v => ret (dict_set param v dependencies_results)
  | VAsyncGen g =>
      dependencies_extend self [VAsyncGen g] ;;
      v <- anext g ;;
      ret (dict_set param v dependencies_results)
  | v => ret (dict_set param v dependencies_results)
  end.

Fixpoint resolve_endpoint_dependencies (self : nat)
    (deps : list (string * Depends)) (dependencies_results : list (string * Value))
    : M (list (string * Value)) :=
  match deps with
  | [] => ret dependencies_results
  | (param, dependency) :: rest =>
      r <- resolve_endpoint_dependency self param dependency dependencies_results ;;
      resolve_endpoint_dependencies self rest r
  end.

(** [Dependencies.get_dependencies_results]; the result is the value stored
    under the key ["dependencies_results"]. *)
Definition get_dependencies_results (self : Dependencies)
    : M (list (string * Value)) :=
  coroutine_body
    (resolve_endpoint_dependencies (dependencies_id self)
       (endpoint_dependencies self) []).

(** ** fast_grpc/core/context.py *)

(** The method-identity descriptor handed over by the transport layer. *)
Record MethodDescriptor := {
  md_name : string;
  input_type : string;
  output_type : string
}.

(** The context a stage receives: the transport's own [ServicerContext], or
    the [ControllerContext] built around it by the context-binding stage. *)
Inductive Context :=
| ServicerContext (scheduler : option nat)
| ControllerContext (controller_method_name : string)
    (method_descriptor : MethodDescriptor) (scheduler : option nat).

(** The transport collaborator: what its [abort] does once it has recorded
    the status.  [grpc.aio] raises an [AbortError] there; a transport whose
    [abort] returns has [abort_signal = None]. *)
Class Transport := {
  abort_signal : option Exc
}.

(** The libraries behind validation and wire encoding (pydantic, protobuf). *)
Class Codec := {
  (** [cls.model_validate(obj)] *)
  model_validate : string → Value → Result Value;
  (** [model.model_dump_json()] *)
  model_dump_json : Value → string;
  (** [Parse(data, message_cls(), ignore_unknown_fields=True)] *)
  Parse : string → string → Result Value;
  (** [ParseDict(data, message_cls(), ignore_unknown_fields=True)] *)
  ParseDict : list (string * Value) → string → Result Value;
  (** [MessageToDict(message, preserving_proto_field_name=True)] *)
  MessageToDict : Value → Value;
  (** [issubclass(cls, BaseModel)] *)
  is_base_model : string → bool;
  (** [str(x)] and the [{x}] of an f-string *)
  py_str : Value → string
}.

Section Core.
Context `{Transport} `{Codec}.

(** [context.abort(code, details)], on either kind of context. *)
Definition abort (context : Context) (code : StatusCode) (details : string)
    : M unit :=
  emit (EvAbort code details) ;;
  match abort_signal with
  | Some e => raise e
  | None => ret tt
  end.

(** [context.controller_method.name] *)
Definition controller_method_name_of (context : Context) : M string :=
  match context with
  | ControllerContext name _ _ => ret name
  | ServicerContext _ =>
      raise (AttributeError "'grpc._cython.cygrpc._ServicerContext' object has no attribute 'controller_method'")
  end.

(** [context.output_type] *)
Definition output_type_of (context : Context) : M string :=
  match context with
  | ControllerContext _ md _ => ret (output_type md)
  | ServicerContext _ =>
      raise (AttributeError "'grpc._cython.cygrpc._ServicerContext' object has no attribute 'output_type'")
  end.

(** The attribute reads of the [logger] f-strings; the text logged, which
    carries the elapsed wall-clock time, is not part of the model. *)
Definition log_call (context : Context) : M unit :=
  controller_method_name_of context ;; ret tt.

(** ** fast_grpc/handlers/methods.py *)

Inductive MethodMode :=
| UNARY_UNARY | UNARY_STREAM | STREAM_UNARY | STREAM_STREAM.

Record Method := {
  method_name : string;
  mode : MethodMode;
  dependencies : Dependencies;
  endpoint : list (string * Value) → PyObj;
  request_model : option string;
  response_model : option string;
  description : string;
  request_param : string;
  context_param : option string
}.

Definition is_request_iterable (m : MethodMode) : bool :=
  match m with STREAM_UNARY | STREAM_STREAM => true | _ => false end.
Definition is_response_iterable (m : MethodMode) : bool :=
  match m with UNARY_STREAM | STREAM_STREAM => true | _ => false end.

(** [str.capitalize] and [to_pascal_case] of schema/utils.py, on ASCII
    identifiers. *)
Definition upper (c : ascii) : ascii :=
  let n := Ascii.nat_of_ascii c in
  if (97 <=? n)%nat && (n <=? 122)%nat then Ascii.ascii_of_nat (n - 32) else c.
Definition lower (c : ascii) : ascii :=
  let n := Ascii.nat_of_ascii c in
  if (65 <=? n)%nat && (n <=? 90)%nat then Ascii.ascii_of_nat (n + 32) else c.
Fixpoint map_string (f : ascii → ascii) (s : string) : string :=
  match s with
  | EmptyString => EmptyString
  | String c s' => String (f c) (map_string f s')
  end.
Definition capitalize (s : string) : string :=
  match s with
  | EmptyString => EmptyString
  | String c s' => String (upper c) (map_string lower s')
  end.
Fixpoint split (delimiter : ascii) (s : string) : list string :=
  match s with
  | EmptyString => [EmptyString]
  | String c s' =>
      if decide (c = delimiter) then EmptyString :: split delimiter s'
      else match split delimiter s' with
           | word :: words => String c word :: words
           | [] => [String c EmptyString]
           end
  end.
Definition to_pascal_case (snake_str : string) : string :=
  String.concat "" (map capitalize (split "_"%char snake_str)).

(** The keyword arguments of [BaseMethod.__init__] besides the endpoint. *)
Record MethodArgs := {
  arg_name : option string;
  arg_request_model : option string;
  arg_response_model : option string;
  arg_description : string
}.

(** [a or b] on optional names: [None] and the empty string are falsy. *)
Definition name_or (name : option string) (fallback : string) : string :=
  match name with
  | Some (String c s) => String c s
  | _ => fallback
  end.
Definition model_or (a : option string) (b : option AnnotationModel)
    : option AnnotationModel :=
  match a with Some cls => Some (ModelClass cls) | None => b end.
(** The name under which a model, class or not, is kept. *)
Definition model_name (model : AnnotationModel) : string :=
  match model with ModelClass cls => cls | ModelAlias name => name end.

(** [BaseMethod.__init__] for the method class of mode [md]; [self] is the
    identity given to the new [Dependencies] object.  The two annotations
    are read in turn, each read may fail, and the check of the response
    model comes last. *)
Definition BaseMethod_init (md : MethodMode) (self : nat) (ep : Endpoint)
    (args : MethodArgs) : Result Method :=
  let deps := Dependencies_init self ep in
  match map fst (ep_params ep) with
  | [] => Raise (ValueError "not enough values to unpack (expected at least 1, got 0)")
  | request :: keys =>
      match get_param_annotation_model (ep_request_annotation ep)
              (is_request_iterable md) with
      | Raise e => Raise e
      | Ok request_param_model =>
          match get_param_annotation_model (ep_return_annotation ep)
                  (is_response_iterable md) with
          | Raise e => Raise e
          | Ok response_param_model =>
              let response_model :=
                model_or (arg_response_model args) response_param_model in
              let method :=
                {| method_name :=
                     name_or (arg_name args) (to_pascal_case (ep_name ep));
                   mode := md; dependencies := deps;
                   endpoint :=
                     get_close_dependencies_wrapped_endpoint deps (ep_call ep);
                   request_model :=
                     model_name
                       <$> model_or (arg_request_model args) request_param_model;
                   response_model := model_name <$> response_model;
                   description := arg_description args;
                   request_param := request;
                   context_param := head keys |} in
              match response_model with
              | None => Ok method
              | Some (ModelClass cls) =>
                  if is_base_model cls then Ok method
                  else Raise (ValueError "response_model must be a BaseModel subclass")
              | Some (ModelAlias _) => Raise not_a_class
              end
          end
      end
  end.

(** How a context is handed to the endpoint is outside the value language:
    the endpoint receives a marker. *)
Definition context_value (context : Context) : Value :=
  match context with
  | ServicerContext _ => VStr "<ServicerContext>"
  | ControllerContext name _ _ => VStr ("<ControllerContext " +:+ name +:+ ">")
  end.

(** [BaseMethod.solve_params] *)
Definition solve_params (self : Method) (request : Value) (context : Context)
    : M (list (string * Value)) :=
  let values :=
    match context_param self with
    | Some p => [(p, context_value context)]
    | None => []
    end in
  match request_model self with
  | None => ret (dict_set (request_param self) request values)
  | Some cls =>
      match request with
      | VAsyncIterator items =>
          ret (dict_set (request_param self) (VValidatedIterator cls items) values)
      | _ =>
          v <- lift_result (model_validate cls (MessageToDict request)) ;;
          ret (dict_set (request_param self) v values)
      end
  end.

(** [isinstance(response, context.output_type)] *)
Definition is_message_of (response : Value) (ty : string) : bool :=
  match response with
  | VMessage ty' _ => bool_decide (ty' = ty)
  | _ => false
  end.

(** [BaseMethod.serialize_response] *)
Definition serialize_response (self : Method) (response : Value)
    (context : Context) : M Value :=
  out <- output_type_of context ;;
  if is_message_of response out then ret response
  else match response_model self with
       | Some cls =>
           validated_response <- lift_result (model_validate cls response) ;;
           lift_result (Parse (model_dump_json validated_response) out)
       | None =>
           match response with
           | VDict items => lift_result (ParseDict items out)
           | _ => ret response
           end
       end.

(** The keyword arguments that travel down the chain: the two keys the code
    reads. *)
Record Kwargs := {
  kw_method_descriptor : option MethodDescriptor;
  kw_dependencies_results : option (list (string * Value))
}.

(** [a | b] on keyword arguments: the keys of [b] win. *)
Definition kwargs_merge (a b : Kwargs) : Kwargs :=
  {| kw_method_descriptor :=
       match kw_method_descriptor b with
       | Some d => Some d | None => kw_method_descriptor a end;
     kw_dependencies_results :=
       match kw_dependencies_results b with
       | Some d => Some d | None => kw_dependencies_results a end |}.

Definition no_kwargs : Kwargs :=
  {| kw_method_descriptor := None; kw_dependencies_results := None |}.

Definition missing_dependencies_results : Exc :=
  TypeError "__call__() missing 1 required positional argument: 'dependencies_results'".

(** [UnaryUnaryMethod.__call__], shared by [StreamUnaryMethod]. *)
Definition UnaryUnaryMethod_call (self : Method) (request : Value)
    (context : Context) (kwargs : Kwargs) : M Value :=
  match kw_dependencies_results kwargs with
  | None => raise missing_dependencies_results
  | Some dependencies_results =>
      values <- solve_params self request context ;;
      result <- await_ (endpoint self (dict_update values dependencies_results)) ;;
      response <- serialize_response self result context ;;
      log_call context ;;
      ret response
  end.

(** [UnaryStreamMethod.__call__], shared by [StreamStreamMethod]. *)
Definition UnaryStreamMethod_call (self : Method) (request : Value)
    (context : Context) (kwargs : Kwargs) : G :=
  match kw_dependencies_results kwargs with
  | None => g_raise missing_dependencies_results
  | Some dependencies_results =>
      async_generator_body
        (g_bind (solve_params self request context) (λ values,
           let iterator_response :=
             endpoint self (dict_update values dependencies_results) in
           g_then
             (g_map (async_for iterator_response)
                    (λ response, serialize_response self response context))
             (log_call context)))
  end.

(** ** fast_grpc/middleware *)

Definition Callable : Type := Value → Context → Kwargs → M Value.
Definition IterableCallable : Type := Value → Context → Kwargs → G.

(** [BaseWrapper] and its two subclasses: a callable object with a name and
    an optional [Dependencies]. *)
Record AsyncFunctionWrapper := {
  wf_func : Callable;
  wf_name : string;
  wf_dependencies : option Dependencies
}.
Record AsyncGeneratorWrapper := {
  wg_func : IterableCallable;
  wg_name : string;
  wg_dependencies : option Dependencies
}.

(** [kwargs |= await self.dependencies.get_dependencies_results()] *)
Definition with_dependencies_results (kwargs : Kwargs)
    (r : list (string * Value)) : Kwargs :=
  {| kw_method_descriptor := kw_method_descriptor kwargs;
     kw_dependencies_results := Some r |}.

(** [AsyncFunctionWrapper.__call__] *)
Definition AsyncFunctionWrapper_call (self : AsyncFunctionWrapper) : Callable :=
  λ request context kwargs,
    match wf_dependencies self with
    | Some deps =>
        r <- get_dependencies_results deps ;;
        wf_func self request context (with_dependencies_results kwargs r)
    | None => wf_func self request context kwargs
    end.

(** [AsyncGeneratorWrapper.__call__] *)
Definition AsyncGeneratorWrapper_call (self : AsyncGeneratorWrapper)
    : IterableCallable :=
  λ request context kwargs,
    async_generator_body
      match wg_dependencies self with
      | Some deps =>
          g_bind (get_dependencies_results deps) (λ r,
            wg_func self request context (with_dependencies_results kwargs r))
      | None => wg_func self request context kwargs
      end.

(** A middleware is called as [m(method, request, context, **kwargs)]. *)
Definition Middleware : Type := AsyncFunctionWrapper → Callable.
Definition IterableMiddleware : Type := AsyncGeneratorWrapper → IterableCallable.

Definition ExceptionHandler : Type := Value → Context → Exc → M unit.

(** [kwargs.pop("method_descriptor", None)] leaves the other keys. *)
Definition pop_method_descriptor (kwargs : Kwargs) : Kwargs :=
  {| kw_method_descriptor := None;
     kw_dependencies_results := kw_dependencies_results kwargs |}.

Definition context_scheduler (context : Context) : option nat :=
  match context with
  | ServicerContext s => s
  | ControllerContext _ _ s => s
  end.

(** [NotIterableContextMiddleware.__call__] *)
Definition NotIterableContextMiddleware : Middleware :=
  λ method request context kwargs,
    match kw_method_descriptor kwargs with
    | Some method_descriptor =>
        let srv_context :=
          ControllerContext (wf_name method) method_descriptor None in
        AsyncFunctionWrapper_call method request srv_context
          (pop_method_descriptor kwargs)
    | None => raise (PlainException "Not found descriptor in context middleware")
    end.

(** [IterableContextMiddleware.__call__] *)
Definition IterableContextMiddleware : IterableMiddleware :=
  λ method request context kwargs,
    async_generator_body
      match kw_method_descriptor kwargs with
      | Some method_descriptor =>
          let srv_context :=
            ControllerContext (wg_name method) method_descriptor None in
          AsyncGeneratorWrapper_call method request srv_context
            (pop_method_descriptor kwargs)
      | None => g_done
      end.

(** The two [except] clauses shared by both exception middlewares. *)
Definition handle_exception (exception_handlers : gmap string ExceptionHandler)
    (request : Value) (context : Context) (exc : Exc) : M unit :=
  if isinstance exc "RpcError" then
    abort context UNKNOWN (exc_str exc)
  else if isinstance exc "Exception" then
    log_call context ;;
    match exception_handlers !! exc_type exc return M unit with
    | Some exception_handler => exception_handler request context exc
    | None => ret tt
    end ;;
    abort context UNKNOWN (exc_str exc)
  else raise exc.

(** [NotIterableExceptionMiddleware.__call__] *)
Definition NotIterableExceptionMiddleware
    (exception_handlers : gmap string ExceptionHandler) : Middleware :=
  λ method request context kwargs,
    try_except (AsyncFunctionWrapper_call method request context kwargs)
      (λ exc, handle_exception exception_handlers request context exc ;;
              ret VNone).

(** [IterableExceptionMiddleware.__call__] *)
Definition IterableExceptionMiddleware
    (exception_handlers : gmap string ExceptionHandler) : IterableMiddleware :=
  λ method request context kwargs,
    async_generator_body
      (g_try (AsyncGeneratorWrapper_call method request context kwargs)
         (handle_exception exception_handlers request context)).

(** [context.__setattr__("scheduler", self._scheduler)].  The code sets the
    attribute on the one context object of the call, so whoever holds that
    object sees it from then on; here the stages that run inside get the
    context with the attribute, and a stage outside keeps the value it
    passed down. *)
Definition set_scheduler (context : Context) (scheduler : nat) : Context :=
  match context with
  | ServicerContext _ => ServicerContext (Some scheduler)
  | ControllerContext name md _ => ControllerContext name md (Some scheduler)
  end.

Definition NotIterableSchedulerMiddleware (scheduler : nat) : Middleware :=
  λ method request context kwargs,
    AsyncFunctionWrapper_call method request (set_scheduler context scheduler) kwargs.

Definition IterableSchedulerMiddleware (scheduler : nat) : IterableMiddleware :=
  λ method request context kwargs,
    async_generator_body
      (AsyncGeneratorWrapper_call method request
         (set_scheduler context scheduler) kwargs).

(** *** middleware/manager.py *)

(** [functools.partial(m, wrapped, **kwargs)]: keywords given at the call
    override the stored ones. *)
Definition partial_function (m : Middleware) (wrapped : AsyncFunctionWrapper)
    (kwargs : Kwargs) : Callable :=
  λ request context call_kwargs,
    m wrapped request context (kwargs_merge kwargs call_kwargs).
Definition partial_generator (m : IterableMiddleware)
    (wrapped : AsyncGeneratorWrapper) (kwargs : Kwargs) : IterableCallable :=
  λ request context call_kwargs,
    m wrapped request context (kwargs_merge kwargs call_kwargs).

Record MiddlewareManager := {
  _middlewares : list Middleware;
  _iterable_middlewares : list IterableMiddleware
}.

Definition register (self : MiddlewareManager) (middlewares : list Middleware)
    : MiddlewareManager :=
  {| _middlewares := _middlewares self ++ middlewares;
     _iterable_middlewares := _iterable_middlewares self |}.
Definition register_iterable (self : MiddlewareManager)
    (middlewares : list IterableMiddleware) : MiddlewareManager :=
  {| _middlewares := _middlewares self;
     _iterable_middlewares := _iterable_middlewares self ++ middlewares |}.

(** The callable handed to the transport for one method. *)
Inductive MethodWrapper :=
| async_function_method_wrapper (f : Value → Context → M Value)
| async_generator_method_wrapper (f : Value → Context → G).

(** The loop [for m in reversed(middlewares)] of [wraps_middleware]. *)
Definition wrap_functions (kwargs : Kwargs) (middlewares : list Middleware)
    (wrapped : AsyncFunctionWrapper) : AsyncFunctionWrapper :=
  fold_left
    (λ wrapped m, {| wf_func := partial_function m wrapped kwargs;
                     wf_name := wf_name wrapped;
                     wf_dependencies := None |})
    (rev middlewares) wrapped.
Definition wrap_generators (kwargs : Kwargs)
    (middlewares : list IterableMiddleware) (wrapped : AsyncGeneratorWrapper)
    : AsyncGeneratorWrapper :=
  fold_left
    (λ wrapped m, {| wg_func := partial_generator m wrapped kwargs;
                     wg_name := wg_name wrapped;
                     wg_dependencies := None |})
    (rev middlewares) wrapped.

(** [MiddlewareManager.wraps_middleware(method, **kwargs)] *)
Definition wraps_middleware (self : MiddlewareManager) (method : Method)
    (kwargs : Kwargs) : MethodWrapper :=
  if is_response_iterable (mode method) then
    let wrapped :=
      wrap_generators kwargs (_iterable_middlewares self)
        {| wg_func := UnaryStreamMethod_call method;
           wg_name := method_name method; wg_dependencies := None |} in
    let wrapped :=
      {| wg_func := wg_func wrapped; wg_name := wg_name wrapped;
         wg_dependencies := Some (dependencies method) |} in
    async_generator_method_wrapper
      (λ request context,
         async_generator_body
           (AsyncGeneratorWrapper_call wrapped request context no_kwargs))
  else
    let wrapped :=
      wrap_functions kwargs (_middlewares self)
        {| wf_func := UnaryUnaryMethod_call method;
           wf_name := method_name method; wf_dependencies := None |} in
    let wrapped :=
      {| wf_func := wf_func wrapped; wf_name := wf_name wrapped;
         wf_dependencies := Some (dependencies method) |} in
    async_function_method_wrapper
      (λ request context, AsyncFunctionWrapper_call wrapped request context no_kwargs).

(** ** fast_grpc/exceptions/exception_handlers.py *)

Definition no_attribute (attr : string) : Exc :=
  AttributeError ("exception object has no attribute '" +:+ attr +:+ "'").

(** [ExceptionsHandlers._grpc_exception_handler] *)
Definition _grpc_exception_handler : ExceptionHandler :=
  λ _ context exc,
    match exc_data exc with
    | GrpcData status details => abort context status details
    | _ => raise (no_attribute "status")
    end.

(** [ExceptionsHandlers._pydantic_exception_handler] *)
Definition _pydantic_exception_handler : ExceptionHandler :=
  λ _ context exc,
    match exc_data exc with
    | ValidationData errors =>
        match errors with
        | exception :: _ =>
            let details :=
              err_msg exception +:+ ". Location: " +:+ py_str (err_loc exception)
              +:+ ". Input: " +:+ py_str (err_input exception) in
            abort context UNKNOWN details
        | [] => raise (IndexError "list index out of range")
        end
    | _ => raise (no_attribute "errors")
    end.

(** [base_exception_handlers]: one entry per handler, keyed by the class
    that annotates its [exc] parameter. *)
Definition base_exception_handlers : gmap string ExceptionHandler :=
  <["ValidationError" := _pydantic_exception_handler]>
    (<["GRPCException" := _grpc_exception_handler]> ∅).

(** ** fast_grpc/core/controller.py *)

(** The controller.  Its two built-in exception middlewares hold the very
    dictionary [exception_handlers], so the middleware lists are read off
    the controller when a method is bound: [user_middlewares] and
    [user_iterable_middlewares] are what [add_middleware] has appended to
    the manager's lists after the built-in stages. *)
Record Controller := {
  controller_name : string;
  proto : string;
  methods : gmap string Method;
  exception_handlers : gmap string ExceptionHandler;
  controller_scheduler : option nat;
  user_middlewares : list Middleware;
  user_iterable_middlewares : list IterableMiddleware
}.

Definition ends_with (suffix s : string) : bool :=
  bool_decide (String.substring (String.length s - String.length suffix)
                 (String.length suffix) s = suffix)
  && (String.length suffix <=? String.length s)%nat.

(** [Controller.__init__] *)
Definition Controller_init (name proto_ : string) (scheduler : option nat)
    : Result Controller :=
  if negb (bool_decide (proto_ = "")) && negb (ends_with ".proto" proto_)
  then Raise (ValueError "Service proto must end with '.proto'")
  else Ok {| controller_name := name; proto := proto_; methods := ∅;
             exception_handlers := base_exception_handlers;
             controller_scheduler := scheduler;
             user_middlewares := []; user_iterable_middlewares := [] |}.

(** [controller.middleware_manager] as it stands. *)
Definition middleware_manager (self : Controller) : MiddlewareManager :=
  {| _middlewares :=
       [NotIterableContextMiddleware;
        NotIterableExceptionMiddleware (exception_handlers self)]
       ++ match controller_scheduler self with
          | Some s => [NotIterableSchedulerMiddleware s]
          | None => []
          end
       ++ user_middlewares self;
     _iterable_middlewares :=
       [IterableContextMiddleware;
        IterableExceptionMiddleware (exception_handlers self)]
       ++ match controller_scheduler self with
          | Some s => [IterableSchedulerMiddleware s]
          | None => []
          end
       ++ user_iterable_middlewares self |}.

Definition set_methods (self : Controller) (ms : gmap string Method) : Controller :=
  {| controller_name := controller_name self; proto := proto self;
     methods := ms; exception_handlers := exception_handlers self;
     controller_scheduler := controller_scheduler self;
     user_middlewares := user_middlewares self;
     user_iterable_middlewares := user_iterable_middlewares self |}.

(** [Controller.add_method(endpoint, name=..., method_class=..., **kwargs)];
    [method_class] is given by its mode, and [oid] is the identity of the
    [Dependencies] object the constructor creates. *)
Definition add_method (self : Controller) (oid : nat) (endpoint_ : Endpoint)
    (method_class : MethodMode) (args : MethodArgs) : Result (Controller * Method) :=
  match BaseMethod_init method_class oid endpoint_ args with
  | Raise e => Raise e
  | Ok method =>
      Ok (set_methods self (<[method_name method := method]> (methods self)),
          method)
  end.

(** [Controller.add_exception_handler] *)
Definition add_exception_handler (self : Controller)
    (exceptions : gmap string ExceptionHandler) : Controller :=
  {| controller_name := controller_name self; proto := proto self;
     methods := methods self;
     exception_handlers := exceptions ∪ exception_handlers self;
     controller_scheduler := controller_scheduler self;
     user_middlewares := user_middlewares self;
     user_iterable_middlewares := user_iterable_middlewares self |}.

(** [Controller.add_middleware], the two kinds already told apart. *)
Definition add_middleware (self : Controller) (simple : list Middleware)
    (iterable : list IterableMiddleware) : Controller :=
  {| controller_name := controller_name self; proto := proto self;
     methods := methods self;
     exception_handlers := exception_handlers self;
     controller_scheduler := controller_scheduler self;
     user_middlewares := user_middlewares self ++ simple;
     user_iterable_middlewares := user_iterable_middlewares self ++ iterable |}.

(** One registration request, and a run of them. *)
Record Registration := {
  reg_oid : nat;
  reg_endpoint : Endpoint;
  reg_class : MethodMode;
  reg_args : MethodArgs
}.

Fixpoint add_methods (self : Controller) (regs : list Registration)
    : Result Controller :=
  match regs with
  | [] => Ok self
  | r :: rest =>
      match add_method self (reg_oid r) (reg_endpoint r) (reg_class r) (reg_args r) with
      | Raise e => Raise e
      | Ok (self', _) => add_methods self' rest
      end
  end.

(** [create_method] of [make_grpc_service_from_methods]: bind one method to
    its descriptor and wrap it. *)
Definition set_method_name (m : Method) (name : string) : Method :=
  {| method_name := name; mode := mode m; dependencies := dependencies m;
     endpoint := endpoint m; request_model := request_model m;
     response_model := response_model m; description := description m;
     request_param := request_param m; context_param := context_param m |}.

Definition create_method (full_name : string)
    (methods_by_name : gmap string MethodDescriptor)
    (manager : MiddlewareManager) (method : Method) : Result MethodWrapper :=
  match methods_by_name !! method_name method with
  | None => Raise (RuntimeError ("Method '" +:+ method_name method +:+ "' not found"))
  | Some method_descriptor =>
      let method := set_method_name method (full_name +:+ "." +:+ md_name method_descriptor) in
      Ok (wraps_middleware manager method
            {| kw_method_descriptor := Some method_descriptor;
               kw_dependencies_results := None |})
  end.

End Core.

(** ** Concrete collaborators and programs used in examples *)

(** [grpc.aio.AbortError] *)
Definition AbortError : Exc :=
  {| exc_type := "AbortError";
     exc_bases := ["BaseError"; "Exception"; "BaseException"];
     exc_str := ""; exc_data := NoData |}.

(** The [grpc.aio] transport: [abort] records the status and raises. *)
Definition grpc_aio : Transport := {| abort_signal := Some AbortError |}.
(** A transport whose [abort] records the status and returns. *)
Definition recording_transport : Transport := {| abort_signal := None |}.

(** A small codec: validation accepts everything, a message is its fields. *)
Definition simple_str (v : Value) : string :=
  match v with
  | VStr s => s
  | VNone => "None"
  | VBool true => "True"
  | VBool false => "False"
  | _ => "<object>"
  end.
Definition simple_codec : Codec :=
  {| model_validate := λ _ v, Ok v;
     model_dump_json := λ v, simple_str v;
     Parse := λ data cls, Ok (VMessage cls [("json", VStr data)]);
     ParseDict := λ items cls, Ok (VMessage cls items);
     MessageToDict := λ m, match m with VMessage _ fs => VDict fs | v => v end;
     is_base_model := λ _, true;
     py_str := simple_str |}.

Definition hello_descriptor : MethodDescriptor :=
  {| md_name := "SayHello"; input_type := "HelloRequest";
     output_type := "HelloReply" |}.

Definition no_args : MethodArgs :=
  {| arg_name := None; arg_request_model := None;
     arg_response_model := None; arg_description := "" |}.

(** [def sync_gen(): yield 1; <teardown>] *)
Definition sync_gen : Func := MkFunc 1 PNil (λ _, PGenerator [VInt 1]).
(** [def sync_dependency(): return "sync dependency"] *)
Definition sync_dependency : Func :=
  MkFunc 2 PNil (λ _, PReturn (VStr "sync dependency")).
(** [def failing_dependency(): raise ValueError("no database")] *)
Definition failing_dependency : Func :=
  MkFunc 3 PNil (λ _, PRaise (ValueError "no database")).
(** [def failing_teardown(): yield 1; raise ValueError("teardown failed")] *)
Definition failing_teardown : Func :=
  MkFunc 6 PNil (λ _, PGeneratorRaise [VInt 1] (ValueError "teardown failed")).
(** [def forbidden(): raise GRPCException(PERMISSION_DENIED, "no access")] *)
Definition forbidden : Func :=
  MkFunc 7 PNil (λ _, PRaise (GRPCException PERMISSION_DENIED "no access")).

(** [async def say_hello(request, <params>): return {"message": "Hello"}] *)
Definition say_hello (params : list (string * ParamDefault)) : Endpoint :=
  {| ep_name := "say_hello";
     ep_params := ("request", NoDefault) :: params;
     ep_request_annotation := NoAnnotation;
     ep_return_annotation := NoAnnotation;
     ep_call := λ kwargs, Coroutine (
       emit (EvEndpoint kwargs) ;;
       ret (VDict [("message", VStr "Hello")])) |}.

(** [async def broken(request, <params>): raise ValueError("boom")] *)
Definition broken (params : list (string * ParamDefault)) : Endpoint :=
  {| ep_name := "broken";
     ep_params := ("request", NoDefault) :: params;
     ep_request_annotation := NoAnnotation;
     ep_return_annotation := NoAnnotation;
     ep_call := λ kwargs, Coroutine (
       emit (EvEndpoint kwargs) ;; raise (ValueError "boom")) |}.

(** [async def unary_stream(request):
       for i in range(3): yield {"message": i}] *)
Definition unary_stream : Endpoint :=
  {| ep_name := "unary_stream";
     ep_params := [("request", NoDefault)];
     ep_request_annotation := NoAnnotation;
     ep_return_annotation := NoAnnotation;
     ep_call := λ kwargs, AsyncGenerator (λ w,
       (([VDict [("message", VInt 0)]; VDict [("message", VInt 1)];
          VDict [("message", VInt 2)]], None), w)) |}.

Definition hello_request : Value := VMessage "HelloRequest" [("name", VStr "World")].

(** ** Notions used to state the properties *)

Definition is_ok {A} (r : Result A) : Prop := ∃ a, r = Ok a.

(** The abort a call results in: the first one the transport sees among the
    events that follow [before]. *)
Fixpoint first_abort (evs : list Event) : option (StatusCode * string) :=
  match evs with
  | [] => None
  | EvAbort code details :: _ => Some (code, details)
  | _ :: rest => first_abort rest
  end.
Definition resulting_abort (before after : World) : option (StatusCode * string) :=
  first_abort (drop (length (trace before)) (trace after)).

(** The [next]/[anext] invocations among some events, and the invocations a
    list of handles stands for. *)
Fixpoint invocations (evs : list Event) : list nat :=
  match evs with
  | [] => []
  | EvNext g :: rest => g :: invocations rest
  | _ :: rest => invocations rest
  end.
Fixpoint handle_ids (handles : list Value) : list nat :=
  match handles with
  | [] => []
  | VGenerator g :: rest => g :: handle_ids rest
  | VAsyncGen g :: rest => g :: handle_ids rest
  | _ :: rest => handle_ids rest
  end.

(** How often producer [f] was entered. *)
Fixpoint calls (f : nat) (evs : list Event) : nat :=
  match evs with
  | [] => 0
  | EvCall f' :: rest => (if decide (f' = f) then 1 else 0) + calls f rest
  | _ :: rest => calls f rest
  end.

(** Status codes that blame the caller, following the canonical mapping of
    gRPC codes to HTTP 4xx. *)
Definition client_error_status (c : StatusCode) : bool :=
  match c with
  | INVALID_ARGUMENT | FAILED_PRECONDITION | OUT_OF_RANGE | UNAUTHENTICATED
  | PERMISSION_DENIED | NOT_FOUND | ALREADY_EXISTS | ABORTED
  | RESOURCE_EXHAUSTED | CANCELLED => true
  | _ => false
  end.

(** The producers of a dependency tree: a function with everything below it,
    and everything below a signature. *)
Fixpoint func_ids (f : Func) : list nat :=
  match f with
  | MkFunc id params _ => id :: params_ids params
  end
with params_ids (params : Params) : list nat :=
  match params with
  | PNil => []
  | PDepends _ dep rest => func_ids dep ++ params_ids rest
  | PDefault _ _ rest => params_ids rest
  end.

(** No producer is among its own dependencies, at any depth. *)
Fixpoint acyclic (f : Func) : Prop :=
  match f with
  | MkFunc id params _ => (id ∉ params_ids params) ∧ params_acyclic params
  end
with params_acyclic (params : Params) : Prop :=
  match params with
  | PNil => True
  | PDepends _ dep rest => acyclic dep ∧ params_acyclic rest
  | PDefault _ _ rest => params_acyclic rest
  end.

(** The parameters of a signature that carry a marker, with the producer
    each one names. *)
Fixpoint depends_of (params : Params) : list (string * nat) :=
  match params with
  | PNil => []
  | PDepends name dep rest => (name, fn_id dep) :: depends_of rest
  | PDefault _ _ rest => depends_of rest
  end.

(** Computations that keep a reflexive and transitive relation between the
    store before and the store after, whatever their outcome. *)
Definition preserves (R : World → World → Prop) {A} (m : M A) : Prop :=
  ∀ w, R w (m w).2.

(** What resolving under the marker [self] may do to the store: objects are
    created, the [Dependencies] lists are left alone, the marker's own list
    grows at its end, and every generator object created is on the part
    added. *)
Definition resolution_step (self : nat) (w w' : World) : Prop :=
  (next_generator w ≤ next_generator w')%nat
  ∧ dependencies_cached w' = dependencies_cached w
  ∧ ∃ new, cached_list (depends_cached w') self
           = cached_list (depends_cached w) self ++ new
           ∧ ∀ g, (next_generator w ≤ g < next_generator w')%nat →
                  g ∈ handle_ids new.

(** The body of generator [g] does not raise after its last [yield]: it
    returns, or [g] has finished already. *)
Definition returns_normally (w : World) (g : nat) : Prop :=
  ∀ ys e, generators w !! g ≠ Some (ys, Some e).

Definition succeeded {A} (r : Result A) : bool :=
  match r with Ok _ => true | Raise _ => false end.

(** What resolving the endpoint's dependencies does to the handle list of the
    [Dependencies] object [ds]: the list grows at its end, and when the step
    is [complete] every generator object created is on the part added. *)
Definition registration_step (complete : bool) (ds : nat) (w w' : World) : Prop :=
  (next_generator w ≤ next_generator w')%nat
  ∧ ∃ new, cached_list (dependencies_cached w') ds
           = cached_list (dependencies_cached w) ds ++ new
           ∧ (complete = true →
              ∀ g, (next_generator w ≤ g < next_generator w')%nat →
                   g ∈ handle_ids new).

(** A step that creates nothing and only appends to the list of [ds]. *)
Definition appends_only (ds : nat) (w w' : World) : Prop :=
  next_generator w' = next_generator w
  ∧ ∃ new, cached_list (dependencies_cached w') ds
           = cached_list (dependencies_cached w) ds ++ new.

(** Events of a step that enters no producer. *)
Definition quiet (w w' : World) : Prop :=
  ∃ evs, trace w' = trace w ++ evs ∧ ∀ f, calls f evs = 0%nat.

(** What one run of the resolver over a signature, started with [cache],
    has done when it ends in [r] and [w']. *)
Definition params_resolved (params : Params) (cache : gmap nat Value)
    (w : World) (r : Result (list (string * Value) * gmap nat Value))
    (w' : World) : Prop :=
  ∃ evs, trace w' = trace w ++ evs
    ∧ (∀ f, (calls f evs ≤ 1)%nat)
    ∧ (∀ f, (0 < calls f evs)%nat → f ∈ params_ids params ∧ cache !! f = None)
    ∧ ∀ kwargs cache', r = Ok (kwargs, cache') →
        cache ⊆ cache'
        ∧ (∀ f, is_Some (cache' !! f) →
                is_Some (cache !! f) ∨ f ∈ params_ids params)
        ∧ (∀ f, (0 < calls f evs)%nat → is_Some (cache' !! f))
        ∧ (∀ name f, (name, f) ∈ depends_of params →
             ∃ v, cache' !! f = Some v ∧ (name, v) ∈ kwargs).

Definition func_resolved (func : Func) (cache : gmap nat Value)
    (w : World) (r : Result (Value * gmap nat Value)) (w' : World) : Prop :=
  ∃ evs, trace w' = trace w ++ evs
    ∧ (∀ f, (calls f evs ≤ 1)%nat)
    ∧ (∀ f, (0 < calls f evs)%nat → f ∈ func_ids func ∧ cache !! f = None)
    ∧ (fn_params func = PNil → calls (fn_id func) evs = 1%nat)
    ∧ ∀ v cache', r = Ok (v, cache') →
        cache ⊆ cache'
        ∧ (∀ f, is_Some (cache' !! f) →
                is_Some (cache !! f) ∨ f ∈ params_ids (fn_params func))
        ∧ (∀ f, (0 < calls f evs)%nat → f = fn_id func ∨ is_Some (cache' !! f))
        ∧ calls (fn_id func) evs = 1%nat.

Section Notions.
Context `{Transport} `{Codec}.

(** The method a registration constructs, if its constructor succeeds. *)
Definition constructed (r : Registration) : Result Method :=
  BaseMethod_init (reg_class r) (reg_oid r) (reg_endpoint r) (reg_args r).

(** The last method of [regs] registered under [name]. *)
Fixpoint last_registered (name : string) (regs : list Registration)
    : option Method :=
  match regs with
  | [] => None
  | r :: rest =>
      match last_registered name rest with
      | Some m => Some m
      | None =>
          match constructed r with
          | Ok m => if decide (method_name m = name) then Some m else None
          | Raise _ => None
          end
      end
  end.

(** The chain as a right fold: the first middleware of the list is the
    outermost stage, [inner] the innermost. *)
Fixpoint function_chain (kwargs : Kwargs) (name : string)
    (middlewares : list Middleware) (inner : Callable) : Callable :=
  match middlewares with
  | [] => inner
  | m :: rest =>
      partial_function m
        {| wf_func := function_chain kwargs name rest inner;
           wf_name := name; wf_dependencies := None |} kwargs
  end.
Fixpoint generator_chain (kwargs : Kwargs) (name : string)
    (middlewares : list IterableMiddleware) (inner : IterableCallable)
    : IterableCallable :=
  match middlewares with
  | [] => inner
  | m :: rest =>
      partial_generator m
        {| wg_func := generator_chain kwargs name rest inner;
           wg_name := name; wg_dependencies := None |} kwargs
  end.

(** What the transport calls for a single-result method and for a
    sequence-producing one. *)
Definition dispatch_function (mgr : MiddlewareManager) (method : Method)
    (kwargs : Kwargs) (request : Value) (context : Context) : M Value :=
  match wraps_middleware mgr method kwargs with
  | async_function_method_wrapper f => f request context
  | async_generator_method_wrapper _ =>
      raise (TypeError "object async_generator can't be used in 'await' expression")
  end.

Definition dispatch_generator (mgr : MiddlewareManager) (method : Method)
    (kwargs : Kwargs) (request : Value) (context : Context) : G :=
  match wraps_middleware mgr method kwargs with
  | async_generator_method_wrapper f => f request context
  | async_function_method_wrapper _ =>
      g_raise (TypeError "'async for' requires an object with __aiter__ method, got coroutine")
  end.

End Notions.

(** ** One controller, bound and called *)

Section Greeter.
#[local] Existing Instance grpc_aio.
#[local] Existing Instance simple_codec.

(** [Controller("Greeter", "greeter.proto")] *)
Definition greeter : Controller :=
  {| controller_name := "Greeter"; proto := "greeter.proto"; methods := ∅;
     exception_handlers := base_exception_handlers;
     controller_scheduler := None;
     user_middlewares := []; user_iterable_middlewares := [] |}.

(** The keyword arguments [create_method] passes to [wraps_middleware]. *)
Definition with_descriptor : Kwargs :=
  {| kw_method_descriptor := Some hello_descriptor;
     kw_dependencies_results := None |}.

(** The method [add_method] constructs for [ep], its [Dependencies] being
    object 0. *)
Definition constructed_method (md : MethodMode) (ep : Endpoint) : Method :=
  match BaseMethod_init md 0 ep no_args with
  | Ok m => m
  | Raise _ =>
      {| method_name := ""; mode := md;
         dependencies := Dependencies_init 0 ep;
         endpoint := ep_call ep; request_model := None;
         response_model := None; description := "";
         request_param := ""; context_param := None |}
  end.

(** One call of the bound method on [hello_request], from the store [w]. *)
Definition call_function (ep : Endpoint) (kwargs : Kwargs) (w : World)
    : Result Value * World :=
  dispatch_function (middleware_manager greeter)
    (constructed_method UNARY_UNARY ep) kwargs hello_request
    (ServicerContext None) w.
Definition call_generator (ep : Endpoint) (kwargs : Kwargs) (w : World)
    : (list Value * option Exc) * World :=
  dispatch_generator (middleware_manager greeter)
    (constructed_method UNARY_STREAM ep) kwargs hello_request
    (ServicerContext None) w.

(** What is seen of a run: its outcome, the events since [before], and the
    handle list of the method. *)
Definition observed {A} (before : World) (run : A * World)
    : A * list Event * list Value :=
  (run.1, drop (length (trace before)) (trace run.2),
   cached_list (dependencies_cached run.2) 0).

Definition marker (id : nat) (f : Func) : ParamDefault :=
  DefaultDepends {| depends_id := id; dependency := f |}.

Definition bound_context : Context :=
  ControllerContext "SayHello" hello_descriptor None.

(** A [ValidationError] with one error: field [name] is missing. *)
Definition missing_name : Exc :=
  ValidationError "1 validation error for HelloRequest"
    [{| err_msg := "Field required"; err_loc := VTuple [VStr "name"];
        err_input := VDict [] |}].

(** Two endpoints whose names resolve to the same method name. *)
Definition two_registrations : list Registration :=
  [{| reg_oid := 0; reg_endpoint := say_hello []; reg_class := UNARY_UNARY;
      reg_args := no_args |};
   {| reg_oid := 1;
      reg_endpoint :=
        {| ep_name := "Say_Hello"; ep_params := [("request", NoDefault)];
           ep_request_annotation := NoAnnotation;
           ep_return_annotation := NoAnnotation;
           ep_call := λ _, Coroutine (ret VNone) |};
      reg_class := UNARY_STREAM; reg_args := no_args |}].

End Greeter.

Section GreeterHandlers.
#[local] Existing Instance grpc_aio.
#[local] Existing Instance simple_codec.

(** The default registry plus a handler registered for the class
    [Exception] itself. *)
Definition catch_all_handlers : gmap string ExceptionHandler :=
  <["Exception" := λ _ context _, abort context INTERNAL "caught"]>
    base_exception_handlers.

(** [async def typed_hello(request) -> HelloReply]: an endpoint with a
    declared response schema. *)
(** [async def replies(request) -> HelloReply: yield ...] and
    [async def replies(request) -> AsyncIterator[HelloReply]: yield ...] *)
Definition replies (annotation : Annotation) : Endpoint :=
  {| ep_name := "replies"; ep_params := [("request", NoDefault)];
     ep_request_annotation := NoAnnotation;
     ep_return_annotation := annotation;
     ep_call := λ _, AsyncGenerator g_done |}.
Definition async_iterator_of_replies : Annotation :=
  GenericAlias "AsyncIterator[HelloReply]" (OriginClass true)
    [ModelClass "HelloReply"].

Definition typed_hello : Endpoint :=
  {| ep_name := "typed_hello"; ep_params := [("request", NoDefault)];
     ep_request_annotation := NoAnnotation;
     ep_return_annotation := ClassAnnotation "HelloReply";
     ep_call := λ _, Coroutine (ret (VModel "HelloReply" [])) |}.

End GreeterHandlers.

(** ** Further notions: dictionary lookups *)

(** [d.get(k)] *)
Fixpoint dict_get (k : string) (d : list (string * Value)) : option Value :=
  match d with
  | [] => None
  | (k', v) :: d' => if decide (k = k') then Some v else dict_get k d'
  end.

(** A codec whose validation accepts exactly the dictionaries that carry a
    [name] field; everything else is as in [simple_codec]. *)
Definition strict_codec : Codec :=
  {| model_validate := λ cls v,
       match v with
       | VDict fs =>
           match dict_get "name" fs with
           | Some _ => Ok (VModel cls fs)
           | None =>
               Raise (ValidationError ("1 validation error for " +:+ cls)
                        [{| err_msg := "Field required";
                            err_loc := VTuple [VStr "name"];
                            err_input := VDict fs |}])
           end
       | VModel _ fs => Ok (VModel cls fs)
       | _ =>
           Raise (ValidationError ("1 validation error for " +:+ cls)
                    [{| err_msg := "Input should be a valid dictionary";
                        err_loc := VTuple []; err_input := v |}])
       end;
     model_dump_json := λ v, simple_str v;
     Parse := λ data cls, Ok (VMessage cls [("json", VStr data)]);
     ParseDict := λ items cls, Ok (VMessage cls items);
     MessageToDict := λ m, match m with VMessage _ fs => VDict fs | v => v end;
     is_base_model := λ cls, bool_decide (cls ≠ "dict");
     py_str := simple_str |}.

(** A method with a request model and a context parameter, its endpoint
    being [async def say_hello(request: HelloRequest, context)]. *)
Definition validated_hello : Method :=
  {| method_name := "SayHello"; mode := UNARY_UNARY;
     dependencies := {| dependencies_id := 0; endpoint_dependencies := [] |};
     endpoint := λ kwargs, Coroutine (emit (EvEndpoint kwargs) ;; ret (VDict []));
     request_model := Some "HelloRequest"; response_model := None;
     description := ""; request_param := "request";
     context_param := Some "context" |}.


(** ** Further notions: signatures and repeated resolution *)

(** The signature of a producer as the resolver reads it: each parameter
    name with its default, [None] standing for a [Depends] marker. *)
Fixpoint signature (params : Params) : list (string * option Value) :=
  match params with
  | PNil => []
  | PDepends name _ rest => (name, None) :: signature rest
  | PDefault name default rest => (name, Some default) :: signature rest
  end.

Definition is_depends (d : ParamDefault) : bool :=
  match d with DefaultDepends _ => true | _ => false end.

(** The names of the endpoint parameters that carry a marker, in signature
    order. *)
Definition depends_params (params : list (string * ParamDefault)) : list string :=
  map fst (filter (λ p, is_depends p.2) params).

(** Values that are neither generator objects nor coroutine objects. *)
Definition is_plain (v : Value) : bool :=
  match v with
  | VGenerator _ | VAsyncGen _ | VCoroutine _ => false
  | _ => true
  end.

(** What one call that goes well does to the store, the endpoint's own
    effects apart: the dependencies are resolved and, the endpoint having
    returned, the cleanup loop runs over the method's handle list. *)
Definition resolve_and_close (self : Dependencies) (w : World) : World :=
  let w1 := (get_dependencies_results self w).2 in
  (close_dependencies
     (cached_list (dependencies_cached w1) (dependencies_id self)) w1).2.

(** The store after [n] such calls in a row. *)
Definition call_rounds (self : Dependencies) (n : nat) (w : World) : World :=
  Nat.iter n (resolve_and_close self) w.

(** The events of [after] that follow those of [before]. *)
Definition new_events (before after : World) : list Event :=
  drop (length (trace before)) (trace after).

(** ** core/controller.py: building the servicer class *)

(** A service of the compiled proto module: [full_name] and
    [methods_by_name]. *)
Record ServiceDescriptor := {
  full_name : string;
  methods_by_name : gmap string MethodDescriptor
}.

Section Servicer.
Context `{Transport} `{Codec}.

(** The dictionary comprehension of [make_grpc_service_from_methods]: the
    entries of [methods] in order, the first failure ending it. *)
Fixpoint create_methods (controller_descriptor : ServiceDescriptor)
    (manager : MiddlewareManager) (items : list (string * Method))
    : Result (list (string * MethodWrapper)) :=
  match items with
  | [] => Ok []
  | (name, method) :: rest =>
      match create_method (full_name controller_descriptor)
              (methods_by_name controller_descriptor) manager method with
      | Raise e => Raise e
      | Ok wrapped =>
          match create_methods controller_descriptor manager rest with
          | Raise e => Raise e
          | Ok wrapped_methods => Ok ((name, wrapped) :: wrapped_methods)
          end
      end
  end.

(** [make_grpc_service_from_methods]; the result is the dictionary of the
    class it creates. *)
Definition make_grpc_service_from_methods
    (services_by_name : gmap string ServiceDescriptor) (controller_name : string)
    (methods : list (string * Method)) (manager : MiddlewareManager)
    : Result (list (string * MethodWrapper)) :=
  match services_by_name !! controller_name with
  | None => Raise (KeyError ("'" +:+ controller_name +:+ "'"))
  | Some controller_descriptor =>
      create_methods controller_descriptor manager methods
  end.

End Servicer.

(** ** Further collaborators used in examples *)

(** [grpc.aio.AioRpcError], a [grpc.RpcError]. *)
Definition AioRpcError (msg : string) : Exc :=
  {| exc_type := "AioRpcError";
     exc_bases := ["RpcError"; "Exception"; "BaseException"];
     exc_str := msg; exc_data := NoData |}.

(** [asyncio.CancelledError], a [BaseException] that is no [Exception]. *)
Definition CancelledError : Exc :=
  {| exc_type := "CancelledError"; exc_bases := ["BaseException"];
     exc_str := ""; exc_data := NoData |}.

Section GreeterService.
#[local] Existing Instance grpc_aio.
#[local] Existing Instance simple_codec.

(** [Controller("Greeter", "greeter.proto", scheduler)] *)
Definition scheduled_greeter : Controller :=
  {| controller_name := "Greeter"; proto := "greeter.proto"; methods := ∅;
     exception_handlers := base_exception_handlers;
     controller_scheduler := Some 7%nat;
     user_middlewares := []; user_iterable_middlewares := [] |}.

(** The services of the module compiled from [greeter.proto]. *)
Definition greeter_services : gmap string ServiceDescriptor :=
  {[ "Greeter" := {| full_name := "greeter.Greeter";
                     methods_by_name := {[ "SayHello" := hello_descriptor ]} |} ]}.

(** A handler a user registers for [ValidationError]. *)
Definition invalid_argument_handler : ExceptionHandler :=
  λ _ context _, abort context INVALID_ARGUMENT "bad request".

End GreeterService.

(** ** schema/utils.py: naming conventions *)

(** The character classes [A-Z] and [a-z]. *)
Definition is_upper (c : ascii) : bool :=
  let n := Ascii.nat_of_ascii c in (65 <=? n)%nat && (n <=? 90)%nat.
Definition is_lower (c : ascii) : bool :=
  let n := Ascii.nat_of_ascii c in (97 <=? n)%nat && (n <=? 122)%nat.
Definition is_ascii (c : ascii) : bool := (Ascii.nat_of_ascii c <? 128)%nat.

Fixpoint string_forall (p : ascii → bool) (s : string) : bool :=
  match s with
  | EmptyString => true
  | String c s' => p c && string_forall p s'
  end.

(** [re.sub(r"(?=[A-Z])", "_", s)]: an underscore before every capital. *)
Fixpoint underscore_capitals (s : string) : string :=
  match s with
  | EmptyString => EmptyString
  | String c s' =>
      if is_upper c then String "_" (String c (underscore_capitals s'))
      else String c (underscore_capitals s')
  end.

(** [camel_to_snake]: the look-behind [(?<!^)] exempts the first character;
    the result is lowered and one leading underscore is dropped. *)
Definition camel_to_snake (name : string) : string :=
  let snake_case_str :=
    map_string lower
      match name with
      | EmptyString => EmptyString
      | String c rest => String c (underscore_capitals rest)
      end in
  match snake_case_str with
  | String c rest => if decide (c = "_"%char) then rest else snake_case_str
  | EmptyString => snake_case_str
  end.

(** [snake_to_camel] *)
Definition snake_to_camel (name : string) : string :=
  String.concat "" (map capitalize (split "_"%char name)).

(** [is_camel_case]: the automaton of [^(?:[A-Z][a-z]+)*$].  A word is a
    capital followed by at least one small letter; [$] also matches before
    a newline that ends the string. *)
Inductive CamelState := AtBoundary | AfterCapital | InWord.

Fixpoint camel_case_from (st : CamelState) (s : string) : bool :=
  match s with
  | EmptyString => match st with AfterCapital => false | _ => true end
  | String c rest =>
      match st with
      | AfterCapital => is_lower c && camel_case_from InWord rest
      | _ =>
          if is_upper c then camel_case_from AfterCapital rest
          else if is_lower c then
            match st with
            | InWord => camel_case_from InWord rest
            | _ => false
            end
          else bool_decide (c = "010"%char ∧ rest = EmptyString)
      end
  end.

Definition is_camel_case (name : string) : bool :=
  camel_case_from AtBoundary name.

(** The number of occurrences of a character. *)
Fixpoint count_char (c : ascii) (s : string) : nat :=
  match s with
  | EmptyString => 0
  | String c' s' => (if decide (c' = c) then 1 else 0) + count_char c s'
  end.

(** A word of an endpoint name: a small letter followed by ASCII characters
    none of which is a capital; and a name made of such words. *)
Definition name_word (w : string) : bool :=
  match w with
  | EmptyString => false
  | String c rest =>
      is_lower c && string_forall (λ x, is_ascii x && negb (is_upper x)) rest
  end.
Definition words_name (s : string) : bool :=
  forallb name_word (split "_"%char s).

(** ** core/app.py and core/meta.py *)

(** What [_get_request_return_types] computes for an annotation: its
    [__base__], or that of its origin. *)
Inductive AnnotationBase := BaseModelBase | AsyncIterableBase | OtherBase.

(** [ControllerMeta._get_method_type_by_annotations]; an annotation is given
    by its base, [None] standing for a missing (or falsy) annotation, and
    the method class by its mode. *)
Definition _get_method_type_by_annotations (name : string)
    (request return_ : option AnnotationBase) : Result MethodMode :=
  match return_ with
  | None => Raise (PlainException ("No return in method " +:+ name))
  | Some return_base =>
      match request with
      | None => Raise (PlainException ("No request in method " +:+ name))
      | Some request_base =>
          match request_base, return_base with
          | BaseModelBase, BaseModelBase => Ok UNARY_UNARY
          | AsyncIterableBase, BaseModelBase => Ok STREAM_UNARY
          | BaseModelBase, AsyncIterableBase => Ok UNARY_STREAM
          | AsyncIterableBase, AsyncIterableBase => Ok STREAM_STREAM
          | _, _ =>
              Raise (PlainException
                       ("Request or return of the wrong types in method " +:+ name))
          end
      end
  end.


(** The application: its scheduler, the proto path of its own service
    ([self.service.proto], which nothing reassigns) and the controllers by
    path name. *)
Record FastGRPC := {
  app_scheduler : option nat;
  service_proto : string;
  _services : gmap string Controller
}.

Section Application.
Context `{Transport} `{Codec}.



(** [FastGRPC.__init__] *)
Definition FastGRPC_init (service_name proto_ : string) (scheduler : option nat)
    : Result FastGRPC :=
  match Controller_init service_name proto_ scheduler with
  | Raise e => Raise e
  | Ok service =>
      Ok {| app_scheduler := scheduler; service_proto := proto_;
            _services := {[ proto_ +:+ ":" +:+ service_name := service ]} |}
  end.

(** [FastGRPC.add_service]: [methods.update] lets the entries of the added
    service win. *)
Definition add_service (self : FastGRPC) (service : Controller)
    : Result FastGRPC :=
  let proto_ :=
    if decide (proto service = "") then service_proto self else proto service in
  let path_name := proto_ +:+ ":" +:+ controller_name service in
  match _services self !! path_name with
  | Some existing =>
      Ok {| app_scheduler := app_scheduler self;
            service_proto := service_proto self;
            _services :=
              <[path_name := set_methods existing
                               (methods service ∪ methods existing)]>
                (_services self) |}
  | None =>
      match Controller_init (controller_name service) proto_ (app_scheduler self) with
      | Raise e => Raise e
      | Ok created =>
          Ok {| app_scheduler := app_scheduler self;
                service_proto := service_proto self;
                _services :=
                  <[path_name := set_methods created
                                   (methods service ∪ methods created)]>
                    (_services self) |}
      end
  end.

End Application.

Section GreeterApplication.
#[local] Existing Instance grpc_aio.
#[local] Existing Instance simple_codec.

(** A controller whose user registered a handler and a method before
    handing it to the application. *)
Definition configured_greeter : Controller :=
  {| controller_name := "Greeter"; proto := "greeter.proto";
     methods := {[ "SayHello" := constructed_method UNARY_UNARY (say_hello []) ]};
     exception_handlers := catch_all_handlers;
     controller_scheduler := Some 7%nat;
     user_middlewares := []; user_iterable_middlewares := [] |}.

(** [FastGRPC()] with its defaults. *)
Definition default_app : FastGRPC :=
  {| app_scheduler := None; service_proto := "fast_grpc.proto";
     _services :=
       {[ "fast_grpc.proto:FastGRPC" :=
            {| controller_name := "FastGRPC"; proto := "fast_grpc.proto";
               methods := ∅; exception_handlers := base_exception_handlers;
               controller_scheduler := None;
               user_middlewares := []; user_iterable_middlewares := [] |} ]} |}.


End GreeterApplication.

(** * Properties *)

Section MonadLaws.

Lemma bind_raise {A B} (m : M A) (k : A → M B) w e w' :
  m w = (Raise e, w') → bind m k w = (Raise e, w').
Proof. intros E. unfold bind. by rewrite E. Qed.

Lemma try_except_raise {A} (m : M A) h w e w' :
  m w = (Raise e, w') → try_except m h w = h e w'.
Proof. intros E. unfold try_except. by rewrite E. Qed.

End MonadLaws.

Section Registration.
Context `{Transport} `{Codec}.

Lemma add_method_ok (c : Controller) oid ep cls args m :
  BaseMethod_init cls oid ep args = Ok m →
  add_method c oid ep cls args
  = Ok (set_methods c (<[method_name m := m]> (methods c)), m).
Proof. intros E. unfold add_method. by rewrite E. Qed.

(** C10: registering under a name that is already taken does not raise: a run
    of registrations succeeds as soon as every constructor succeeds on its
    own, whatever names they resolve to, and afterwards the controller holds
    under each name the last method registered under it (and what it held
    before under the names no registration used). *)
Theorem add_method_last_registration_wins (c : Controller)
    (regs : list Registration) :
  Forall (λ r, is_ok (constructed r)) regs →
  ∃ c', add_methods c regs = Ok c' ∧
        ∀ name, methods c' !! name
                = match last_registered name regs with
                  | Some m => Some m
                  | None => methods c !! name
                  end.
Proof.
  revert c.
  induction regs as [|r regs IH]; intros c Hall.
  - exists c. split; [done|]. intros name. done.
  - apply Forall_cons in Hall as [[m Hm] Hall].
    unfold constructed in Hm.
    destruct (IH (set_methods c (<[method_name m := m]> (methods c))) Hall)
      as (c' & Hrun & Hlook).
    exists c'. split.
    + simpl. by rewrite (add_method_ok _ _ _ _ _ _ Hm).
    + intros name. rewrite Hlook. simpl.
      destruct (last_registered name regs) as [m'|]; [done|].
      unfold constructed. rewrite Hm.
      destruct (decide (method_name m = name)) as [<-|Hne].
      * apply lookup_insert_eq.
      * by apply lookup_insert_ne.
Qed.

End Registration.

Section Serialization.
Context `{Transport} `{Codec}.

(** C8: the serialization policy with its three branches, on a bound context
    whose descriptor names the wire type [out].  A result that already is a
    message of the wire type is returned unchanged; otherwise, with a
    response schema [cls] declared, it is validated against [cls] and the
    validated model's JSON is parsed into the wire type; otherwise a dict is
    parsed directly into the wire type. *)
Theorem serialize_response_policy (self : Method) (response : Value)
    (name : string) (md : MethodDescriptor) (sched : option nat) (w : World) :
  let context := ControllerContext name md sched in
  let out := output_type md in
  (is_message_of response out = true →
     serialize_response self response context w = (Ok response, w))
  ∧ (∀ cls, is_message_of response out = false →
       response_model self = Some cls →
       serialize_response self response context w
       = (match model_validate cls response with
          | Ok validated => Parse (model_dump_json validated) out
          | Raise e => Raise e
          end, w))
  ∧ (∀ items, is_message_of response out = false →
       response_model self = None →
       response = VDict items →
       serialize_response self response context w = (ParseDict items out, w)).
Proof.
  intros context out. unfold serialize_response, context, out. simpl.
  repeat split.
  - intros E. unfold bind, ret. simpl. by rewrite E.
  - intros cls E Hm. unfold bind, ret, lift_result. simpl. rewrite E, Hm.
    by destruct (model_validate cls response).
  - intros items E Hm ->. unfold bind, ret, lift_result. simpl.
    simpl in E. by rewrite Hm.
Qed.

Lemma abort_result (context : Context) code details (w : World) :
  abort context code details w
  = (match abort_signal with Some e => Raise e | None => Ok tt end,
     set_trace (λ t, t ++ [EvAbort code details]) w).
Proof.
  unfold abort, bind, emit, modify, ret, raise. simpl.
  by destruct abort_signal.
Qed.

(** C9, as the code has it: the default handler of a [ValidationError] aborts
    with the status [UNKNOWN], and the details are the message of the first
    reported error, its location and its input.  The default registry holds
    this handler under the exact class [ValidationError], and the exception
    stage runs it first when such an error reaches it. *)
Theorem pydantic_handler_aborts_unknown (request : Value) (name : string)
    (md : MethodDescriptor) (sched : option nat) (msg : string)
    (first : ErrorDetails) (others : list ErrorDetails) (w : World) :
  let context := ControllerContext name md sched in
  let exc := ValidationError msg (first :: others) in
  let details := err_msg first +:+ ". Location: " +:+ py_str (err_loc first)
                 +:+ ". Input: " +:+ py_str (err_input first) in
  _pydantic_exception_handler request context exc w
  = abort context UNKNOWN details w
  ∧ trace (_pydantic_exception_handler request context exc w).2
    = trace w ++ [EvAbort UNKNOWN details]
  ∧ handle_exception base_exception_handlers request context exc w
    = (_pydantic_exception_handler request context exc ;;
       abort context UNKNOWN (exc_str exc)) w
  ∧ resulting_abort w
      (handle_exception base_exception_handlers request context exc w).2
    = Some (UNKNOWN, details).
Proof.
  intros context exc details.
  assert (Hh : _pydantic_exception_handler request context exc w
               = abort context UNKNOWN details w) by done.
  split; [done|]. split; [by rewrite Hh, abort_result|].
  assert (He : handle_exception base_exception_handlers request context exc w
    = (_pydantic_exception_handler request context exc ;;
       abort context UNKNOWN (exc_str exc)) w).
  { unfold handle_exception.
    replace (isinstance exc "RpcError") with false by (by vm_compute).
    replace (isinstance exc "Exception") with true by (by vm_compute).
    replace (exc_type exc) with "ValidationError" by done.
    unfold base_exception_handlers. rewrite lookup_insert_eq.
    unfold log_call, context, controller_method_name_of. done. }
  split; [done|].
  rewrite He. unfold bind at 1. rewrite Hh, abort_result.
  unfold resulting_abort.
  destruct abort_signal as [e|]; simpl.
  - rewrite drop_app_length. done.
  - rewrite abort_result. simpl.
    rewrite <- app_assoc. rewrite drop_app_length. done.
Qed.

End Serialization.

Section Streaming.
Context `{Transport} `{Codec}.

(** Whatever the endpoint is, the method holds the cleanup wrapper, and
    calling the wrapper gives a coroutine object. *)
Lemma constructed_endpoint_is_coroutine md self ep args (m : Method) kwargs :
  BaseMethod_init md self ep args = Ok m →
  ∃ body, endpoint m kwargs = Coroutine body.
Proof.
  unfold BaseMethod_init. intros E.
  destruct (map fst (ep_params ep)); [done|].
  destruct (get_param_annotation_model _ _); [|done].
  destruct (get_param_annotation_model _ _); [|done].
  destruct (model_or _ _) as [[cls|alias]|].
  - destruct (is_base_model cls); [|done].
    inversion E; subst; simpl. eauto.
  - done.
  - inversion E; subst; simpl. eauto.
Qed.

(** A streaming method built by [BaseMethod.__init__] never yields: iterating
    the coroutine object that the wrapper returns is a [TypeError]. *)
Lemma constructed_stream_method_never_yields md self ep args (m : Method)
    request context kwargs w :
  BaseMethod_init md self ep args = Ok m →
  (UnaryStreamMethod_call m request context kwargs w).1.1 = [].
Proof.
  intros E. unfold UnaryStreamMethod_call.
  destruct (kw_dependencies_results kwargs) as [deps|]; [|done].
  unfold async_generator_body, g_bind.
  destruct (solve_params m request context w) as [[values|e] w1]; [|done].
  destruct (constructed_endpoint_is_coroutine _ _ _ _ _
              (dict_update values deps) E) as [body ->].
  done.
Qed.

(** Leaving a second async generator changes nothing more. *)
Lemma leaving_async_generator_idemp (e : Exc) :
  leaving_async_generator (leaving_async_generator e)
  = leaving_async_generator e.
Proof.
  unfold leaving_async_generator.
  destruct (isinstance e "StopIteration") eqn:E1; [by vm_compute|].
  destruct (isinstance e "StopAsyncIteration") eqn:E2; [by vm_compute|].
  by rewrite E1, E2.
Qed.


(** The loop of [UnaryStreamMethod.__call__] itself keeps count and order:
    over an async generator that yields [items] and a serializer that
    succeeds on each, it yields the serialized items one for one. *)
Lemma yield_each_map (f : Value → M Value) (h : Value → Value) out :
  (∀ x w, f x w = (Ok (h x), w)) →
  ∀ items w, yield_each f items out w = ((map h items, out), w).
Proof.
  intros Hf. induction items as [|x items IH]; intros w; simpl; [done|].
  by rewrite Hf, IH.
Qed.

(** Without a descriptor the iterable context stage ends the stream at once,
    with no item and no error; the single-result stage raises. *)
Lemma IterableContextMiddleware_without_descriptor method request context
    kwargs w :
  kw_method_descriptor kwargs = None →
  IterableContextMiddleware method request context kwargs w = (([], None), w).
Proof. intros E. unfold IterableContextMiddleware. by rewrite E. Qed.

Lemma NotIterableContextMiddleware_without_descriptor method request context
    kwargs w :
  kw_method_descriptor kwargs = None →
  NotIterableContextMiddleware method request context kwargs w
  = (Raise (PlainException "Not found descriptor in context middleware"), w).
Proof. intros E. unfold NotIterableContextMiddleware. by rewrite E. Qed.

End Streaming.

Section Chain.
Context `{Transport} `{Codec}.

Lemma fold_left_rev_right {A B} (f : A → B → A) (l : list B) (a : A) :
  fold_left f (rev l) a = fold_right (λ b a, f a b) a l.
Proof.
  rewrite <- (rev_involutive l) at 2. by rewrite fold_left_rev_right.
Qed.

(** The loop of [wraps_middleware] builds the right fold. *)
Lemma wrap_functions_chain kwargs (middlewares : list Middleware) inner name :
  wrap_functions kwargs middlewares
    {| wf_func := inner; wf_name := name; wf_dependencies := None |}
  = {| wf_func := function_chain kwargs name middlewares inner;
       wf_name := name; wf_dependencies := None |}.
Proof.
  unfold wrap_functions. rewrite fold_left_rev_right.
  induction middlewares as [|m rest IH]; simpl; [done|].
  by rewrite IH.
Qed.

Lemma wrap_generators_chain kwargs (middlewares : list IterableMiddleware)
    inner name :
  wrap_generators kwargs middlewares
    {| wg_func := inner; wg_name := name; wg_dependencies := None |}
  = {| wg_func := generator_chain kwargs name middlewares inner;
       wg_name := name; wg_dependencies := None |}.
Proof.
  unfold wrap_generators. rewrite fold_left_rev_right.
  induction middlewares as [|m rest IH]; simpl; [done|].
  by rewrite IH.
Qed.


Lemma dispatch_function_unfold mgr (method : Method) kwargs request context :
  is_response_iterable (mode method) = false →
  dispatch_function mgr method kwargs request context
  = (r <- get_dependencies_results (dependencies method) ;;
     function_chain kwargs (method_name method) (_middlewares mgr)
       (UnaryUnaryMethod_call method) request context
       (with_dependencies_results no_kwargs r)).
Proof.
  intros E. unfold dispatch_function, wraps_middleware. rewrite E.
  rewrite wrap_functions_chain. done.
Qed.

Lemma dispatch_generator_unfold mgr (method : Method) kwargs request context :
  is_response_iterable (mode method) = true →
  dispatch_generator mgr method kwargs request context
  = async_generator_body (async_generator_body
      (g_bind (get_dependencies_results (dependencies method)) (λ r,
         generator_chain kwargs (method_name method) (_iterable_middlewares mgr)
           (UnaryStreamMethod_call method) request context
           (with_dependencies_results no_kwargs r)))).
Proof.
  intros E. unfold dispatch_generator, wraps_middleware. rewrite E.
  rewrite wrap_generators_chain. done.
Qed.


End Chain.

Section ExceptionStage.
Context `{Transport} `{Codec}.

Lemma first_abort_app_some evs evs' a :
  first_abort evs = Some a → first_abort (evs ++ evs') = Some a.
Proof.
  induction evs as [|ev evs IH]; simpl; [done|].
  destruct ev; auto.
Qed.

Lemma first_abort_app_none evs evs' :
  first_abort evs = None → first_abort (evs ++ evs') = first_abort evs'.
Proof.
  induction evs as [|ev evs IH]; simpl; [done|].
  destruct ev; auto. done.
Qed.

Lemma resulting_abort_extend (w1 w2 : World) ev a :
  resulting_abort w1 w2 = Some a →
  resulting_abort w1 (set_trace (λ t, t ++ [ev]) w2) = Some a.
Proof.
  unfold resulting_abort. simpl. rewrite skipn_app.
  apply first_abort_app_some.
Qed.

(** The reaction of the stage to an exception that is an [Exception] but not
    a transport [RpcError]. *)
Lemma handle_exception_lookup handlers request name md sched (exc : Exc) :
  isinstance exc "RpcError" = false →
  isinstance exc "Exception" = true →
  handle_exception handlers request (ControllerContext name md sched) exc
  = (match handlers !! exc_type exc with
     | Some h => h request (ControllerContext name md sched) exc
     | None => ret tt
     end ;;
     abort (ControllerContext name md sched) UNKNOWN (exc_str exc)).
Proof. intros E1 E2. unfold handle_exception. rewrite E1, E2. done. Qed.

(** C5, as the code has it.  The reaction of both exception stages to an
    exception that reaches them (raised by the callable they wrap: a stage
    registered after them, the Method or the endpoint) and that is an
    [Exception] but no transport error.  The stage reacts by
    [handle_exception] on the spot; in the sequence-producing flavour what
    the reaction raises comes out as an async generator lets it out.  The
    handler is looked up under the exact class of the exception, whatever is
    registered for its ancestors.  With no handler under that class the call
    is aborted with [UNKNOWN] and the text of the exception.  With a handler,
    the handler runs first: if it aborts, its status and message are the
    ones the call results in; if it returns without aborting, the stage
    aborts with [UNKNOWN] and the text of the exception. *)
Theorem exception_stage_exact_kind_lookup
    (handlers : gmap string ExceptionHandler) (request : Value)
    (name : string) (md : MethodDescriptor) (sched : option nat)
    (exc : Exc) (w1 : World) :
  let context := ControllerContext name md sched in
  isinstance exc "RpcError" = false →
  isinstance exc "Exception" = true →
  (∀ method kwargs w,
     AsyncFunctionWrapper_call method request context kwargs w = (Raise exc, w1) →
     NotIterableExceptionMiddleware handlers method request context kwargs w
     = (handle_exception handlers request context exc ;; ret VNone) w1)
  ∧ (∀ method kwargs w items,
       AsyncGeneratorWrapper_call method request context kwargs w
       = ((items, Some exc), w1) →
       IterableExceptionMiddleware handlers method request context kwargs w
       = match handle_exception handlers request context exc w1 with
         | (Ok _, w2) => ((items, None), w2)
         | (Raise e, w2) => ((items, Some (leaving_async_generator e)), w2)
         end)
  ∧ (handlers !! exc_type exc = None →
       handle_exception handlers request context exc w1
       = abort context UNKNOWN (exc_str exc) w1
       ∧ resulting_abort w1 (handle_exception handlers request context exc w1).2
         = Some (UNKNOWN, exc_str exc))
  ∧ (∀ h, handlers !! exc_type exc = Some h →
       handle_exception handlers request context exc w1
       = (h request context exc ;; abort context UNKNOWN (exc_str exc)) w1
       ∧ (∀ code details,
            resulting_abort w1 (h request context exc w1).2 = Some (code, details) →
            resulting_abort w1 (handle_exception handlers request context exc w1).2
            = Some (code, details))
       ∧ (∀ w2 evs,
            h request context exc w1 = (Ok tt, w2) →
            trace w2 = trace w1 ++ evs →
            first_abort evs = None →
            resulting_abort w1 (handle_exception handlers request context exc w1).2
            = Some (UNKNOWN, exc_str exc))).
Proof.
  intros context E1 E2.
  pose proof (handle_exception_lookup handlers request name md sched exc E1 E2)
    as Hh. fold context in Hh.
  split; [|split; [|split]].
  - intros method kwargs w Hr. unfold NotIterableExceptionMiddleware.
    by rewrite (try_except_raise _ _ _ _ _ Hr).
  - intros method kwargs w items Hr.
    unfold IterableExceptionMiddleware, async_generator_body, g_try.
    rewrite Hr.
    by destruct (handle_exception handlers request context exc w1) as [[[]|e] w2].
  - intros Hnone. rewrite Hh. unfold ExceptionHandler in *. rewrite Hnone.
    split; [done|].
    unfold bind at 1, ret at 1. rewrite abort_result. simpl.
    unfold resulting_abort. simpl. by rewrite drop_app_length.
  - intros h Hsome. rewrite Hh. unfold ExceptionHandler in *. rewrite Hsome.
    split; [done|]. split.
    + intros code details Hfirst. unfold bind.
      destruct (h request context exc w1) as [[[]|e] w2]; [|done].
      rewrite abort_result. simpl. by apply resulting_abort_extend.
    + intros w2 evs Hrun Htrace Hevs. unfold bind. rewrite Hrun.
      rewrite abort_result. unfold resulting_abort. simpl.
      rewrite Htrace, <- app_assoc, drop_app_length.
      by rewrite (first_abort_app_none _ _ Hevs).
Qed.

End ExceptionStage.

Section Cleanup.

Lemma invocations_app evs evs' :
  invocations (evs ++ evs') = invocations evs ++ invocations evs'.
Proof.
  induction evs as [|ev evs IH]; simpl; [done|].
  destruct ev; simpl; by rewrite ?IH.
Qed.

Lemma handle_ids_app hs hs' :
  handle_ids (hs ++ hs') = handle_ids hs ++ handle_ids hs'.
Proof.
  induction hs as [|h hs IH]; simpl; [done|].
  destruct h; simpl; by rewrite ?IH.
Qed.

Lemma returns_normally_trace f (w : World) g :
  returns_normally (set_trace f w) g ↔ returns_normally w g.
Proof. done. Qed.

(** What one [next]/[anext] does to the store: it is recorded, it may finish
    the generator, it touches neither handle list and creates no object; and
    it raises nothing but the exhaustion signal unless the body of the
    generator raises after its last [yield]. *)
Lemma advance_spec stop leaving g (w : World) :
  ∃ evs, trace (advance stop leaving g w).2 = trace w ++ EvNext g :: evs
         ∧ invocations evs = [] ∧ first_abort evs = None
         ∧ ((∃ y, (advance stop leaving g w).1 = Ok y)
            ∨ (advance stop leaving g w).1 = Raise stop
            ∨ (∃ e, generators w !! g = Some ([], Some e)
                    ∧ (advance stop leaving g w).1 = Raise (leaving e)))
         ∧ dependencies_cached (advance stop leaving g w).2 = dependencies_cached w
         ∧ depends_cached (advance stop leaving g w).2 = depends_cached w
         ∧ next_generator (advance stop leaving g w).2 = next_generator w
         ∧ (∀ g', returns_normally w g' →
                  returns_normally (advance stop leaving g w).2 g').
Proof.
  unfold advance, bind, emit, modify, get_world, ret, raise. simpl.
  destruct (generators w !! g) as [[[|y ys] [e|]]|] eqn:Hg; simpl.
  - exists []. repeat (split; [by eauto 10|]).
    intros g' Hn ys' e' Hl. simpl in Hl.
    destruct (decide (g' = g)) as [->|Hne].
    + by rewrite lookup_delete_eq in Hl.
    + rewrite lookup_delete_ne in Hl by done. by apply Hn in Hl.
  - exists [EvReturn g]. rewrite <- app_assoc. simpl.
    repeat (split; [by eauto 10|]).
    intros g' Hn ys' e' Hl. simpl in Hl.
    destruct (decide (g' = g)) as [->|Hne].
    + by rewrite lookup_delete_eq in Hl.
    + rewrite lookup_delete_ne in Hl by done. by apply Hn in Hl.
  - exists []. repeat (split; [by eauto 10|]).
    intros g' Hn ys' e' Hl. simpl in Hl.
    destruct (decide (g' = g)) as [->|Hne].
    + by apply Hn in Hg.
    + rewrite lookup_insert_ne in Hl by done. by apply Hn in Hl.
  - exists []. repeat (split; [by eauto 10|]).
    intros g' Hn ys' e' Hl. simpl in Hl.
    destruct (decide (g' = g)) as [->|Hne].
    + rewrite lookup_insert_eq in Hl. done.
    + rewrite lookup_insert_ne in Hl by done. by apply Hn in Hl.
  - exists []. repeat (split; [by eauto 10|]). done.
Qed.

(** One handle of the cleanup loop: it invokes the handle once if it is a
    generator of either kind, and it comes back normally if the body of that
    generator does not raise. *)
Lemma close_dependency_spec (h : Value) (w : World) :
  ∃ evs, trace (close_dependency h w).2 = trace w ++ evs
         ∧ invocations evs = handle_ids [h] ∧ first_abort evs = None
         ∧ dependencies_cached (close_dependency h w).2 = dependencies_cached w
         ∧ depends_cached (close_dependency h w).2 = depends_cached w
         ∧ next_generator (close_dependency h w).2 = next_generator w
         ∧ (∀ g, returns_normally w g →
                 returns_normally (close_dependency h w).2 g)
         ∧ (Forall (returns_normally w) (handle_ids [h]) →
            (close_dependency h w).1 = Ok tt).
Proof.
  assert (Hgen : ∀ stop leaving g,
    isinstance stop "StopAsyncIteration" || isinstance stop "StopIteration" = true →
    let m := try_except (advance stop leaving g ;; ret tt)
               (λ e, if isinstance e "StopAsyncIteration" || isinstance e "StopIteration"
                     then ret tt else raise e) in
    ∃ evs, trace (m w).2 = trace w ++ evs
           ∧ invocations evs = [g] ∧ first_abort evs = None
           ∧ dependencies_cached (m w).2 = dependencies_cached w
           ∧ depends_cached (m w).2 = depends_cached w
           ∧ next_generator (m w).2 = next_generator w
           ∧ (∀ g', returns_normally w g' → returns_normally (m w).2 g')
           ∧ (Forall (returns_normally w) [g] → (m w).1 = Ok tt)).
  { intros stop leaving g Hstop m.
    destruct (advance_spec stop leaving g w)
      as (evs & Ht & Hi & Hf & Hr & Hd1 & Hd2 & Hn & Hnorm).
    exists (EvNext g :: evs). unfold m, try_except, bind, ret.
    destruct (advance stop leaving g w) as [r w'] eqn:E. simpl in *.
    destruct Hr as [[y ->]|[->|(e & Hg & ->)]]; simpl.
    - rewrite Hi. eauto 10.
    - rewrite Hstop. simpl. rewrite Hi. eauto 10.
    - rewrite Hi. unfold raise.
      destruct (isinstance (leaving e) "StopAsyncIteration"
                || isinstance (leaving e) "StopIteration"); simpl;
        repeat (split; [done|]); [done|].
      intros Hall. apply Forall_cons in Hall as [Hall _].
      by apply Hall in Hg. }
  destruct h;
    try (exists []; unfold close_dependency, try_except, ret; simpl;
         rewrite app_nil_r; by eauto 10).
  - apply (Hgen StopIteration leaving_generator g). done.
  - apply (Hgen StopAsyncIteration leaving_async_generator g). done.
Qed.

(** The cleanup loop over handles whose bodies do not raise: it invokes the
    handles of its list one by one, in list order, each entry once, swallows
    their exhaustion and leaves both handle lists as they are. *)
Lemma close_dependencies_spec (handles : list Value) :
  ∀ w : World,
  Forall (returns_normally w) (handle_ids handles) →
  ∃ evs, close_dependencies handles w
         = (Ok tt, (close_dependencies handles w).2)
         ∧ trace (close_dependencies handles w).2 = trace w ++ evs
         ∧ invocations evs = handle_ids handles ∧ first_abort evs = None
         ∧ dependencies_cached (close_dependencies handles w).2
           = dependencies_cached w
         ∧ depends_cached (close_dependencies handles w).2 = depends_cached w
         ∧ next_generator (close_dependencies handles w).2 = next_generator w
         ∧ (∀ g, returns_normally w g →
                 returns_normally (close_dependencies handles w).2 g).
Proof.
  induction handles as [|h handles IH]; intros w Hall.
  - exists []. simpl. rewrite app_nil_r. eauto 10.
  - change (h :: handles) with ([h] ++ handles) in Hall.
    rewrite handle_ids_app in Hall. apply Forall_app in Hall as [Hh Hall].
    destruct (close_dependency_spec h w)
      as (evs1 & Ht1 & Hi1 & Hf1 & Hd1 & He1 & Hn1 & Hk1 & Hr1).
    specialize (Hr1 Hh).
    simpl close_dependencies. unfold bind.
    destruct (close_dependency h w) as [r1 w1] eqn:E1. simpl in *. subst r1.
    destruct (IH w1) as (evs2 & Hr2 & Ht2 & Hi2 & Hf2 & Hd2 & He2 & Hn2 & Hk2).
    { eapply Forall_impl; [exact Hall|]. intros g. apply Hk1. }
    exists (evs1 ++ evs2). rewrite Hr2 at 1. simpl.
    rewrite Ht2, Ht1, app_assoc, invocations_app, Hi1, Hi2.
    rewrite Hd2, Hd1, He2, He1, Hn2, Hn1.
    repeat split; try done.
    + by destruct h.
    + by rewrite (first_abort_app_none _ _ Hf1).
    + intros g Hg. by apply Hk2, Hk1.
Qed.

(** However the cleanup loop ends, it leaves both handle lists as they are,
    creates no object, and makes no generator raise that did not. *)
Lemma close_dependencies_keeps (handles : list Value) :
  ∀ w : World,
  dependencies_cached (close_dependencies handles w).2 = dependencies_cached w
  ∧ depends_cached (close_dependencies handles w).2 = depends_cached w
  ∧ next_generator (close_dependencies handles w).2 = next_generator w
  ∧ (∀ g, returns_normally w g →
          returns_normally (close_dependencies handles w).2 g).
Proof.
  induction handles as [|h handles IH]; intros w; [done|].
  destruct (close_dependency_spec h w)
    as (evs1 & _ & _ & _ & Hd1 & He1 & Hn1 & Hk1 & _).
  simpl close_dependencies. unfold bind.
  destruct (close_dependency h w) as [[[]|e] w1]; simpl in *; [|done].
  destruct (IH w1) as (Hd2 & He2 & Hn2 & Hk2).
  rewrite Hd2, Hd1, He2, He1, Hn2, Hn1. repeat split; try done.
  intros g Hg. by apply Hk2, Hk1.
Qed.

(** The cleanup loop at a handle whose step raises: the loop ends there with
    that exception, and the handles behind it are not invoked. *)
Lemma close_dependencies_stops (before : list Value) (h : Value)
    (after : list Value) (w : World) (e : Exc) (w' : World) :
  Forall (returns_normally w) (handle_ids before) →
  close_dependency h (close_dependencies before w).2 = (Raise e, w') →
  ∃ evs, close_dependencies (before ++ h :: after) w = (Raise e, w')
         ∧ trace w' = trace w ++ evs
         ∧ invocations evs = handle_ids (before ++ [h])
         ∧ dependencies_cached w' = dependencies_cached w.
Proof.
  intros Hall Hh.
  destruct (close_dependencies_spec before w Hall)
    as (evs1 & Hr1 & Ht1 & Hi1 & _ & Hd1 & _).
  destruct (close_dependency_spec h (close_dependencies before w).2)
    as (evs2 & Ht2 & Hi2 & _ & Hd2 & _).
  rewrite Hh in Ht2, Hd2. simpl in Ht2, Hd2.
  exists (evs1 ++ evs2). split.
  - clear -Hr1 Hh. revert w Hr1 Hh.
    induction before as [|b before IH]; intros w Hr1 Hh; simpl in *.
    + unfold bind. by rewrite Hh.
    + unfold bind in *.
      destruct (close_dependency b w) as [[[]|eb] wb]; [|done].
      by apply IH.
  - rewrite Ht2, Ht1, app_assoc, invocations_app, handle_ids_app, Hi1, Hi2.
    rewrite Hd2, Hd1. done.
Qed.

End Cleanup.

Section Resolution.


Section Preserves.
Variable R : World → World → Prop.
Hypothesis R_refl : ∀ w, R w w.
Hypothesis R_trans : ∀ w1 w2 w3, R w1 w2 → R w2 w3 → R w1 w3.

Lemma preserves_ret {A} (a : A) : preserves R (ret a).
Proof. intros w. apply R_refl. Qed.

Lemma preserves_raise {A} e : preserves R (@raise A e).
Proof. intros w. apply R_refl. Qed.

Lemma preserves_lift_result {A} (r : Result A) : preserves R (lift_result r).
Proof. intros w. apply R_refl. Qed.

Lemma preserves_bind {A B} (m : M A) (k : A → M B) :
  preserves R m → (∀ a, preserves R (k a)) → preserves R (bind m k).
Proof.
  intros Hm Hk w. unfold bind. specialize (Hm w).
  destruct (m w) as [[a|e] w1]; simpl in *; [|done].
  eapply R_trans; [exact Hm|apply Hk].
Qed.

Lemma preserves_try_except {A} (m : M A) h :
  preserves R m → (∀ e, preserves R (h e)) → preserves R (try_except m h).
Proof.
  intros Hm Hh w. unfold try_except. specialize (Hm w).
  destruct (m w) as [[a|e] w1]; simpl in *; [done|].
  eapply R_trans; [exact Hm|apply Hh].
Qed.

Lemma preserves_coroutine_body {A} (m : M A) :
  preserves R m → preserves R (coroutine_body m).
Proof.
  intros Hm. apply preserves_try_except; [done|].
  intros e. destruct (isinstance _ _); apply preserves_raise.
Qed.

End Preserves.

Lemma cached_list_insert_eq (m : gmap nat (list Value)) k l :
  cached_list (<[k := l]> m) k = l.
Proof. unfold cached_list. by rewrite lookup_insert_eq. Qed.


Lemma resolution_step_refl self w : resolution_step self w w.
Proof.
  split; [done|]. split; [done|]. exists []. rewrite app_nil_r.
  split; [done|]. intros g Hg. lia.
Qed.

Lemma resolution_step_trans self w1 w2 w3 :
  resolution_step self w1 w2 → resolution_step self w2 w3 →
  resolution_step self w1 w3.
Proof.
  intros (Hn1 & Hd1 & new1 & Hc1 & Hg1) (Hn2 & Hd2 & new2 & Hc2 & Hg2).
  split; [lia|]. split; [congruence|].
  exists (new1 ++ new2). split; [by rewrite Hc2, Hc1, app_assoc|].
  intros g Hg. rewrite handle_ids_app, elem_of_app.
  destruct (decide (g < next_generator w2)%nat); [left; apply Hg1|right; apply Hg2]; lia.
Qed.

Lemma emit_resolution_step self ev : preserves (resolution_step self) (emit ev).
Proof.
  intros w. unfold emit, modify, resolution_step. simpl.
  split; [done|]. split; [done|]. exists []. rewrite app_nil_r.
  split; [done|]. intros g Hg. lia.
Qed.

Lemma advance_resolution_step self stop leaving g :
  preserves (resolution_step self) (advance stop leaving g).
Proof.
  intros w.
  destruct (advance_spec stop leaving g w)
    as (evs & _ & _ & _ & _ & Hd & He & Hn & _).
  split; [lia|]. split; [done|]. exists []. rewrite app_nil_r, He.
  split; [done|]. intros g' Hg'. lia.
Qed.

Lemma depends_append_resolution_step self x :
  preserves (resolution_step self) (depends_append self x).
Proof.
  intros w. unfold depends_append, modify, resolution_step. simpl.
  split; [done|]. split; [done|]. exists [x].
  rewrite cached_list_insert_eq. split; [done|].
  intros g Hg. simpl in Hg. lia.
Qed.

Lemma new_generator_registered {A} self ys finish (wrap : nat → Value)
    (k : nat → M A) :
  (∀ g, handle_ids [wrap g] = [g]) →
  (∀ g, preserves (resolution_step self) (k g)) →
  preserves (resolution_step self)
    (g <- new_generator ys finish ;; depends_append self (wrap g) ;; k g).
Proof.
  intros Hwrap Hk w. unfold bind, new_generator, depends_append, modify.
  simpl. eapply resolution_step_trans; [|apply Hk].
  unfold resolution_step. simpl.
  split; [lia|]. split; [done|]. exists [wrap (next_generator w)].
  rewrite cached_list_insert_eq. split; [done|].
  intros g Hg. rewrite Hwrap. apply list_elem_of_singleton. lia.
Qed.

Ltac preserves_step :=
  first
    [ assumption
    | apply emit_resolution_step | apply advance_resolution_step
    | apply depends_append_resolution_step
    | apply resolution_step_refl | apply resolution_step_trans
    | apply preserves_ret | apply preserves_raise | apply preserves_lift_result
    | apply preserves_coroutine_body | apply preserves_bind
    | intros ? ].

Lemma use_result_resolution_step self p :
  preserves (resolution_step self) (use_result self p).
Proof.
  destruct p as [v|e|r|ys|ys|ys e|ys e]; simpl.
  - destruct v; repeat preserves_step.
  - repeat preserves_step.
  - repeat preserves_step.
  - apply (new_generator_registered self ys None VGenerator); [done|].
    intros g. apply advance_resolution_step.
  - apply (new_generator_registered self ys None VAsyncGen); [done|].
    intros g. apply advance_resolution_step.
  - apply (new_generator_registered self ys (Some e) VGenerator); [done|].
    intros g. apply advance_resolution_step.
  - apply (new_generator_registered self ys (Some e) VAsyncGen); [done|].
    intros g. apply advance_resolution_step.
Qed.

Lemma resolve_dependencies_resolution_step (func : Func) :
  ∀ self cache,
    preserves (resolution_step self) (resolve_dependencies self func cache).
Proof.
  induction func using Func_mut with
    (P0 := λ params, ∀ self cache,
       preserves (resolution_step self) (resolve_params self params cache));
    intros self cache; simpl.
  - apply preserves_coroutine_body;
      [apply resolution_step_refl|apply resolution_step_trans|].
    apply preserves_bind; [apply resolution_step_trans|apply IHfunc|].
    intros kc. repeat preserves_step. apply use_result_resolution_step.
  - repeat preserves_step.
  - destruct (cache !! fn_id func).
    + apply preserves_bind; [apply resolution_step_trans|apply IHfunc0|].
      repeat preserves_step.
    + apply preserves_bind; [apply resolution_step_trans|apply IHfunc|].
      intros vc.
      apply preserves_bind; [apply resolution_step_trans|apply IHfunc0|].
      repeat preserves_step.
  - apply preserves_bind; [apply resolution_step_trans|apply IHfunc|].
    repeat preserves_step.
Qed.

End Resolution.

Section Registering.



Lemma registration_step_refl c ds w : registration_step c ds w w.
Proof.
  split; [done|]. exists []. rewrite app_nil_r. split; [done|].
  intros _ g Hg. lia.
Qed.

Lemma registration_step_trans c1 c2 ds w1 w2 w3 :
  registration_step c1 ds w1 w2 → registration_step c2 ds w2 w3 →
  registration_step (c1 && c2) ds w1 w3.
Proof.
  intros (Hn1 & new1 & Hc1 & Hg1) (Hn2 & new2 & Hc2 & Hg2).
  split; [lia|]. exists (new1 ++ new2).
  split; [by rewrite Hc2, Hc1, app_assoc|].
  intros Hc g Hg. apply andb_true_iff in Hc as [-> ->].
  rewrite handle_ids_app, elem_of_app.
  destruct (decide (g < next_generator w2)%nat);
    [left; apply Hg1|right; apply Hg2]; done || lia.
Qed.

Lemma registration_step_weaken c ds w w' :
  registration_step true ds w w' → registration_step c ds w w'.
Proof.
  intros (Hn & new & Hc & Hg). split; [done|]. exists new. auto.
Qed.

Lemma coroutine_body_world {A} (m : M A) w :
  (coroutine_body m w).2 = (m w).2
  ∧ succeeded (coroutine_body m w).1 = succeeded (m w).1.
Proof.
  unfold coroutine_body, try_except.
  destruct (m w) as [[a|e] w']; [done|].
  by destruct (isinstance _ _).
Qed.


Lemma appends_only_refl ds w : appends_only ds w w.
Proof. split; [done|]. exists []. by rewrite app_nil_r. Qed.

Lemma appends_only_trans ds w1 w2 w3 :
  appends_only ds w1 w2 → appends_only ds w2 w3 → appends_only ds w1 w3.
Proof.
  intros (Hn1 & new1 & Hc1) (Hn2 & new2 & Hc2).
  split; [congruence|]. exists (new1 ++ new2).
  by rewrite Hc2, Hc1, app_assoc.
Qed.

Lemma dependencies_extend_appends ds xs :
  preserves (appends_only ds) (dependencies_extend ds xs).
Proof.
  intros w. unfold dependencies_extend, modify, appends_only. simpl.
  split; [done|]. exists xs. by rewrite cached_list_insert_eq.
Qed.

Lemma advance_appends ds stop leaving g :
  preserves (appends_only ds) (advance stop leaving g).
Proof.
  intros w.
  destruct (advance_spec stop leaving g w)
    as (evs & _ & _ & _ & _ & Hd & He & Hn & _).
  split; [done|]. exists []. by rewrite app_nil_r, Hd.
Qed.

Lemma registration_step_appends ds w1 w2 w3 :
  registration_step true ds w1 w2 → appends_only ds w2 w3 →
  registration_step true ds w1 w3.
Proof.
  intros (Hn1 & new1 & Hc1 & Hg1) (Hn2 & new2 & Hc2).
  split; [lia|]. exists (new1 ++ new2).
  split; [by rewrite Hc2, Hc1, app_assoc|].
  intros _ g Hg. rewrite handle_ids_app, elem_of_app. left.
  apply Hg1; [done|lia].
Qed.

Lemma Depends_call_spec (d : Depends) (w : World) :
  resolution_step (depends_id d) w (Depends_call d w).2
  ∧ ∀ hg, (Depends_call d w).1 = Ok hg →
          hg.2 = cached_list (depends_cached (Depends_call d w).2) (depends_id d).
Proof.
  unfold Depends_call, bind, get_world, ret.
  pose proof (resolve_dependencies_resolution_step (dependency d)
                (depends_id d) ∅ w) as Hstep.
  destruct (resolve_dependencies (depends_id d) (dependency d) ∅ w)
    as [[vc|e] w1]; simpl in *; split; try done.
  by intros hg [= <-].
Qed.

Lemma bind_inv {A B} (m : M A) (k : A → M B) w r w' :
  bind m k w = (r, w') →
  (∃ a w1, m w = (Ok a, w1) ∧ k a w1 = (r, w'))
  ∨ (∃ e, m w = (Raise e, w') ∧ r = Raise e).
Proof.
  unfold bind. destruct (m w) as [[a|e] w1]; intros E.
  - left. eauto.
  - right. inversion E; subst. eauto.
Qed.

Lemma resolve_endpoint_dependency_inv ds param (d : Depends) results w r w' :
  resolve_endpoint_dependency ds param d results w = (r, w') →
  registration_step (succeeded r) ds w w'.
Proof.
  unfold resolve_endpoint_dependency. intros E.
  destruct (Depends_call_spec d w) as [(Hn & Hd & new & Hc & Hg) Hgens].
  apply bind_inv in E as [(hg & w1 & E1 & E)|(e & E1 & ->)]; rewrite E1 in *;
    simpl in *.
  - specialize (Hgens hg eq_refl). apply registration_step_weaken.
    apply bind_inv in E as [([] & w2 & E2 & E)|(e & E2 & ->)].
    + assert (Hreg : registration_step true ds w w2).
      { revert E2. case_bool_decide as Hnil.
        - intros [= <-]. split; [done|]. exists [].
          rewrite app_nil_r, Hd. split; [done|]. intros _ g Hr.
          assert (new = []) as ->.
          { rewrite Hnil in Hgens. symmetry in Hgens. rewrite Hc in Hgens.
            by apply app_eq_nil in Hgens as [_ ->]. }
          by apply Hg.
        - unfold dependencies_extend, modify. intros [= <-].
          unfold registration_step. simpl.
          split; [done|]. exists hg.2.
          rewrite cached_list_insert_eq, Hd. split; [done|]. intros _ g Hr.
          rewrite Hgens, Hc, handle_ids_app, elem_of_app. right.
          by apply Hg. }
      eapply registration_step_appends; [exact Hreg|].
      assert (Hext : ∀ (wrap : Value) g stop leaving,
        preserves (appends_only ds)
          (dependencies_extend ds [wrap] ;;
           v <- advance stop leaving g ;; ret (dict_set param v results))).
      { intros wrap g stop leaving.
        apply (preserves_bind (appends_only ds) (appends_only_trans ds));
          [apply dependencies_extend_appends|]. intros _.
        apply (preserves_bind (appends_only ds) (appends_only_trans ds));
          [apply advance_appends|]. intros v w0. apply appends_only_refl. }
      assert (Hw : w' = (match hg.1 with
          | VGenerator g =>
              dependencies_extend ds [VGenerator g] ;;
              v <- next_ g ;; ret (dict_set param v results)
          | VCoroutine v => ret (dict_set param v results)
          | VAsyncGen g =>
              dependencies_extend ds [VAsyncGen g] ;;
              v <- anext g ;; ret (dict_set param v results)
          | v => ret (dict_set param v results)
          end w2).2) by (by rewrite E).
      rewrite Hw.
      destruct (hg.1); try apply appends_only_refl; apply Hext.
    + revert E2. case_bool_decide; done.
  - split; [done|]. exists []. rewrite app_nil_r, Hd. done.
Qed.

Lemma resolve_endpoint_dependency_step ds param (d : Depends) results w :
  registration_step
    (succeeded (resolve_endpoint_dependency ds param d results w).1) ds w
    (resolve_endpoint_dependency ds param d results w).2.
Proof.
  apply (resolve_endpoint_dependency_inv ds param d results).
  by destruct (resolve_endpoint_dependency ds param d results w).
Qed.

Lemma resolve_endpoint_dependencies_step ds (deps : list (string * Depends)) :
  ∀ results w,
  registration_step
    (succeeded (resolve_endpoint_dependencies ds deps results w).1) ds w
    (resolve_endpoint_dependencies ds deps results w).2.
Proof.
  induction deps as [|[param d] deps IH]; intros results w; simpl.
  - apply registration_step_refl.
  - pose proof (resolve_endpoint_dependency_step ds param d results w) as H1.
    unfold bind.
    destruct (resolve_endpoint_dependency ds param d results w)
      as [[r|e] w1]; simpl in *; [|done].
    specialize (IH r w1).
    pose proof (registration_step_trans _ _ _ _ _ _ H1 IH) as Ht.
    by simpl in Ht.
Qed.

(** Resolution only ever appends to the handle list of the method, and when
    it succeeds every generator object it created is on the part added. *)
Lemma get_dependencies_results_step (self : Dependencies) (w : World) :
  registration_step (succeeded (get_dependencies_results self w).1)
    (dependencies_id self) w (get_dependencies_results self w).2.
Proof.
  unfold get_dependencies_results.
  destruct (coroutine_body_world
              (resolve_endpoint_dependencies (dependencies_id self)
                 (endpoint_dependencies self) []) w) as [-> ->].
  apply resolve_endpoint_dependencies_step.
Qed.

End Registering.

Section CleanupAfterCall.

(** The cleanup wrapper after an endpoint that returned normally, when no
    handle of the list raises in its teardown. *)
Lemma wrapped_endpoint_after_return (self : Dependencies)
    (endpoint : list (string * Value) → PyObj) kwargs w result w1 :
  await_ (endpoint kwargs) w = (Ok result, w1) →
  Forall (returns_normally w1)
    (handle_ids (cached_list (dependencies_cached w1) (dependencies_id self))) →
  ∃ w2 evs,
    await_ (get_close_dependencies_wrapped_endpoint self endpoint kwargs) w
    = (Ok result, w2)
    ∧ trace w2 = trace w1 ++ evs
    ∧ invocations evs
      = handle_ids (cached_list (dependencies_cached w1) (dependencies_id self))
    ∧ first_abort evs = None
    ∧ dependencies_cached w2 = dependencies_cached w1.
Proof.
  intros E Hall. simpl. unfold bind at 1. rewrite E.
  unfold bind at 1, get_world at 1.
  destruct (close_dependencies_spec
              (cached_list (dependencies_cached w1) (dependencies_id self)) w1
              Hall)
    as (evs & Hr & Ht & Hi & Hf & Hd & _ & _).
  unfold bind. rewrite Hr. unfold ret. eauto 10.
Qed.

(** The cleanup wrapper after an endpoint that returned normally, when the
    step of one handle raises: the exception takes the place of the
    endpoint's result, and the handles behind that one are not invoked. *)
Lemma wrapped_endpoint_after_failed_teardown (self : Dependencies)
    (endpoint : list (string * Value) → PyObj) kwargs w result w1
    before h after e w2 :
  await_ (endpoint kwargs) w = (Ok result, w1) →
  cached_list (dependencies_cached w1) (dependencies_id self)
  = before ++ h :: after →
  Forall (returns_normally w1) (handle_ids before) →
  close_dependency h (close_dependencies before w1).2 = (Raise e, w2) →
  ∃ evs,
    await_ (get_close_dependencies_wrapped_endpoint self endpoint kwargs) w
    = (Raise e, w2)
    ∧ trace w2 = trace w1 ++ evs
    ∧ invocations evs = handle_ids (before ++ [h])
    ∧ dependencies_cached w2 = dependencies_cached w1.
Proof.
  intros E Hlist Hall Hh. simpl. unfold bind at 1. rewrite E.
  unfold bind at 1, get_world at 1. rewrite Hlist.
  destruct (close_dependencies_stops before h after w1 e w2 Hall Hh)
    as (evs & Hr & Ht & Hi & Hd).
  unfold bind. rewrite Hr. eauto 10.
Qed.

(** The cleanup wrapper after an endpoint that raised: the exception goes
    on at once. *)
Lemma wrapped_endpoint_after_raise (self : Dependencies)
    (endpoint : list (string * Value) → PyObj) kwargs w e w1 :
  await_ (endpoint kwargs) w = (Raise e, w1) →
  await_ (get_close_dependencies_wrapped_endpoint self endpoint kwargs) w
  = (Raise e, w1).
Proof. intros E. simpl. unfold bind at 1. by rewrite E. Qed.

(** C2, as the code has it, for a call whose endpoint returns normally.
    Resolving the dependencies puts every generator object it creates on the
    handle list of the method, behind what the list held.  Once the endpoint
    has returned, the wrapper invokes the handles of that list, each entry
    once and in list order.  If no generator on the list raises in the code
    after its last [yield], the wrapper takes their exhaustion for success
    and hands back the endpoint's result.  If the step of one handle raises
    (anything but an exhaustion signal), the loop ends there: the handles
    behind it are not invoked and the exception takes the place of the
    endpoint's result. *)
Theorem cleanup_after_normal_return (self : Dependencies)
    (endpoint : list (string * Value) → PyObj) :
  (∀ w r w',
     get_dependencies_results self w = (Ok r, w') →
     ∃ new,
       cached_list (dependencies_cached w') (dependencies_id self)
       = cached_list (dependencies_cached w) (dependencies_id self) ++ new
       ∧ ∀ g, (next_generator w ≤ g < next_generator w')%nat →
              g ∈ handle_ids new)
  ∧ (∀ kwargs w result w1,
       await_ (endpoint kwargs) w = (Ok result, w1) →
       Forall (returns_normally w1)
         (handle_ids (cached_list (dependencies_cached w1)
                        (dependencies_id self))) →
       ∃ w2 evs,
         await_ (get_close_dependencies_wrapped_endpoint self endpoint kwargs) w
         = (Ok result, w2)
         ∧ trace w2 = trace w1 ++ evs
         ∧ invocations evs
           = handle_ids (cached_list (dependencies_cached w1)
                           (dependencies_id self))
         ∧ dependencies_cached w2 = dependencies_cached w1)
  ∧ (∀ kwargs w result w1 before h after e w2,
       await_ (endpoint kwargs) w = (Ok result, w1) →
       cached_list (dependencies_cached w1) (dependencies_id self)
       = before ++ h :: after →
       Forall (returns_normally w1) (handle_ids before) →
       close_dependency h (close_dependencies before w1).2 = (Raise e, w2) →
       ∃ evs,
         await_ (get_close_dependencies_wrapped_endpoint self endpoint kwargs) w
         = (Raise e, w2)
         ∧ trace w2 = trace w1 ++ evs
         ∧ invocations evs = handle_ids (before ++ [h])
         ∧ dependencies_cached w2 = dependencies_cached w1).
Proof.
  split; [|split].
  - intros w r w' E.
    pose proof (get_dependencies_results_step self w) as Hstep.
    rewrite E in Hstep. simpl in Hstep.
    destruct Hstep as (_ & new & Hc & Hg). exists new. auto.
  - intros kwargs w result w1 E Hall.
    destruct (wrapped_endpoint_after_return self endpoint kwargs w result w1
                E Hall)
      as (w2 & evs & Hr & Ht & Hi & _ & Hd).
    eauto 10.
  - intros kwargs w result w1 before h after e w2 E Hlist Hall Hh.
    apply (wrapped_endpoint_after_failed_teardown self endpoint kwargs w
             result w1 before h after e w2 E Hlist Hall Hh).
Qed.

End CleanupAfterCall.

Section AtMostOnce.

Lemma calls_app f evs evs' : calls f (evs ++ evs') = (calls f evs + calls f evs')%nat.
Proof.
  induction evs as [|ev evs IH]; simpl; [done|].
  destruct ev; simpl; rewrite ?IH; lia.
Qed.

Lemma func_ids_unfold f : func_ids f = fn_id f :: params_ids (fn_params f).
Proof. by destruct f. Qed.

Lemma acyclic_unfold f :
  acyclic f ↔ (fn_id f ∉ params_ids (fn_params f)) ∧ params_acyclic (fn_params f).
Proof. by destruct f. Qed.


Lemma quiet_refl w : quiet w w.
Proof. exists []. by rewrite app_nil_r. Qed.

Lemma quiet_trans w1 w2 w3 : quiet w1 w2 → quiet w2 w3 → quiet w1 w3.
Proof.
  intros (evs1 & Ht1 & Hc1) (evs2 & Ht2 & Hc2). exists (evs1 ++ evs2).
  split; [by rewrite Ht2, Ht1, app_assoc|].
  intros f. rewrite calls_app, Hc1, Hc2. done.
Qed.

Lemma advance_quiet stop leaving g : preserves quiet (advance stop leaving g).
Proof.
  intros w. unfold quiet, advance, bind, emit, modify, get_world, ret, raise.
  simpl.
  destruct (generators w !! g) as [[[|y ys] [e|]]|]; simpl.
  - by exists [EvNext g].
  - exists [EvNext g; EvReturn g]. by rewrite <- app_assoc.
  - by exists [EvNext g].
  - by exists [EvNext g].
  - by exists [EvNext g].
Qed.

Lemma depends_append_quiet self x : preserves quiet (depends_append self x).
Proof. intros w. exists []. simpl. by rewrite app_nil_r. Qed.

Lemma new_generator_quiet ys finish :
  preserves quiet (new_generator ys finish).
Proof. intros w. exists []. simpl. by rewrite app_nil_r. Qed.

Lemma use_result_quiet self p : preserves quiet (use_result self p).
Proof.
  destruct p as [v|e|r|ys|ys|ys e|ys e]; simpl;
    [destruct v|..];
    repeat first
      [ apply advance_quiet | apply depends_append_quiet
      | apply new_generator_quiet
      | apply quiet_refl | apply quiet_trans
      | apply preserves_ret | apply preserves_raise
      | apply preserves_lift_result | apply preserves_bind
      | intros ? ].
Qed.



Lemma coroutine_body_inv {A} (m : M A) w r w' :
  coroutine_body m w = (r, w') →
  ∃ r0, m w = (r0, w') ∧ ∀ a, r = Ok a → r0 = Ok a.
Proof.
  unfold coroutine_body, try_except.
  destruct (m w) as [[a|e] w1].
  - intros [= <- <-]. eauto.
  - destruct (isinstance _ _); intros [= <- <-]; exists (Raise e); done.
Qed.

Lemma use_result_events self p w r w' :
  use_result self p w = (r, w') →
  ∃ evs, trace w' = trace w ++ evs ∧ ∀ f, calls f evs = 0%nat.
Proof.
  intros E. pose proof (use_result_quiet self p w) as Hq.
  by rewrite E in Hq.
Qed.

Lemma resolve_spec_mutual :
  (∀ func self cache w r w',
     acyclic func → cache !! fn_id func = None →
     resolve_dependencies self func cache w = (r, w') →
     func_resolved func cache w r w')
  ∧ (∀ params self cache w r w',
       params_acyclic params →
       resolve_params self params cache w = (r, w') →
       params_resolved params cache w r w').
Proof.
  apply Func_Params_mutind.
  - (* a function: its signature, then its body *)
    intros id params IHfunc body self cache w r w' [Hown Hac] Hnone E. simpl in Hnone, E.
    apply coroutine_body_inv in E as (r0 & E & Hr0).
    apply bind_inv in E as [(kc & w1 & Eps & E)|(e & Eps & ->)].
    + destruct (IHfunc _ _ _ _ _ Hac Eps) as (evs & Ht & H1 & H2 & H3).
      apply bind_inv in E as [([] & w2 & Eemit & E)|(e & Eemit & _)];
        [|done].
      injection Eemit as <-.
      assert (∃ evs', trace w' = (trace w1 ++ [EvCall id]) ++ evs'
                      ∧ (∀ f, calls f evs' = 0%nat)
                      ∧ ∀ a, r0 = Ok a → a.2 = kc.2)
        as (evs' & Ht' & Hq & Hcache).
      { apply bind_inv in E as [(v & w3 & Euse & E)|(e & Euse & ->)].
        - destruct (use_result_events _ _ _ _ _ Euse) as (evs' & Ht' & Hq).
          injection E as <- <-. exists evs'. simpl in Ht'.
          split; [done|]. split; [done|]. by intros a [= <-].
        - destruct (use_result_events _ _ _ _ _ Euse) as (evs' & Ht' & Hq).
          exists evs'. simpl in Ht'. done. }
      assert (Hid : calls id evs = 0%nat).
      { destruct (calls id evs) eqn:Ec; [done|].
        destruct (H2 id) as [Hin _]; [lia|]. done. }
      assert (Hcount : ∀ f, calls f (evs ++ EvCall id :: evs')
                = (calls f evs + (if decide (id = f) then 1 else 0))%nat).
      { intros f. rewrite calls_app. simpl. rewrite Hq. lia. }
      exists (evs ++ EvCall id :: evs').
      split; [by rewrite Ht', Ht, <- !app_assoc|].
      split.
      { intros f. rewrite Hcount. destruct (decide (id = f)) as [<-|].
        - rewrite Hid. lia.
        - specialize (H1 f). lia. }
      split.
      { intros f. rewrite Hcount. destruct (decide (id = f)) as [<-|].
        - intros _. split; [left|done].
        - intros Hf. destruct (H2 f) as [Hin Hc]; [lia|].
          split; [by right|done]. }
      split.
      { intros _. simpl. rewrite Hcount, Hid. by rewrite decide_True. }
      intros v cache' ->.
      specialize (Hcache _ (Hr0 _ eq_refl)). simpl in Hcache. subst cache'.
      destruct kc as [kwargs cache1]. simpl in *.
      destruct (H3 kwargs cache1 eq_refl) as (Hsub & Hnew & Hcached & _).
      split; [done|]. split; [done|]. split.
      { intros f. rewrite Hcount. destruct (decide (id = f)) as [<-|].
        - by left.
        - intros Hf. right. apply Hcached. lia. }
      simpl. rewrite Hcount, Hid. by rewrite decide_True.
    + destruct (IHfunc _ _ _ _ _ Hac Eps) as (evs & Ht & H1 & H2 & H3).
      exists evs. split; [done|]. split; [done|]. split.
      { intros f Hf. destruct (H2 f Hf) as [Hin Hc]. split; [by right|done]. }
      split.
      { simpl. intros ->. done. }
      intros v cache' ->. by specialize (Hr0 _ eq_refl).
  - (* the empty signature *)
    intros self cache w r w' _ [= <- <-]. exists [].
    rewrite app_nil_r. split; [done|]. split; [simpl; lia|].
    split; [simpl; intros f Hf; lia|].
    intros kwargs cache' [= <- <-]. split; [done|]. split; [by left|].
    split; [simpl; intros f Hf; lia|]. intros name f Hin. by inversion Hin.
  - (* a parameter with a marker *)
    intros name func IHfunc rest IHfunc0 self cache w r w' [Hac1 Hac2] E. simpl in E.
    apply acyclic_unfold in Hac1 as Hown. destruct Hown as [Hown _].
    destruct (cache !! fn_id func) as [dep_value|] eqn:Hlook.
    + (* the producer is in the cache: it is not called *)
      apply bind_inv in E as [(kc & w1 & Eps & E)|(e & Eps & ->)].
      * destruct (IHfunc0 _ _ _ _ _ Hac2 Eps) as (evs & Ht & H1 & H2 & H3).
        injection E as <- <-. exists evs. split; [done|]. split; [done|].
        split.
        { intros f Hf. destruct (H2 f Hf) as [Hin Hc]. simpl.
          rewrite elem_of_app. auto. }
        intros kwargs cache' [= <- <-]. destruct kc as [kwargs cache1].
        destruct (H3 kwargs cache1 eq_refl) as (Hsub & Hnew & Hcached & Hkw).
        simpl. split; [done|]. split.
        { intros f Hf. destruct (Hnew f Hf); [by left|right].
          rewrite elem_of_app. auto. }
        split; [done|].
        intros name' f Hin. apply elem_of_cons in Hin as [[= -> ->]|Hin].
        -- exists dep_value. split; [|by left].
           by apply (lookup_weaken cache).
        -- destruct (Hkw _ _ Hin) as (v & Hv & Hinkw). exists v.
           split; [done|]. by right.
      * destruct (IHfunc0 _ _ _ _ _ Hac2 Eps) as (evs & Ht & H1 & H2 & H3).
        exists evs. split; [done|]. split; [done|]. split; [|done].
        intros f Hf. destruct (H2 f Hf) as [Hin Hc]. simpl.
        rewrite elem_of_app. auto.
    + (* the producer is resolved, called and cached *)
      apply bind_inv in E as [(vc & w1 & Edep & E)|(e & Edep & ->)].
      * destruct (IHfunc _ _ _ _ _ Hac1 Hlook Edep)
          as (evs1 & Ht1 & F1 & F2 & _ & F3).
        destruct vc as [v cache1].
        destruct (F3 v cache1 eq_refl) as (Hsub1 & Hnew1 & Hcached1 & Hcall1).
        simpl in E.
        assert (Hfresh : cache1 !! fn_id func = None).
        { destruct (cache1 !! fn_id func) eqn:Hc1; [|done].
          destruct (Hnew1 (fn_id func)) as [[? Hc]|Hin]; [by eauto| |done].
          rewrite Hlook in Hc. done. }
        assert (Hsub2 : cache ⊆ <[fn_id func := v]> cache1).
        { etrans; [exact Hsub1|]. by apply insert_subseteq. }
        assert (∃ r2, resolve_params self rest (<[fn_id func := v]> cache1) w1
                      = (r2, w')
                      ∧ ∀ kwargs cache', r = Ok (kwargs, cache') →
                          ∃ kw, r2 = Ok (kw, cache') ∧ kwargs = (name, v) :: kw)
          as (r2 & Eps & Hr2).
        { apply bind_inv in E as [(kc & w2 & Eps & E)|(e & Eps & ->)].
          - injection E as <- <-. exists (Ok kc). split; [done|].
            intros kwargs cache' [= <- <-]. exists kc.1. by destruct kc.
          - exists (Raise e). split; [done|]. done. }
        destruct (IHfunc0 _ _ _ _ _ Hac2 Eps) as (evs2 & Ht2 & G1 & G2 & G3).
        assert (Hdisj : ∀ f, (0 < calls f evs1)%nat → (0 < calls f evs2)%nat → False).
        { intros f Hf1 Hf2. destruct (G2 f Hf2) as [_ Hn].
          destruct (Hcached1 f Hf1) as [->|[x Hx]].
          - by rewrite lookup_insert_eq in Hn.
          - destruct (decide (fn_id func = f)) as [<-|Hne].
            + by rewrite lookup_insert_eq in Hn.
            + rewrite lookup_insert_ne in Hn by done. congruence. }
        exists (evs1 ++ evs2). split; [by rewrite Ht2, Ht1, app_assoc|].
        split.
        { intros f. rewrite calls_app. specialize (F1 f). specialize (G1 f).
          specialize (Hdisj f). lia. }
        split.
        { intros f. rewrite calls_app. intros Hf. simpl. rewrite elem_of_app.
          destruct (decide (0 < calls f evs1)%nat) as [Hf1|Hf1].
          - destruct (F2 f Hf1). auto.
          - destruct (G2 f) as [Hin Hn]; [lia|]. split; [auto|].
            by apply (lookup_weaken_None _ _ _ Hn). }
        intros kwargs cache' Hr.
        destruct (Hr2 _ _ Hr) as (kw & -> & ->).
        destruct (G3 kw cache' eq_refl) as (Hsub3 & Hnew3 & Hcached3 & Hkw).
        split; [by etrans|]. split.
        { intros f Hf. simpl. rewrite elem_of_app.
          destruct (Hnew3 f Hf) as [Hc2|Hin]; [|by auto].
          destruct (decide (fn_id func = f)) as [<-|Hne].
          - right. left. rewrite func_ids_unfold. by left.
          - rewrite lookup_insert_ne in Hc2 by done.
            destruct (Hnew1 f Hc2) as [?|Hin]; [by left|].
            right. left. rewrite func_ids_unfold. by right. }
        split.
        { intros f. rewrite calls_app. intros Hf.
          destruct (decide (0 < calls f evs2)%nat) as [Hf2|Hf2];
            [by apply Hcached3|].
          assert (Hf1 : (0 < calls f evs1)%nat) by lia.
          destruct (Hcached1 f Hf1) as [->|[x Hx]].
          - exists v. apply (lookup_weaken _ _ _ _ (lookup_insert_eq _ _ _) Hsub3).
          - destruct (decide (fn_id func = f)) as [<-|Hne]; [congruence|].
            exists x. apply (lookup_weaken (<[fn_id func := v]> cache1));
              [|done]. by rewrite lookup_insert_ne. }
        intros name' f Hin. apply elem_of_cons in Hin as [[= -> ->]|Hin].
        -- exists v. split; [|by left].
           apply (lookup_weaken _ _ _ _ (lookup_insert_eq _ _ _) Hsub3).
        -- destruct (Hkw _ _ Hin) as (v' & Hv & Hinkw). exists v'.
           split; [done|]. by right.
      * destruct (IHfunc _ _ _ _ _ Hac1 Hlook Edep)
          as (evs1 & Ht1 & F1 & F2 & _ & F3).
        exists evs1. split; [done|]. split; [done|]. split; [|done].
        intros f Hf. destruct (F2 f Hf). simpl. rewrite elem_of_app. auto.
  - (* a parameter with another default *)
    intros name default rest IHfunc self cache w r w' Hac E. simpl in E.
    apply bind_inv in E as [(kc & w1 & Eps & E)|(e & Eps & ->)].
    + destruct (IHfunc _ _ _ _ _ Hac Eps) as (evs & Ht & H1 & H2 & H3).
      injection E as <- <-. exists evs. split; [done|]. split; [done|].
      split; [done|].
      intros kwargs cache' [= <- <-]. destruct kc as [kwargs cache1].
      destruct (H3 kwargs cache1 eq_refl) as (Hsub & Hnew & Hcached & Hkw).
      simpl. split; [done|]. split; [done|]. split; [done|].
      intros name' f Hin. destruct (Hkw _ _ Hin) as (v & Hv & Hinkw).
      exists v. split; [done|]. by right.
    + destruct (IHfunc _ _ _ _ _ Hac Eps) as (evs & Ht & H1 & H2 & H3).
      exists evs. split; [done|]. split; [done|]. split; done.
Qed.

Lemma resolve_spec func self cache w r w' :
  acyclic func → cache !! fn_id func = None →
  resolve_dependencies self func cache w = (r, w') →
  func_resolved func cache w r w'.
Proof. apply resolve_spec_mutual. Qed.


Lemma Depends_call_world (d : Depends) w :
  (Depends_call d w).2
  = (resolve_dependencies (depends_id d) (dependency d) ∅ w).2.
Proof.
  unfold Depends_call, bind, get_world, ret.
  by destruct (resolve_dependencies _ _ _ w) as [[vc|e] w1].
Qed.


End AtMostOnce.

Section HandleLifetime.

(** C4, as the code has it.  Cached results have the lifetime of one marker
    resolution: whatever earlier calls have left in the store, resolving a
    marker enters its producer again (shown for a producer without
    dependencies of its own).  The handle list belongs to the [Dependencies]
    object of the method and is never emptied: whatever the outcome of
    resolution, the handles held when a call begins stay at the front of the
    list; and when the call's endpoint returns normally (leaving the list
    alone) and no generator on the list raises in its teardown, the cleanup
    phase invokes those earlier handles first, then the ones added during the
    call, and all of them are still held afterwards. *)
Theorem handles_outlive_the_call (self : Dependencies)
    (endpoint : list (string * Value) → PyObj) :
  (∀ (d : Depends) w,
     fn_params (dependency d) = PNil →
     ∃ evs, trace (Depends_call d w).2 = trace w ++ evs
            ∧ calls (fn_id (dependency d)) evs = 1%nat)
  ∧ (∀ w, ∃ new,
       cached_list (dependencies_cached (get_dependencies_results self w).2)
         (dependencies_id self)
       = cached_list (dependencies_cached w) (dependencies_id self) ++ new)
  ∧ (∀ kwargs w0 r w result w1,
       get_dependencies_results self w0 = (Ok r, w) →
       await_ (endpoint kwargs) w = (Ok result, w1) →
       dependencies_cached w1 = dependencies_cached w →
       Forall (returns_normally w1)
         (handle_ids (cached_list (dependencies_cached w1)
                        (dependencies_id self))) →
       ∃ w2 evs new,
         await_ (get_close_dependencies_wrapped_endpoint self endpoint kwargs) w
         = (Ok result, w2)
         ∧ trace w2 = trace w1 ++ evs
         ∧ invocations evs
           = handle_ids (cached_list (dependencies_cached w0)
                           (dependencies_id self))
             ++ handle_ids new
         ∧ cached_list (dependencies_cached w2) (dependencies_id self)
           = cached_list (dependencies_cached w0) (dependencies_id self) ++ new).
Proof.
  split; [|split].
  - intros d w Hleaf. rewrite Depends_call_world.
    destruct (resolve_dependencies (depends_id d) (dependency d) ∅ w)
      as [r w'] eqn:E.
    assert (Hac : acyclic (dependency d)).
    { apply acyclic_unfold. rewrite Hleaf. simpl. split; [|done].
      apply not_elem_of_nil. }
    destruct (resolve_spec _ _ _ _ _ _ Hac (lookup_empty _) E)
      as (evs & Ht & _ & _ & Hone & _).
    eauto.
  - intros w.
    destruct (get_dependencies_results_step self w) as (_ & new & Hc & _).
    eauto.
  - intros kwargs w0 r w result w1 E0 E1 Hsame Hall.
    pose proof (get_dependencies_results_step self w0) as Hstep.
    rewrite E0 in Hstep. simpl in Hstep.
    destruct Hstep as (_ & new & Hc & _).
    destruct (wrapped_endpoint_after_return self endpoint kwargs w result w1
                E1 Hall)
      as (w2 & evs & Hr & Ht & Hi & _ & Hd).
    exists w2, evs, new. rewrite Hd, Hsame, Hi, Hsame, Hc, handle_ids_app.
    done.
Qed.

End HandleLifetime.

(** ** Concrete runs *)

(** On a concrete store: no generator on the handle list raises in its
    teardown. *)
Ltac normal_teardown :=
  match goal with
  | |- Forall _ ?l => let l' := eval vm_compute in l in change l with l'
  end;
  repeat (apply Forall_cons; split;
          [let Hl := fresh in intros ? ? Hl; vm_compute in Hl; discriminate Hl|]);
  apply List.Forall_nil.

Section Runs.
#[local] Existing Instance grpc_aio.
#[local] Existing Instance simple_codec.



(** C2 as stated fails.  The endpoint has a generator dependency and raises.
    The handle is registered and the generator was advanced once, to its
    [yield]; after the endpoint nothing invokes it: the call ends in the
    abort, and the generator is left suspended. *)
Lemma no_cleanup_when_endpoint_raises :
  let run := call_function (broken [("g", marker 10 sync_gen)])
               with_descriptor empty_world in
  observed empty_world run
  = (Raise AbortError,
     [EvCall 1; EvNext 0;
      EvEndpoint [("g", VInt 1); ("request", hello_request)];
      EvAbort UNKNOWN "boom"],
     [VGenerator 0])
  ∧ generators run.2 !! 0%nat = Some ([], None).
Proof. vm_compute. split; reflexivity. Qed.

(** The theorem of C2 at two calls whose endpoint returns.  In the first the
    generator created by resolution is on the list, and the wrapper invokes
    it after the endpoint.  In the second the generator raises after its
    [yield]: the wrapper invokes it and ends in its [ValueError]. *)
Lemma cleanup_after_normal_return_witness :
  let ep := say_hello [("g", marker 10 sync_gen)] in
  let self := Dependencies_init 0 ep in
  let resolved := get_dependencies_results self empty_world in
  let kwargs := [("g", VInt 1); ("request", hello_request)] in
  let ep' := say_hello [("g", marker 10 failing_teardown)] in
  let self' := Dependencies_init 0 ep' in
  let resolved' := get_dependencies_results self' empty_world in
  (resolved.1 = Ok [("g", VInt 1)]
   ∧ (0%nat ∈ handle_ids (cached_list (dependencies_cached resolved.2) 0))
   ∧ (await_ (ep_call ep kwargs) resolved.2).1
     = Ok (VDict [("message", VStr "Hello")])
   ∧ ∃ w2 evs,
       await_ (get_close_dependencies_wrapped_endpoint self (ep_call ep) kwargs)
         resolved.2
       = (Ok (VDict [("message", VStr "Hello")]), w2)
       ∧ invocations evs = [0%nat])
  ∧ (resolved'.1 = Ok [("g", VInt 1)]
     ∧ (await_ (ep_call ep' kwargs) resolved'.2).1
       = Ok (VDict [("message", VStr "Hello")])
     ∧ ∃ w2 evs,
         await_ (get_close_dependencies_wrapped_endpoint self' (ep_call ep')
                   kwargs) resolved'.2
         = (Raise (ValueError "teardown failed"), w2)
         ∧ invocations evs = [0%nat]).
Proof.
  intros ep self resolved kwargs ep' self' resolved'.
  split.
  - destruct (cleanup_after_normal_return self (ep_call ep))
      as (Hreg & Hclean & _).
    split; [reflexivity|]. split.
    + destruct (Hreg empty_world [("g", VInt 1)] resolved.2 eq_refl)
        as (new & Hlist & Hnew).
      change (dependencies_id self) with 0%nat in Hlist.
      rewrite Hlist, handle_ids_app. apply elem_of_app. right. apply Hnew.
      vm_compute. lia.
    + split; [reflexivity|].
      assert (Hall : Forall
                (returns_normally (await_ (ep_call ep kwargs) resolved.2).2)
                (handle_ids
                   (cached_list
                      (dependencies_cached
                         (await_ (ep_call ep kwargs) resolved.2).2)
                      (dependencies_id self)))) by normal_teardown.
      destruct (Hclean kwargs resolved.2 (VDict [("message", VStr "Hello")])
                  (await_ (ep_call ep kwargs) resolved.2).2 eq_refl Hall)
        as (w2 & evs & Hrun & _ & Hinv & _).
      exists w2, evs. split; [exact Hrun|]. rewrite Hinv. reflexivity.
  - destruct (cleanup_after_normal_return self' (ep_call ep'))
      as (_ & _ & Hfail).
    split; [reflexivity|]. split; [reflexivity|].
    set (w1 := (await_ (ep_call ep' kwargs) resolved'.2).2).
    destruct (Hfail kwargs resolved'.2 (VDict [("message", VStr "Hello")])
                w1 [] (VGenerator 0) [] (ValueError "teardown failed")
                (close_dependency (VGenerator 0) w1).2
                eq_refl eq_refl (List.Forall_nil _) eq_refl)
      as (evs & Hrun & _ & Hinv & _).
    exists (close_dependency (VGenerator 0) w1).2, evs.
    split; [exact Hrun|exact Hinv].
Defined.



(** C4 as stated fails.  The same method is called twice in succession.  When
    the second call begins the handle of the first call is still held, and
    the cleanup phase of the second call invokes it (twice, for it has been
    registered again) before the handle of the second call. *)
Lemma handle_of_first_call_held_and_invoked_in_second :
  let ep := say_hello [("g", marker 10 sync_gen)] in
  let w1 := (call_function ep with_descriptor empty_world).2 in
  cached_list (dependencies_cached w1) 0 = [VGenerator 0]
  ∧ observed w1 (call_function ep with_descriptor w1)
    = (Ok (VMessage "HelloReply" [("message", VStr "Hello")]),
       [EvCall 1; EvNext 1;
        EvEndpoint [("g", VInt 1); ("request", hello_request)];
        EvNext 0; EvNext 0; EvNext 1; EvReturn 1],
       [VGenerator 0; VGenerator 0; VGenerator 1]).
Proof. vm_compute. split; reflexivity. Qed.

(** The theorem of C4 at the second of two calls. *)
Lemma handles_outlive_the_call_witness :
  let ep := say_hello [("g", marker 10 sync_gen)] in
  let self := Dependencies_init 0 ep in
  let w0 := (call_function ep with_descriptor empty_world).2 in
  let resolved := get_dependencies_results self w0 in
  let kwargs := [("g", VInt 1); ("request", hello_request)] in
  cached_list (dependencies_cached w0) 0 = [VGenerator 0]
  ∧ resolved.1 = Ok [("g", VInt 1)]
  ∧ ∃ w2 evs new,
      await_ (get_close_dependencies_wrapped_endpoint self (ep_call ep) kwargs)
        resolved.2
      = (Ok (VDict [("message", VStr "Hello")]), w2)
      ∧ invocations evs = 0%nat :: handle_ids new
      ∧ cached_list (dependencies_cached w2) 0 = VGenerator 0 :: new.
Proof.
  intros ep self w0 resolved kwargs.
  split; [reflexivity|]. split; [reflexivity|].
  destruct (handles_outlive_the_call self (ep_call ep)) as (_ & _ & Hcall).
  assert (Hall : Forall
            (returns_normally (await_ (ep_call ep kwargs) resolved.2).2)
            (handle_ids
               (cached_list
                  (dependencies_cached (await_ (ep_call ep kwargs) resolved.2).2)
                  (dependencies_id self)))) by normal_teardown.
  destruct (Hcall kwargs w0 [("g", VInt 1)] resolved.2
              (VDict [("message", VStr "Hello")])
              (await_ (ep_call ep kwargs) resolved.2).2
              eq_refl eq_refl eq_refl Hall)
    as (w2 & evs & new & Hrun & _ & Hinv & Hheld).
  exists w2, evs, new. split; [exact Hrun|]. split; [exact Hinv|exact Hheld].
Defined.

(** C5 as stated fails for a call that raises before the exception stage is
    entered.  The default registry has a handler for [GRPCException]; a
    dependency of the endpoint raises one.  The exception leaves the dispatch
    as it is: no handler has run and nothing was aborted. *)
Lemma registered_kind_raised_by_dependency_is_not_routed :
  is_Some (exception_handlers greeter !! "GRPCException")
  ∧ observed empty_world
      (call_function (say_hello [("user", marker 10 forbidden)])
         with_descriptor empty_world)
    = (Raise (GRPCException PERMISSION_DENIED "no access"), [EvCall 7], []).
Proof. split; [by eexists|]. vm_compute. reflexivity. Qed.

(** The theorem of C5 at a [TypeError] and a [GRPCException].  The
    [TypeError] is raised by the wrapped callable of either flavour and meets
    a registry that has a handler for its ancestor [Exception] and none for
    [TypeError]: the call is aborted with [UNKNOWN] and the text of the
    error; so it is when its handler returns without aborting.  The
    [GRPCException] meets its handler, which aborts with the status the
    exception carries. *)
Lemma exception_stage_exact_kind_lookup_witness :
  let exc := TypeError "boom" in
  let grpc_exc := GRPCException NOT_FOUND "no such user" in
  let raising :=
    {| wf_func := λ _ _ _, raise exc; wf_name := "SayHello";
       wf_dependencies := None |} in
  let raising_stream :=
    {| wg_func := λ _ _ _ w, (([VNone], Some exc), w); wg_name := "SayHello";
       wg_dependencies := None |} in
  let silent : gmap string ExceptionHandler :=
    <["TypeError" := λ _ _ _, ret tt]> ∅ in
  (isinstance exc "RpcError" = false ∧ isinstance exc "Exception" = true)
  ∧ observed empty_world
      (NotIterableExceptionMiddleware catch_all_handlers raising hello_request
         bound_context no_kwargs empty_world)
    = (Raise AbortError, [EvAbort UNKNOWN "boom"], [])
  ∧ observed empty_world
      (IterableExceptionMiddleware catch_all_handlers raising_stream
         hello_request bound_context no_kwargs empty_world)
    = (([VNone], Some AbortError), [EvAbort UNKNOWN "boom"], [])
  ∧ (is_Some (catch_all_handlers !! "Exception")
     ∧ catch_all_handlers !! exc_type exc = None
     ∧ resulting_abort empty_world
         (handle_exception catch_all_handlers hello_request bound_context exc
            empty_world).2
       = Some (UNKNOWN, "boom"))
  ∧ resulting_abort empty_world
      (handle_exception catch_all_handlers hello_request bound_context grpc_exc
         empty_world).2
    = Some (NOT_FOUND, "no such user")
  ∧ resulting_abort empty_world
      (handle_exception silent hello_request bound_context exc empty_world).2
    = Some (UNKNOWN, "boom").
Proof.
  intros exc grpc_exc raising raising_stream silent.
  unfold bound_context.
  assert (H1 : isinstance exc "RpcError" = false) by reflexivity.
  assert (H2 : isinstance exc "Exception" = true) by reflexivity.
  assert (H3 : catch_all_handlers !! exc_type exc = None) by reflexivity.
  destruct (exception_stage_exact_kind_lookup catch_all_handlers
              hello_request "SayHello" hello_descriptor None exc empty_world
              H1 H2) as (Hfun & Hgen & Hnone & _).
  split; [by split|]. split; [|split; [|split; [|split]]].
  - rewrite (Hfun raising no_kwargs empty_world eq_refl).
    vm_compute. reflexivity.
  - rewrite (Hgen raising_stream no_kwargs empty_world [VNone] eq_refl).
    vm_compute. reflexivity.
  - split; [by eexists|]. split; [exact H3|]. apply (Hnone H3).
  - destruct (exception_stage_exact_kind_lookup catch_all_handlers
                hello_request "SayHello" hello_descriptor None grpc_exc
                empty_world eq_refl eq_refl) as (_ & _ & _ & Hsome).
    destruct (Hsome _grpc_exception_handler eq_refl) as (_ & Hfirst & _).
    apply Hfirst. reflexivity.
  - destruct (exception_stage_exact_kind_lookup silent
                hello_request "SayHello" hello_descriptor None exc
                empty_world H1 H2) as (_ & _ & _ & Hsome).
    destruct (Hsome (λ _ _ _, ret tt) eq_refl) as (_ & _ & Hfallback).
    apply (Hfallback empty_world []); reflexivity.
Defined.

(** C6 on the code: through the controller's chain, a sequence-producing
    method dispatched with no descriptor ends normally with an empty
    sequence — no item, no exception, no abort — where the single-result
    flavour raises the configuration error. *)
Theorem iterable_dispatch_without_descriptor_is_empty :
  observed empty_world (call_generator unary_stream no_kwargs empty_world)
  = (([], None), [], [])
  ∧ observed empty_world (call_function (say_hello []) no_kwargs empty_world)
    = (Raise (PlainException "Not found descriptor in context middleware"),
       [], []).
Proof. vm_compute. split; reflexivity. Qed.

(** C7 on the code: the method built for an endpoint that yields three
    items yields none.  The method holds the cleanup wrapper, a plain
    coroutine function, and iterates what it returns: a [TypeError].
    Through the chain the call is aborted with that error. *)
Theorem stream_method_yields_nothing :
  UnaryStreamMethod_call (constructed_method UNARY_STREAM unary_stream)
    hello_request bound_context (with_dependencies_results no_kwargs [])
    empty_world
  = (([], Some (TypeError "'async for' requires an object with __aiter__ method, got coroutine")),
     empty_world)
  ∧ observed empty_world (call_generator unary_stream with_descriptor empty_world)
    = (([], Some AbortError),
       [EvAbort UNKNOWN "'async for' requires an object with __aiter__ method, got coroutine"],
       []).
Proof. vm_compute. split; reflexivity. Qed.

(** The theorem of C8 at three results: a message of the wire type, a model
    under a declared schema, a dict. *)
Lemma serialize_response_policy_witness :
  let plain := constructed_method UNARY_UNARY (say_hello []) in
  let typed := constructed_method UNARY_UNARY typed_hello in
  let message := VMessage "HelloReply" [("message", VStr "Hello")] in
  serialize_response plain message bound_context empty_world
  = (Ok message, empty_world)
  ∧ serialize_response typed (VStr "{}") bound_context empty_world
    = (Ok (VMessage "HelloReply" [("json", VStr "{}")]), empty_world)
  ∧ serialize_response plain (VDict [("message", VStr "Hello")]) bound_context
      empty_world
    = (Ok message, empty_world).
Proof.
  intros plain typed message.
  destruct (serialize_response_policy plain message "SayHello"
              hello_descriptor None empty_world) as (Hpass & _ & _).
  destruct (serialize_response_policy typed (VStr "{}") "SayHello"
              hello_descriptor None empty_world) as (_ & Hschema & _).
  destruct (serialize_response_policy plain
              (VDict [("message", VStr "Hello")]) "SayHello"
              hello_descriptor None empty_world) as (_ & _ & Hdict).
  split; [|split].
  - apply Hpass. reflexivity.
  - apply (Hschema "HelloReply"); reflexivity.
  - apply (Hdict [("message", VStr "Hello")]); reflexivity.
Defined.

(** C9 as stated fails.  A [ValidationError] reaches the exception stage
    under the default registry: the call is aborted with the details of the
    error, and with [UNKNOWN], the status of the generic fallback, which is
    not a client-error status. *)
Lemma validation_error_aborts_with_unknown_status :
  resulting_abort empty_world
    (handle_exception base_exception_handlers hello_request bound_context
       missing_name empty_world).2
  = Some (UNKNOWN, "Field required. Location: <object>. Input: <object>")
  ∧ client_error_status UNKNOWN = false.
Proof. vm_compute. split; reflexivity. Qed.

(** The theorem of C10 at two registrations whose endpoints, [say_hello] and
    [Say_Hello], resolve to the one name [SayHello]: both succeed, and the
    controller holds the second. *)
Lemma add_method_last_registration_wins_witness :
  Forall (λ r, is_ok (constructed r)) two_registrations
  ∧ ∃ c', add_methods greeter two_registrations = Ok c'
          ∧ mode <$> methods c' !! "SayHello" = Some UNARY_STREAM.
Proof.
  assert (Hall : Forall (λ r, is_ok (constructed r)) two_registrations).
  { repeat constructor; by eexists. }
  split; [exact Hall|].
  destruct (add_method_last_registration_wins greeter two_registrations Hall)
    as (c' & Hrun & Hlook).
  exists c'. split; [exact Hrun|]. rewrite (Hlook "SayHello"). reflexivity.
Defined.

End Runs.

(** * Further properties *)

Section Dictionaries.

Lemma dict_get_set_eq k v d : dict_get k (dict_set k v d) = Some v.
Proof.
  induction d as [|[k' v'] d IH]; simpl.
  - by rewrite decide_True.
  - destruct (decide (k = k')) as [->|Hne]; simpl.
    + by rewrite decide_True.
    + by rewrite decide_False.
Qed.

Lemma dict_get_set_ne k k' v d :
  k ≠ k' → dict_get k (dict_set k' v d) = dict_get k d.
Proof.
  intros Hne. induction d as [|[k2 v2] d IH]; simpl.
  - by rewrite decide_False.
  - destruct (decide (k' = k2)) as [->|Hne2]; simpl.
    + by rewrite !decide_False.
    + destruct (decide (k = k2)); [done|apply IH].
Qed.

Lemma dict_get_app k d d' :
  dict_get k (d ++ d')
  = match dict_get k d with Some v => Some v | None => dict_get k d' end.
Proof.
  induction d as [|[k' v'] d IH]; simpl; [done|].
  by destruct (decide (k = k')).
Qed.

Lemma dict_get_None k d : dict_get k d = None ↔ k ∉ map fst d.
Proof.
  induction d as [|[k' v'] d IH]; simpl.
  - split; [intros _; apply not_elem_of_nil|done].
  - rewrite not_elem_of_cons. destruct (decide (k = k')) as [->|Hne].
    + split; [done|]. intros [? _]. done.
    + rewrite IH. tauto.
Qed.

Lemma dict_get_NoDup k v d :
  NoDup (map fst d) → (k, v) ∈ d → dict_get k d = Some v.
Proof.
  induction d as [|[k' v'] d IH]; simpl; intros Hnd Hin.
  - by apply elem_of_nil in Hin.
  - apply NoDup_cons in Hnd as [Hfresh Hnd].
    apply elem_of_cons in Hin as [Heq|Hin].
    + injection Heq as <- <-. by rewrite decide_True.
    + destruct (decide (k = k')) as [->|Hne]; [|by apply IH].
      exfalso. apply Hfresh. apply list_elem_of_fmap. by exists (k', v).
Qed.

Lemma dict_get_rev k d :
  NoDup (map fst d) → dict_get k (rev d) = dict_get k d.
Proof.
  induction d as [|[k' v'] d IH]; simpl; intros Hnd; [done|].
  apply NoDup_cons in Hnd as [Hfresh Hnd].
  rewrite dict_get_app, IH by done. simpl.
  destruct (decide (k = k')) as [->|Hne].
  - apply dict_get_None in Hfresh. by rewrite Hfresh.
  - by destruct (dict_get k d).
Qed.

(** [d |= other]: a key of [other] carries its last value there, every
    other key keeps the value it had in [d]. *)
Lemma dict_get_update k other :
  ∀ d, dict_get k (dict_update d other)
       = match dict_get k (rev other) with
         | Some v => Some v
         | None => dict_get k d
         end.
Proof.
  unfold dict_update.
  induction other as [|[k' v'] other IH]; intros d; simpl; [done|].
  rewrite IH, dict_get_app. simpl.
  destruct (dict_get k (rev other)); [done|].
  destruct (decide (k = k')) as [->|Hne].
  - apply dict_get_set_eq.
  - by apply dict_get_set_ne.
Qed.

Lemma dict_keys_set k v d :
  map fst (dict_set k v d)
  = if decide (k ∈ map fst d) then map fst d else map fst d ++ [k].
Proof.
  induction d as [|[k' v'] d IH].
  - destruct (decide (k ∈ map fst [])) as [Hin|_]; [|done].
    by apply elem_of_nil in Hin.
  - cbn [dict_set map fst].
    destruct (decide (k = k')) as [->|Hne].
    + destruct (decide (k' ∈ k' :: map fst d)) as [_|Hnin]; [done|].
      exfalso. apply Hnin, list_elem_of_here.
    + cbn [map fst]. rewrite IH.
      destruct (decide (k ∈ map fst d)) as [Hin|Hnin];
        destruct (decide (k ∈ k' :: map fst d)) as [Hin'|Hnin']; try done.
      * exfalso. by apply Hnin', list_elem_of_further.
      * exfalso. apply elem_of_cons in Hin' as [?|?]; done.
Qed.

End Dictionaries.

(** ** handlers/methods.py *)

Section Methods.
Context `{Transport} `{Codec}.

Lemma _get_endpoint_dependencies_elem (params : list (string * ParamDefault)) k d :
  (k, DefaultDepends d) ∈ params → (k, d) ∈ _get_endpoint_dependencies params.
Proof.
  induction params as [|[k' dflt] params IH]; intros Hin.
  - by apply elem_of_nil in Hin.
  - apply elem_of_cons in Hin as [Heq|Hin].
    + injection Heq as <- <-. simpl. apply list_elem_of_here.
    + destruct dflt; simpl; auto using list_elem_of_further.
Qed.

(** What the constructor stores, read off a successful run. *)
Lemma BaseMethod_init_fields md self ep args (m : Method) :
  BaseMethod_init md self ep args = Ok m →
  ∃ rq keys,
    map fst (ep_params ep) = rq :: keys
    ∧ request_param m = rq ∧ context_param m = head keys
    ∧ mode m = md
    ∧ dependencies m = Dependencies_init self ep
    ∧ endpoint m
      = get_close_dependencies_wrapped_endpoint (Dependencies_init self ep)
          (ep_call ep)
    ∧ (∃ request_param_model,
         get_param_annotation_model (ep_request_annotation ep)
           (is_request_iterable md) = Ok request_param_model
         ∧ request_model m
           = model_name
             <$> model_or (arg_request_model args) request_param_model)
    ∧ (∃ response_param_model,
         get_param_annotation_model (ep_return_annotation ep)
           (is_response_iterable md) = Ok response_param_model
         ∧ response_model m
           = model_name
             <$> model_or (arg_response_model args) response_param_model)
    ∧ method_name m = name_or (arg_name args) (to_pascal_case (ep_name ep)).
Proof.
  unfold BaseMethod_init.
  destruct (map fst (ep_params ep)) as [|rq keys]; [discriminate|].
  destruct (get_param_annotation_model (ep_request_annotation ep) _)
    as [request_param_model|]; [|discriminate].
  destruct (get_param_annotation_model (ep_return_annotation ep) _)
    as [response_param_model|]; [|discriminate].
  intros Hm. exists rq, keys. split; [done|].
  destruct (model_or (arg_response_model args) response_param_model)
    as [[cls|alias]|] eqn:Heff.
  - destruct (is_base_model cls); [|discriminate].
    injection Hm as <-. cbn.
    repeat (split; [reflexivity|]).
    split; [by eexists|]. split; [|reflexivity].
    exists response_param_model. split; [reflexivity|]. by rewrite Heff.
  - discriminate.
  - injection Hm as <-. cbn.
    repeat (split; [reflexivity|]).
    split; [by eexists|]. split; [|reflexivity].
    exists response_param_model. split; [reflexivity|]. by rewrite Heff.
Qed.

(** Reading an annotation fails only in a streaming position, on an
    annotation whose origin is no class: [None], a plain class, or a generic
    alias of a special form. *)
Lemma get_param_annotation_model_outcome (annotation : Annotation)
    (is_streaming : bool) :
  is_ok (get_param_annotation_model annotation is_streaming)
  ↔ is_streaming = false
    ∨ annotation = NoAnnotation
    ∨ ∃ name is_async_iterable args,
        annotation = GenericAlias name (OriginClass is_async_iterable) args.
Proof.
  destruct annotation as [| |cls|name [[]|] targs], is_streaming; simpl;
    split;
    try (intros _; by eexists);
    try (intros [x Hx]; discriminate);
    try (intros _; by left);
    try (intros _; right; by left);
    try (intros _; right; right; by eauto);
    intros [Hs|[Ha|(name' & b & targs' & Ha)]]; discriminate.
Qed.

(** X1: when [BaseMethod.__init__] succeeds and what it fixes.  It succeeds
    exactly when the endpoint has a parameter, both annotations can be read
    ([get_param_annotation_model] raises a [TypeError] in a streaming
    position on an annotation whose origin is no class, and on nothing
    else), and the effective response
    model (the keyword argument, else what the return annotation gave) is
    absent or a [BaseModel] subclass.  On success the first parameter is the
    request parameter and the second one, whatever its default, is the
    context parameter: a second parameter that carries a [Depends] marker is
    both the context parameter and a dependency.  A non-empty [name] is the
    method's name; a missing or empty one gives, for an ASCII endpoint name,
    the name derived from it. *)
Theorem BaseMethod_init_outcome (md : MethodMode) (self : nat) (ep : Endpoint)
    (args : MethodArgs) :
  let request_read :=
    get_param_annotation_model (ep_request_annotation ep)
      (is_request_iterable md) in
  let response_read :=
    get_param_annotation_model (ep_return_annotation ep)
      (is_response_iterable md) in
  (is_ok (BaseMethod_init md self ep args)
   ↔ ep_params ep ≠ []
     ∧ is_ok request_read
     ∧ ∃ response_param_model,
         response_read = Ok response_param_model
         ∧ ∀ model,
             model_or (arg_response_model args) response_param_model
             = Some model →
             ∃ cls, model = ModelClass cls ∧ is_base_model cls = true)
  ∧ (∀ annotation is_streaming,
       is_ok (get_param_annotation_model annotation is_streaming)
       ↔ is_streaming = false
         ∨ annotation = NoAnnotation
         ∨ ∃ name is_async_iterable targs,
             annotation
             = GenericAlias name (OriginClass is_async_iterable) targs)
  ∧ ∀ m, BaseMethod_init md self ep args = Ok m →
      map fst (ep_params ep) !! 0%nat = Some (request_param m)
      ∧ context_param m = map fst (ep_params ep) !! 1%nat
      ∧ (∀ p d, ep_params ep !! 1%nat = Some (p, DefaultDepends d) →
           context_param m = Some p
           ∧ (p, d) ∈ endpoint_dependencies (dependencies m))
      ∧ (∃ response_param_model,
           response_read = Ok response_param_model
           ∧ response_model m
             = model_name
               <$> model_or (arg_response_model args) response_param_model)
      ∧ (∀ n, arg_name args = Some n → n ≠ "" → method_name m = n)
      ∧ (string_forall is_ascii (ep_name ep) = true →
         arg_name args = None ∨ arg_name args = Some "" →
         method_name m = to_pascal_case (ep_name ep)).
Proof.
  intros request_read response_read. split; [|split].
  - unfold BaseMethod_init. fold request_read response_read.
    destruct (ep_params ep) as [|[rq d0] rest] eqn:Hparams; cbn [map fst].
    { split; [intros [m Hm]; discriminate|intros [Hne _]; done]. }
    destruct request_read as [request_param_model|e].
    2:{ split; [intros [m Hm]; discriminate|].
        intros (_ & [x Hx] & _). discriminate. }
    destruct response_read as [response_param_model|e].
    2:{ split; [intros [m Hm]; discriminate|].
        intros (_ & _ & x & Hx & _). discriminate. }
    destruct (model_or (arg_response_model args) response_param_model)
      as [[cls|alias]|] eqn:Heff.
    + destruct (is_base_model cls) eqn:Hbase.
      * split; [intros _|intros _; by eexists].
        split; [done|]. split; [by eexists|].
        exists response_param_model. split; [done|].
        rewrite Heff. intros model [= <-]. eauto.
      * split; [intros [m Hm]; discriminate|].
        intros (_ & _ & x & [= <-] & Hcls). rewrite Heff in Hcls.
        destruct (Hcls _ eq_refl) as (cls' & [= <-] & Hb). congruence.
    + split; [intros [m Hm]; discriminate|].
      intros (_ & _ & x & [= <-] & Hcls). rewrite Heff in Hcls.
      destruct (Hcls _ eq_refl) as (cls' & Hc & _). discriminate.
    + split; [intros _|intros _; by eexists].
      split; [done|]. split; [by eexists|].
      exists response_param_model. split; [done|].
      rewrite Heff. intros model Hmodel. discriminate.
  - apply get_param_annotation_model_outcome.
  - intros m Hm.
    destruct (BaseMethod_init_fields _ _ _ _ _ Hm)
      as (rq & keys & Hkeys & Hrq & Hctx & _ & Hdeps & _ & _ & Hresp & Hname).
    rewrite Hkeys, Hrq, Hctx, Hname, Hdeps.
    split; [done|]. split; [by destruct keys|].
    split; [|split; [exact Hresp|split]].
    + intros p d Hlook.
      destruct (ep_params ep) as [|[rq' d0] [|[p' d'] rest]] eqn:Hparams;
        try done.
      simpl in Hlook. injection Hlook as -> ->.
      simpl in Hkeys. injection Hkeys as <- <-. split; [done|].
      unfold Dependencies_init. cbn [endpoint_dependencies]. rewrite Hparams.
      apply _get_endpoint_dependencies_elem.
      apply list_elem_of_further, list_elem_of_here.
    + intros n -> Hn. destruct n; [done|reflexivity].
    + intros _ [->| ->]; reflexivity.
Qed.

(** [solve_params] runs no effect: only its outcome matters. *)
Lemma solve_params_result (self : Method) request context (w : World) :
  solve_params self request context w
  = ((solve_params self request context w).1, w).
Proof.
  unfold solve_params.
  destruct (request_model self) as [cls|]; [|reflexivity].
  destruct request; try reflexivity;
    unfold bind, lift_result;
    destruct (model_validate cls _); reflexivity.
Qed.

Lemma solve_params_invalid (self : Method) request context cls e (w : World) :
  request_model self = Some cls →
  (∀ items, request ≠ VAsyncIterator items) →
  model_validate cls (MessageToDict request) = Raise e →
  solve_params self request context w = (Raise e, w).
Proof.
  intros Hmodel Hiter Hinvalid. unfold solve_params. rewrite Hmodel.
  destruct request; try (unfold bind, lift_result; by rewrite Hinvalid).
  by destruct (Hiter items).
Qed.

(** X2: [solve_params] never touches the store.  It fails only when a
    request model is set, the request is not a stream and validation of the
    request fails, and then with the validation error; a streamed request is
    wrapped without being validated.  On success the dictionary has the
    request parameter and, if there is a second parameter, the context under
    that parameter's name, and nothing else. *)
Theorem solve_params_outcome (self : Method) (request : Value)
    (context : Context) (w : World) :
  (solve_params self request context w).2 = w
  ∧ (∀ e, (solve_params self request context w).1 = Raise e →
       ∃ cls, request_model self = Some cls
              ∧ (∀ items, request ≠ VAsyncIterator items)
              ∧ model_validate cls (MessageToDict request) = Raise e)
  ∧ (∀ values, (solve_params self request context w).1 = Ok values →
       (∀ p, context_param self = Some p → p ≠ request_param self →
             dict_get p values = Some (context_value context))
       ∧ (∀ k, is_Some (dict_get k values)
               ↔ k = request_param self ∨ context_param self = Some k)
       ∧ (request_model self = None →
          dict_get (request_param self) values = Some request)
       ∧ (∀ cls items, request_model self = Some cls →
            request = VAsyncIterator items →
            dict_get (request_param self) values
            = Some (VValidatedIterator cls items))
       ∧ (∀ cls, request_model self = Some cls →
            (∀ items, request ≠ VAsyncIterator items) →
            ∃ v, model_validate cls (MessageToDict request) = Ok v
                 ∧ dict_get (request_param self) values = Some v)).
Proof.
  split; [by rewrite solve_params_result|].
  set (values0 := match context_param self with
                  | Some p => [(p, context_value context)]
                  | None => []
                  end).
  assert (Hshape : ∀ v values,
            values = dict_set (request_param self) v values0 →
            (∀ p, context_param self = Some p → p ≠ request_param self →
                  dict_get p values = Some (context_value context))
            ∧ (∀ k, is_Some (dict_get k values)
                    ↔ k = request_param self ∨ context_param self = Some k)
            ∧ dict_get (request_param self) values = Some v).
  { intros v values ->. split; [|split].
    - intros p Hp Hne. rewrite dict_get_set_ne by done.
      unfold values0. rewrite Hp. simpl. by rewrite decide_True.
    - intros k. destruct (decide (k = request_param self)) as [->|Hne].
      + rewrite dict_get_set_eq. split; [by left|by eexists].
      + rewrite dict_get_set_ne by done. unfold values0.
        destruct (context_param self) as [p|]; simpl.
        * destruct (decide (k = p)) as [->|Hne'].
          -- split; [by right|by eexists].
          -- split; [intros [? ?]; done|]. intros [?|[= ?]]; congruence.
        * split; [intros [? ?]; done|]. intros [?|?]; done.
    - apply dict_get_set_eq. }
  unfold solve_params. fold values0.
  destruct (request_model self) as [cls|] eqn:Hmodel.
  - assert (Hvalidate : ∀ r,
      (∀ items, request ≠ VAsyncIterator items) →
      r = (v <- lift_result (model_validate cls (MessageToDict request)) ;;
           ret (dict_set (request_param self) v values0)) w →
      (∀ e, r.1 = Raise e →
         ∃ cls0, Some cls = Some cls0
                ∧ (∀ items, request ≠ VAsyncIterator items)
                ∧ model_validate cls0 (MessageToDict request) = Raise e)
      ∧ (∀ values, r.1 = Ok values →
           (∀ p, context_param self = Some p → p ≠ request_param self →
                 dict_get p values = Some (context_value context))
           ∧ (∀ k, is_Some (dict_get k values)
                   ↔ k = request_param self ∨ context_param self = Some k)
           ∧ (Some cls = None →
              dict_get (request_param self) values = Some request)
           ∧ (∀ cls0 items, Some cls = Some cls0 →
                request = VAsyncIterator items →
                dict_get (request_param self) values
                = Some (VValidatedIterator cls0 items))
           ∧ (∀ cls0, Some cls = Some cls0 →
                (∀ items, request ≠ VAsyncIterator items) →
                ∃ v, model_validate cls0 (MessageToDict request) = Ok v
                     ∧ dict_get (request_param self) values = Some v))).
    { intros r Hiter ->. unfold bind, lift_result.
      destruct (model_validate cls (MessageToDict request)) as [v|e] eqn:Hv;
        simpl.
      - split; [intros e He; discriminate|].
        intros values [= <-].
        destruct (Hshape v _ eq_refl) as (Hctx & Hkeys & Hreq).
        split; [done|]. split; [done|]. split; [done|].
        split; [intros cls0 items _ ->; by destruct (Hiter items)|].
        intros cls0 [= <-] _. by exists v.
      - split; [|intros values Hvalues; discriminate].
        intros e' [= <-]. exists cls. done. }
    destruct request;
      try (apply Hvalidate; [intros items'; discriminate|reflexivity]).
    simpl. split; [intros e He; discriminate|].
    intros values [= <-].
    destruct (Hshape (VValidatedIterator cls items) _ eq_refl)
      as (Hctx & Hkeys & Hreq).
    split; [done|]. split; [done|]. split; [done|].
    split; [by intros cls0 items0 [= <-] [= <-]|].
    intros cls0 _ Hiter. by destruct (Hiter items).
  - simpl. split; [intros e He; discriminate|].
    intros values [= <-].
    destruct (Hshape request _ eq_refl) as (Hctx & Hkeys & Hreq).
    split; [done|]. split; [done|]. split; [done|].
    split; [intros cls items Hcls; discriminate|].
    intros cls Hcls. discriminate.
Qed.

(** X3: a request that fails validation ends the call before the endpoint
    is entered: both method flavours end in the validation error (the
    sequence-producing one as an async generator lets it out) and leave the
    store as it was, so no generator dependency resolved for the call is
    advanced and nothing is yielded. *)
Theorem invalid_request_skips_endpoint (self : Method) (request : Value)
    (context : Context) (kwargs : Kwargs) (deps : list (string * Value))
    (cls : string) (e : Exc) (w : World) :
  kw_dependencies_results kwargs = Some deps →
  request_model self = Some cls →
  (∀ items, request ≠ VAsyncIterator items) →
  model_validate cls (MessageToDict request) = Raise e →
  UnaryUnaryMethod_call self request context kwargs w = (Raise e, w)
  ∧ UnaryStreamMethod_call self request context kwargs w
    = (([], Some (leaving_async_generator e)), w).
Proof.
  intros Hdeps Hmodel Hiter Hinvalid.
  pose proof (solve_params_invalid self request context cls e w
                Hmodel Hiter Hinvalid) as Hsolve.
  unfold UnaryUnaryMethod_call, UnaryStreamMethod_call. rewrite Hdeps.
  split.
  - by apply bind_raise.
  - unfold async_generator_body, g_bind. by rewrite Hsolve.
Qed.

(** X4: the keyword arguments the endpoint is called with.  Both method
    flavours call the endpoint on the solved parameters updated with the
    dependency results: a name present in the dependency results carries the
    dependency's value, also when the solved parameters had put the request
    or the context under that name; every other name keeps its solved
    value. *)
Theorem dependency_results_override_solved_params (self : Method)
    (request : Value) (context : Context) (kwargs : Kwargs)
    (deps values : list (string * Value)) (w : World) :
  kw_dependencies_results kwargs = Some deps →
  NoDup (map fst deps) →
  (solve_params self request context w).1 = Ok values →
  ∃ kw,
    UnaryUnaryMethod_call self request context kwargs w
    = (result <- await_ (endpoint self kw) ;;
       response <- serialize_response self result context ;;
       log_call context ;;
       ret response) w
    ∧ UnaryStreamMethod_call self request context kwargs w
      = async_generator_body
          (g_then
             (g_map (async_for (endpoint self kw))
                    (λ response, serialize_response self response context))
             (log_call context)) w
    ∧ ∀ k, dict_get k kw
           = match dict_get k deps with
             | Some v => Some v
             | None => dict_get k values
             end.
Proof.
  intros Hdeps Hnodup Hvalues.
  pose proof (solve_params_result self request context w) as Hsolve.
  rewrite Hvalues in Hsolve.
  exists (dict_update values deps). split; [|split].
  - unfold UnaryUnaryMethod_call. rewrite Hdeps.
    unfold bind at 1. by rewrite Hsolve.
  - unfold UnaryStreamMethod_call. rewrite Hdeps.
    unfold async_generator_body, g_bind. by rewrite Hsolve.
  - intros k. by rewrite dict_get_update, dict_get_rev.
Qed.

(** [serialize_response] runs no effect either. *)
Lemma serialize_response_result (self : Method) response context (w : World) :
  serialize_response self response context w
  = ((serialize_response self response context w).1, w).
Proof.
  unfold serialize_response. destruct context as [sched|name md sched];
    [reflexivity|].
  unfold bind at 1 3. cbn [output_type_of ret].
  destruct (is_message_of response (output_type md)); [reflexivity|].
  destruct (response_model self) as [cls|].
  - unfold bind, lift_result.
    destruct (model_validate cls response); reflexivity.
  - destruct response; reflexivity.
Qed.

(** X5: [serialize_response] outside the three branches of its policy.  It
    never touches the store; on the transport's own context it fails on the
    read of [output_type], whatever the response; and on a bound context a
    response that is neither a message of the wire type nor a dictionary,
    with no response model declared, is handed back as it is. *)
Theorem serialize_response_outside_policy (self : Method) (response : Value)
    (context : Context) (w : World) :
  (serialize_response self response context w).2 = w
  ∧ (∀ sched, context = ServicerContext sched →
       (serialize_response self response context w).1
       = Raise (AttributeError
                  "'grpc._cython.cygrpc._ServicerContext' object has no attribute 'output_type'"))
  ∧ (∀ name md sched, context = ControllerContext name md sched →
       is_message_of response (output_type md) = false →
       response_model self = None →
       (∀ items, response ≠ VDict items) →
       (serialize_response self response context w).1 = Ok response).
Proof.
  destruct context as [sched|name md sched].
  - split; [reflexivity|]. split; [reflexivity|]. intros; discriminate.
  - assert (Hbound :
      serialize_response self response (ControllerContext name md sched) w
      = (if is_message_of response (output_type md) then ret response
         else match response_model self with
              | Some cls =>
                  validated_response <- lift_result (model_validate cls response) ;;
                  lift_result (Parse (model_dump_json validated_response)
                                 (output_type md))
              | None =>
                  match response with
                  | VDict items => lift_result (ParseDict items (output_type md))
                  | _ => ret response
                  end
              end) w) by reflexivity.
    rewrite Hbound. clear Hbound.
    split; [|split; [intros; discriminate|]].
    + destruct (is_message_of response (output_type md)); [reflexivity|].
      destruct (response_model self) as [cls|].
      * unfold bind, lift_result.
        destruct (model_validate cls response); reflexivity.
      * destruct response; reflexivity.
    + intros name' md' sched' [= <- <- <-] Hmsg Hmodel Hdict.
      rewrite Hmsg, Hmodel.
      destruct response; try reflexivity. by destruct (Hdict items).
Qed.

End Methods.

Section MethodsExamples.
#[local] Existing Instance grpc_aio.
#[local] Existing Instance strict_codec.

Lemma BaseMethod_init_outcome_witness :
  let ep := say_hello [("db", marker 10 sync_gen)] in
  let untyped :=
    {| ep_name := "untyped"; ep_params := [("request", NoDefault)];
       ep_request_annotation := NoAnnotation;
       ep_return_annotation := ClassAnnotation "dict";
       ep_call := λ _, Coroutine (ret (VDict [])) |} in
  (∃ m, BaseMethod_init UNARY_UNARY 0 ep no_args = Ok m
        ∧ request_param m = "request"
        ∧ context_param m = Some "db"
        ∧ ("db", {| depends_id := 10; dependency := sync_gen |})
          ∈ endpoint_dependencies (dependencies m)
        ∧ method_name m = "SayHello")
  ∧ ¬ is_ok (BaseMethod_init UNARY_UNARY 0 untyped no_args)
  ∧ ¬ is_ok (BaseMethod_init UNARY_STREAM 0
               (replies (ClassAnnotation "HelloReply")) no_args)
  ∧ (∃ m, BaseMethod_init UNARY_STREAM 0 (replies async_iterator_of_replies)
            no_args = Ok m
          ∧ response_model m = Some "HelloReply").
Proof.
  intros ep untyped. split; [|split; [|split]].
  - destruct (BaseMethod_init_outcome UNARY_UNARY 0 ep no_args)
      as (Hok & _ & Hfields).
    destruct (proj2 Hok) as [m Hm].
    { split; [discriminate|]. split; [by eexists|].
      exists None. split; [reflexivity|]. intros model Hmodel. discriminate. }
    exists m. split; [exact Hm|].
    destruct (Hfields m Hm) as (Hrq & Hctx & Hdep & _ & _ & Hname).
    destruct (Hdep "db" {| depends_id := 10; dependency := sync_gen |} eq_refl)
      as [Hctx' Hin].
    split; [by injection Hrq|]. split; [exact Hctx'|]. split; [exact Hin|].
    apply Hname; [reflexivity|by left].
  - destruct (BaseMethod_init_outcome UNARY_UNARY 0 untyped no_args)
      as (Hok & _ & _).
    intros Hisok. apply Hok in Hisok as (_ & _ & x & [= <-] & Hcls).
    destruct (Hcls (ModelClass "dict") eq_refl) as (cls & [= <-] & Hbase).
    vm_compute in Hbase. discriminate.
  - destruct (BaseMethod_init_outcome UNARY_STREAM 0
                (replies (ClassAnnotation "HelloReply")) no_args)
      as (Hok & Hread & _).
    intros Hisok. apply Hok in Hisok as (_ & _ & x & Hx & _).
    destruct (proj1 (Hread (ClassAnnotation "HelloReply") true))
      as [Hs|[Ha|(name & b & targs & Ha)]]; [by exists x|discriminate..].
  - destruct (BaseMethod_init_outcome UNARY_STREAM 0
                (replies async_iterator_of_replies) no_args)
      as (Hok & _ & Hfields).
    destruct (proj2 Hok) as [m Hm].
    { split; [discriminate|]. split; [by eexists|].
      exists (Some (ModelClass "HelloReply")). split; [reflexivity|].
      intros model [= <-]. exists "HelloReply". split; reflexivity. }
    exists m. split; [exact Hm|].
    destruct (Hfields m Hm) as (_ & _ & _ & (x & [= <-] & Hresp) & _).
    exact Hresp.
Defined.

Lemma solve_params_outcome_witness :
  let nameless := VMessage "HelloRequest" [] in
  (solve_params validated_hello nameless bound_context empty_world).2
  = empty_world
  ∧ (∃ e, (solve_params validated_hello nameless bound_context empty_world).1
          = Raise e
          ∧ model_validate "HelloRequest" (MessageToDict nameless) = Raise e)
  ∧ dict_get "context"
      (dict_set "request" (VModel "HelloRequest" [("name", VStr "World")])
         [("context", context_value bound_context)])
    = Some (context_value bound_context).
Proof.
  intros nameless.
  destruct (solve_params_outcome validated_hello nameless bound_context
              empty_world) as (Hworld & Hraise & _).
  destruct (solve_params_outcome validated_hello hello_request bound_context
              empty_world) as (_ & _ & Hvalues).
  split; [exact Hworld|]. split.
  - eexists. split; [reflexivity|].
    destruct (Hraise _ eq_refl) as (cls & Hcls & _ & Hinvalid).
    injection Hcls as <-. exact Hinvalid.
  - destruct (Hvalues _ eq_refl) as (Hctx & _).
    apply (Hctx "context"); [reflexivity|discriminate].
Defined.

Lemma invalid_request_skips_endpoint_witness :
  let nameless := VMessage "HelloRequest" [] in
  let kwargs := {| kw_method_descriptor := None;
                   kw_dependencies_results := Some [] |} in
  ∃ e, model_validate "HelloRequest" (MessageToDict nameless) = Raise e
       ∧ UnaryUnaryMethod_call validated_hello nameless bound_context kwargs
           empty_world = (Raise e, empty_world)
       ∧ UnaryStreamMethod_call validated_hello nameless bound_context kwargs
           empty_world = (([], Some e), empty_world).
Proof.
  intros nameless kwargs. eexists. split; [reflexivity|].
  apply (invalid_request_skips_endpoint validated_hello nameless bound_context
           kwargs [] "HelloRequest");
    [reflexivity|reflexivity|intros items; discriminate|reflexivity].
Defined.

Lemma dependency_results_override_solved_params_witness :
  let kwargs := {| kw_method_descriptor := None;
                   kw_dependencies_results := Some [("context", VInt 1)] |} in
  ∃ kw,
    UnaryUnaryMethod_call validated_hello hello_request bound_context kwargs
      empty_world
    = (result <- await_ (endpoint validated_hello kw) ;;
       response <- serialize_response validated_hello result bound_context ;;
       log_call bound_context ;;
       ret response) empty_world
    ∧ dict_get "context" kw = Some (VInt 1)
    ∧ dict_get "request" kw
      = Some (VModel "HelloRequest" [("name", VStr "World")]).
Proof.
  intros kwargs.
  destruct (dependency_results_override_solved_params validated_hello
              hello_request bound_context kwargs [("context", VInt 1)]
              [("context", context_value bound_context);
               ("request", VModel "HelloRequest" [("name", VStr "World")])]
              empty_world) as (kw & Hcall & _ & Hkw).
  - reflexivity.
  - apply NoDup_singleton.
  - reflexivity.
  - exists kw. split; [exact Hcall|]. split; rewrite Hkw; reflexivity.
Defined.

Lemma serialize_response_outside_policy_witness :
  (serialize_response validated_hello (VInt 7) (ServicerContext None)
     empty_world).1
  = Raise (AttributeError
             "'grpc._cython.cygrpc._ServicerContext' object has no attribute 'output_type'")
  ∧ serialize_response validated_hello (VInt 7) bound_context empty_world
    = (Ok (VInt 7), empty_world).
Proof.
  destruct (serialize_response_outside_policy validated_hello (VInt 7)
              (ServicerContext None) empty_world) as (_ & Hraw & _).
  destruct (serialize_response_outside_policy validated_hello (VInt 7)
              bound_context empty_world) as (Hworld & _ & Hpass).
  split; [by apply (Hraw None)|].
  rewrite (surjective_pairing (serialize_response _ _ _ _)).
  rewrite Hworld.
  rewrite (Hpass "SayHello" hello_descriptor None);
    [reflexivity|reflexivity|reflexivity|reflexivity|intros items; discriminate].
Defined.

End MethodsExamples.

(** ** core/dependencies.py *)

Section DependencyResolution.

(** X6: the keyword arguments the resolver builds for a producer follow the
    producer's signature: one entry per parameter, in signature order, under
    the parameter's name, and a parameter whose default is not a marker gets
    that default as it is. *)
Theorem resolve_params_follows_signature (params : Params) :
  ∀ (self : nat) (cache : gmap nat Value) (w : World)
    (kwargs : list (string * Value)) (cache' : gmap nat Value) (w' : World),
  resolve_params self params cache w = (Ok (kwargs, cache'), w') →
  Forall2 (λ p kv, kv.1 = p.1 ∧ ∀ default, p.2 = Some default → kv.2 = default)
    (signature params) kwargs.
Proof.
  induction params as [|name dep rest IH|name default rest IH];
    intros self cache w kwargs cache' w' Hrun.
  - injection Hrun as <- _ _. constructor.
  - cbn [resolve_params signature] in *.
    destruct (cache !! fn_id dep) as [dep_value|].
    + apply bind_inv in Hrun as [(kc & w1 & Hrest & Hret)|(e & _ & Hr)];
        [|discriminate].
      injection Hret as <- _ _. destruct kc as [kw c]. constructor.
      * split; [done|]. intros default Hdef. discriminate.
      * eapply IH, Hrest.
    + apply bind_inv in Hrun as [(vc & w1 & _ & Hrun)|(e & _ & Hr)];
        [|discriminate].
      apply bind_inv in Hrun as [(kc & w2 & Hrest & Hret)|(e & _ & Hr)];
        [|discriminate].
      injection Hret as <- _ _. destruct kc as [kw c]. constructor.
      * split; [done|]. intros default Hdef. discriminate.
      * eapply IH, Hrest.
  - cbn [resolve_params signature] in *.
    apply bind_inv in Hrun as [(kc & w1 & Hrest & Hret)|(e & _ & Hr)];
      [|discriminate].
    injection Hret as <- _ _. destruct kc as [kw c]. constructor.
    + split; [done|]. by intros default' [= <-].
    + eapply IH, Hrest.
Qed.

(** A successful step of the loop stores one value under the parameter. *)
Lemma resolve_endpoint_dependency_ok ds param (d : Depends) results w r w' :
  resolve_endpoint_dependency ds param d results w = (Ok r, w') →
  ∃ v, r = dict_set param v results.
Proof.
  unfold resolve_endpoint_dependency. intros Hrun.
  apply bind_inv in Hrun as [(hg & w1 & _ & Hrun)|(e & _ & Hr)];
    [|discriminate].
  apply bind_inv in Hrun as [(u & w2 & _ & Hrun)|(e & _ & Hr)];
    [|discriminate].
  destruct hg.1 as [| | | | | | | | | |g|g|v] eqn:Hv;
    try (injection Hrun as <- _; by eexists).
  - apply bind_inv in Hrun as [(u' & w3 & _ & Hrun)|(e & _ & Hr)];
      [|discriminate].
    apply bind_inv in Hrun as [(v & w4 & _ & Hrun)|(e & _ & Hr)];
      [|discriminate].
    injection Hrun as <- _. by eexists.
  - apply bind_inv in Hrun as [(u' & w3 & _ & Hrun)|(e & _ & Hr)];
      [|discriminate].
    apply bind_inv in Hrun as [(v & w4 & _ & Hrun)|(e & _ & Hr)];
      [|discriminate].
    injection Hrun as <- _. by eexists.
Qed.

Lemma resolve_endpoint_dependencies_keys ds (deps : list (string * Depends)) :
  ∀ results w r w',
  resolve_endpoint_dependencies ds deps results w = (Ok r, w') →
  NoDup (map fst results ++ map fst deps) →
  map fst r = map fst results ++ map fst deps.
Proof.
  induction deps as [|[param d] deps IH]; intros results w r w' Hrun Hnodup.
  - injection Hrun as <- _. by rewrite app_nil_r.
  - cbn [resolve_endpoint_dependencies] in Hrun.
    apply bind_inv in Hrun as [(r1 & w1 & Hstep & Hrun)|(e & _ & Hr)];
      [|discriminate].
    apply resolve_endpoint_dependency_ok in Hstep as [v ->].
    assert (Hkeys : map fst (dict_set param v results)
                    = map fst results ++ [param]).
    { rewrite dict_keys_set. destruct (decide (param ∈ map fst results))
        as [Hin|_]; [|done].
      apply NoDup_app in Hnodup as (_ & Hdisj & _).
      destruct (Hdisj param Hin). apply list_elem_of_here. }
    apply IH in Hrun.
    + rewrite Hrun, Hkeys. cbn [map fst]. by rewrite <- app_assoc.
    + rewrite Hkeys. cbn [map fst] in Hnodup. by rewrite <- app_assoc.
Qed.

Lemma _get_endpoint_dependencies_keys (params : list (string * ParamDefault)) :
  map fst (_get_endpoint_dependencies params) = depends_params params.
Proof.
  unfold depends_params.
  induction params as [|[k dflt] params IH]; [done|].
  destruct dflt; cbn; by rewrite ?IH.
Qed.

Lemma depends_params_sublist (params : list (string * ParamDefault)) :
  sublist (depends_params params) (map fst params).
Proof.
  unfold depends_params. apply fmap_sublist, sublist_filter.
Qed.

(** X7: the dictionary [get_dependencies_results] returns.  On success its
    keys are the names of the marker parameters, each once and in signature
    order; for the [Dependencies] of an endpoint these are exactly the
    parameters whose default is a [Depends], so the request parameter and
    plain parameters never appear. *)
Theorem dependencies_results_keys (self : nat) (ep : Endpoint)
    (w : World) (r : list (string * Value)) (w' : World) :
  NoDup (map fst (ep_params ep)) →
  get_dependencies_results (Dependencies_init self ep) w = (Ok r, w') →
  map fst r = depends_params (ep_params ep)
  ∧ ∀ k, is_Some (dict_get k r)
         ↔ ∃ d, (k, DefaultDepends d) ∈ ep_params ep.
Proof.
  intros Hnodup Hrun. unfold get_dependencies_results in Hrun.
  apply coroutine_body_inv in Hrun as (r0 & Hrun & Hok).
  rewrite (Hok r eq_refl) in Hrun. cbn in Hrun.
  apply resolve_endpoint_dependencies_keys in Hrun.
  - cbn in Hrun. rewrite _get_endpoint_dependencies_keys in Hrun.
    split; [done|]. intros k.
    assert (is_Some (dict_get k r) ↔ k ∈ map fst r) as ->.
    { destruct (dict_get k r) eqn:Hget.
      - split; [intros _|by eexists].
        destruct (decide (k ∈ map fst r)) as [|Hnin]; [done|].
        apply dict_get_None in Hnin. congruence.
      - split; [intros [? ?]; done|]. intros Hin.
        apply dict_get_None in Hget. done. }
    rewrite Hrun. unfold depends_params. rewrite list_elem_of_fmap. split.
    + intros ([k' dflt] & -> & Hin). apply list_elem_of_filter in Hin as [Hd Hin].
      destruct dflt; try done. by eexists.
    + intros [d Hin]. exists (k, DefaultDepends d). split; [done|].
      apply list_elem_of_filter. done.
  - cbn. rewrite _get_endpoint_dependencies_keys.
    eapply sublist_NoDup; [exact Hnodup|apply depends_params_sublist].
Qed.

Lemma coroutine_body_never_StopIteration {A} (m : M A) w e w' :
  coroutine_body m w = (Raise e, w') → isinstance e "StopIteration" = false.
Proof.
  unfold coroutine_body, try_except.
  destruct (m w) as [[a|e0] w1]; [discriminate|].
  destruct (isinstance e0 "StopIteration") eqn:Hstop.
  - intros [= <- _]. reflexivity.
  - by intros [= <- _].
Qed.

(** X8: an exhausted generator dependency.  Every resolver is an [async
    def], so no [StopIteration] ever leaves [resolve_dependencies] or
    [get_dependencies_results]: a generator producer that yields nothing
    makes the resolution fail with [RuntimeError], whereas an async
    generator producer that yields nothing makes it fail with
    [StopAsyncIteration] itself. *)
Theorem resolution_never_raises_StopIteration :
  (∀ self func cache w e w',
     resolve_dependencies self func cache w = (Raise e, w') →
     isinstance e "StopIteration" = false)
  ∧ (∀ self w e w',
       get_dependencies_results self w = (Raise e, w') →
       isinstance e "StopIteration" = false)
  ∧ (∀ self id body w,
       body [] = PGenerator [] →
       (Depends_call {| depends_id := self;
                        dependency := MkFunc id PNil body |} w).1
       = Raise (RuntimeError "coroutine raised StopIteration"))
  ∧ (∀ self id body w,
       body [] = PAsyncGenerator [] →
       (Depends_call {| depends_id := self;
                        dependency := MkFunc id PNil body |} w).1
       = Raise StopAsyncIteration).
Proof.
  split; [|split; [|split]].
  - intros self func cache w e w' Hrun. destruct func as [id params body].
    cbn [resolve_dependencies] in Hrun.
    by apply coroutine_body_never_StopIteration in Hrun.
  - intros self w e w' Hrun. unfold get_dependencies_results in Hrun.
    by apply coroutine_body_never_StopIteration in Hrun.
  - intros self id body w Hbody. unfold Depends_call.
    cbn [dependency depends_id resolve_dependencies resolve_params].
    unfold coroutine_body, try_except, bind, ret, emit, modify. cbn.
    rewrite Hbody. cbn. unfold bind, new_generator, depends_append, modify,
      next_, advance, emit, get_world, modify. cbn.
    rewrite lookup_insert_eq. reflexivity.
  - intros self id body w Hbody. unfold Depends_call.
    cbn [dependency depends_id resolve_dependencies resolve_params].
    unfold coroutine_body, try_except, bind, ret, emit, modify. cbn.
    rewrite Hbody. cbn. unfold bind, new_generator, depends_append, modify,
      anext, advance, emit, get_world, modify. cbn.
    rewrite lookup_insert_eq. reflexivity.
Qed.

Lemma new_events_app (w w' : World) evs :
  trace w' = trace w ++ evs → new_events w w' = evs.
Proof. intros E. unfold new_events. rewrite E. apply drop_app_length. Qed.

(** What leaves an async generator is no exhaustion signal. *)
Lemma leaving_async_generator_no_signal (e : Exc) :
  isinstance (leaving_async_generator e) "StopAsyncIteration"
  || isinstance (leaving_async_generator e) "StopIteration" = false.
Proof.
  unfold leaving_async_generator.
  destruct (isinstance e "StopIteration") eqn:E1; [by vm_compute|].
  destruct (isinstance e "StopAsyncIteration") eqn:E2; [by vm_compute|].
  by rewrite E1, E2.
Qed.

(** X9: one pass of the cleanup loop over one handle.  It resumes the
    generator once.  A generator with more to yield stays suspended, one
    item further; a finished generator is resumed to no effect; a generator
    that stood at its last [yield] runs the code after it: if that code
    returns, the exhaustion signal is swallowed; if it raises, the pass
    fails with the exception as it leaves the generator, unless that is
    itself an exhaustion signal the [except] clause swallows (a
    [StopAsyncIteration] raised by a plain generator).  A value that is no
    generator is skipped. *)
Theorem close_dependency_single_step (h : Value) (w : World) :
  let w' := (close_dependency h w).2 in
  (handle_ids [h] = [] → close_dependency h w = (Ok tt, w))
  ∧ ∀ g, handle_ids [h] = [g] →
      (∀ y ys finish, generators w !! g = Some (y :: ys, finish) →
         (close_dependency h w).1 = Ok tt
         ∧ generators w' = <[g := (ys, finish)]> (generators w)
         ∧ new_events w w' = [EvNext g])
      ∧ (generators w !! g = Some ([], None) →
         (close_dependency h w).1 = Ok tt
         ∧ generators w' = delete g (generators w)
         ∧ new_events w w' = [EvNext g; EvReturn g])
      ∧ (∀ e, generators w !! g = Some ([], Some e) →
         generators w' = delete g (generators w)
         ∧ new_events w w' = [EvNext g]
         ∧ (h = VGenerator g →
            (close_dependency h w).1
            = if isinstance e "StopIteration"
              then Raise (RuntimeError "generator raised StopIteration")
              else if isinstance e "StopAsyncIteration" then Ok tt
              else Raise e)
         ∧ (h = VAsyncGen g →
            (close_dependency h w).1 = Raise (leaving_async_generator e)))
      ∧ (generators w !! g = None →
         (close_dependency h w).1 = Ok tt
         ∧ generators w' = generators w
         ∧ new_events w w' = [EvNext g]).
Proof.
  assert (Hadvance : ∀ stop leaving g,
    (isinstance stop "StopAsyncIteration" || isinstance stop "StopIteration")
    = true →
    let m := try_except (advance stop leaving g ;; ret tt)
               (λ e, if isinstance e "StopAsyncIteration"
                        || isinstance e "StopIteration"
                     then ret tt else raise e) in
    (∀ y ys finish, generators w !! g = Some (y :: ys, finish) →
         (m w).1 = Ok tt
         ∧ generators (m w).2 = <[g := (ys, finish)]> (generators w)
         ∧ new_events w (m w).2 = [EvNext g])
    ∧ (generators w !! g = Some ([], None) →
         (m w).1 = Ok tt
         ∧ generators (m w).2 = delete g (generators w)
         ∧ new_events w (m w).2 = [EvNext g; EvReturn g])
    ∧ (∀ e, generators w !! g = Some ([], Some e) →
         generators (m w).2 = delete g (generators w)
         ∧ new_events w (m w).2 = [EvNext g]
         ∧ (m w).1
           = if isinstance (leaving e) "StopAsyncIteration"
                || isinstance (leaving e) "StopIteration"
             then Ok tt else Raise (leaving e))
    ∧ (generators w !! g = None →
         (m w).1 = Ok tt
         ∧ generators (m w).2 = generators w
         ∧ new_events w (m w).2 = [EvNext g])).
  { intros stop leaving g Hstop m. subst m.
    unfold try_except, advance, bind, emit, modify, get_world, ret, raise.
    cbn.
    destruct (generators w !! g) as [[[|y ys] [e|]]|] eqn:Hg; cbn;
      rewrite ?Hstop.
    - split; [intros; discriminate|]. split; [intros; discriminate|].
      split; [|intros; discriminate]. intros e' [= <-].
      destruct (isinstance (leaving e) "StopAsyncIteration"
                || isinstance (leaving e) "StopIteration"); cbn;
        (split; [done|]); (split; [|done]); by apply new_events_app.
    - split; [intros; discriminate|].
      split; [|split; intros; discriminate].
      intros _. split; [done|]. split; [done|].
      apply new_events_app. cbn. by rewrite <- app_assoc.
    - split; [|split; [|split]]; try (intros; discriminate).
      intros y' ys' finish [= <- <- <-]. split; [done|]. split; [done|].
      by apply new_events_app.
    - split; [|split; [|split]]; try (intros; discriminate).
      intros y' ys' finish [= <- <- <-]. split; [done|]. split; [done|].
      by apply new_events_app.
    - split; [intros; discriminate|]. split; [intros; discriminate|].
      split; [intros; discriminate|]. intros _. split; [done|].
      split; [done|]. by apply new_events_app. }
  intros w'. subst w'. unfold close_dependency.
  destruct h as [| | | | | | | | | |g|g|v];
    try (split; [reflexivity|intros g Hg; discriminate]).
  - destruct (Hadvance StopIteration leaving_generator g eq_refl)
      as (Hmore & Hlast & Hraise & Hdone).
    split; [intros Hnone; discriminate|].
    intros g' [= <-]. split; [exact Hmore|]. split; [exact Hlast|].
    split; [|exact Hdone].
    intros e He. destruct (Hraise e He) as (Hgens & Hevents & Hresult).
    split; [exact Hgens|]. split; [exact Hevents|].
    split; [|intros; discriminate]. intros _.
    unfold next_. rewrite Hresult. unfold leaving_generator.
    destruct (isinstance e "StopIteration") eqn:E1; [by vm_compute|].
    rewrite E1, orb_false_r. by destruct (isinstance e "StopAsyncIteration").
  - destruct (Hadvance StopAsyncIteration leaving_async_generator g eq_refl)
      as (Hmore & Hlast & Hraise & Hdone).
    split; [intros Hnone; discriminate|].
    intros g' [= <-]. split; [exact Hmore|]. split; [exact Hlast|].
    split; [|exact Hdone].
    intros e He. destruct (Hraise e He) as (Hgens & Hevents & Hresult).
    split; [exact Hgens|]. split; [exact Hevents|].
    split; [intros; discriminate|]. intros _.
    unfold anext. rewrite Hresult.
    by rewrite leaving_async_generator_no_signal.
Qed.

Lemma advance_inv stop leaving g w r w' :
  advance stop leaving g w = (r, w') →
  dependencies_cached w' = dependencies_cached w
  ∧ depends_cached w' = depends_cached w.
Proof.
  intros Hrun.
  destruct (advance_spec stop leaving g w)
    as (evs & _ & _ & _ & _ & Hds & Hd & _).
  rewrite Hrun in Hds, Hd. done.
Qed.

(** X10: what one resolution of a marker adds to the method's handle list.
    On success the marker's own list has grown at its end, and the whole of
    it, the entries of earlier calls included, has been appended to the
    method's list, followed by the handle of the producer's result when that
    is itself a generator. *)
Theorem resolution_copies_marker_history (ds : nat) (param : string)
    (d : Depends) (results : list (string * Value)) (w : World)
    (r : list (string * Value)) (w' : World) :
  resolve_endpoint_dependency ds param d results w = (Ok r, w') →
  ∃ new tail,
    cached_list (depends_cached w') (depends_id d)
    = cached_list (depends_cached w) (depends_id d) ++ new
    ∧ cached_list (dependencies_cached w') ds
      = cached_list (dependencies_cached w) ds
        ++ (cached_list (depends_cached w) (depends_id d) ++ new) ++ tail.
Proof.
  unfold resolve_endpoint_dependency. intros Hrun.
  apply bind_inv in Hrun as [(hg & w1 & Hcall & Hrun)|(e & _ & Hr)];
    [|discriminate].
  destruct (Depends_call_spec d w) as [Hstep Hlist].
  rewrite Hcall in Hstep, Hlist. cbn [fst snd] in Hstep, Hlist.
  specialize (Hlist hg eq_refl).
  destruct Hstep as (_ & Hds1 & new & Hd1 & _).
  apply bind_inv in Hrun as [(u & w2 & Hextend & Hrun)|(e & _ & Hr)];
    [|discriminate].
  assert (Hw2 : depends_cached w2 = depends_cached w1
                ∧ cached_list (dependencies_cached w2) ds
                  = cached_list (dependencies_cached w) ds ++ hg.2).
  { destruct (bool_decide (hg.2 = [])) eqn:Hempty.
    - apply bool_decide_eq_true in Hempty. injection Hextend as _ <-.
      by rewrite Hempty, app_nil_r, Hds1.
    - injection Hextend as _ <-. split; [done|]. cbn.
      by rewrite cached_list_insert_eq, Hds1. }
  destruct Hw2 as [Hd2 Hds2]. rewrite Hlist, Hd1 in Hds2.
  assert (Hhandle : ∀ handle stop leaving g,
    (dependencies_extend ds [handle] ;;
     v <- advance stop leaving g ;;
     ret (dict_set param v results)) w2 = (Ok r, w') →
    depends_cached w' = depends_cached w2
    ∧ cached_list (dependencies_cached w') ds
      = cached_list (dependencies_cached w2) ds ++ [handle]).
  { intros handle stop leaving g Hrun'.
    apply bind_inv in Hrun' as [(u' & w3 & Hext & Hrun')|(e & _ & Hr)];
      [|discriminate].
    apply bind_inv in Hrun' as [(v & w4 & Hadv & Hret)|(e & _ & Hr)];
      [|discriminate].
    injection Hret as _ <-. apply advance_inv in Hadv as [Hds4 Hd4].
    injection Hext as _ <-. rewrite Hds4, Hd4. split; [done|]. cbn.
    by rewrite cached_list_insert_eq. }
  exists new.
  destruct hg.1 as [| | | | | | | | | |g|g|v] eqn:Hv;
    try (injection Hrun as _ <-; exists [];
         rewrite Hd2, Hd1, Hds2, app_nil_r; done).
  - apply (Hhandle (VGenerator g) StopIteration leaving_generator g) in Hrun
      as [Hd' Hds'].
    exists [VGenerator g]. by rewrite Hd', Hd2, Hd1, Hds', Hds2, <- app_assoc.
  - apply (Hhandle (VAsyncGen g) StopAsyncIteration leaving_async_generator g)
      in Hrun as [Hd' Hds'].
    exists [VAsyncGen g]. by rewrite Hd', Hd2, Hd1, Hds', Hds2, <- app_assoc.
Qed.

(** One resolution for an endpoint with a single marker whose producer is a
    generator function without parameters. *)
Lemma leaf_generator_resolution ds p d id body y ys (w : World) :
  body [] = PGenerator (y :: ys) → is_plain y = true →
  let self := {| dependencies_id := ds;
                 endpoint_dependencies :=
                   [(p, {| depends_id := d;
                           dependency := MkFunc id PNil body |})] |} in
  let g := next_generator w in
  let w' := (get_dependencies_results self w).2 in
  (get_dependencies_results self w).1 = Ok [(p, y)]
  ∧ cached_list (depends_cached w') d
    = cached_list (depends_cached w) d ++ [VGenerator g]
  ∧ cached_list (dependencies_cached w') ds
    = cached_list (dependencies_cached w) ds
      ++ cached_list (depends_cached w) d ++ [VGenerator g]
  ∧ returns_normally w' g
  ∧ (∀ g', returns_normally w g' → returns_normally w' g').
Proof.
  intros Hbody Hplain self g w'. subst self w'.
  unfold get_dependencies_results, coroutine_body, try_except.
  cbn [dependencies_id endpoint_dependencies resolve_endpoint_dependencies].
  unfold resolve_endpoint_dependency, Depends_call.
  cbn [dependency depends_id resolve_dependencies resolve_params].
  unfold coroutine_body, try_except, bind, ret, emit, modify, get_world. cbn.
  rewrite Hbody. cbn.
  unfold bind, new_generator, depends_append, modify, next_, advance, emit,
    get_world, modify, ret. cbn.
  rewrite lookup_insert_eq. cbn. rewrite cached_list_insert_eq.
  rewrite bool_decide_eq_false_2
    by (intros Heq; by apply app_nil in Heq as [_ ?]).
  unfold dependencies_extend, modify.
  assert (Hnormal : ∀ (w0 : World) g',
    generators w0
    = <[g := (ys, None)]> (<[g := (y :: ys, None)]> (generators w)) →
    returns_normally w g' ∨ g' = g → returns_normally w0 g').
  { intros w0 g' Hgens Hg' ys' e' Hl. rewrite Hgens in Hl.
    destruct (decide (g' = g)) as [->|Hne].
    - by rewrite lookup_insert_eq in Hl.
    - rewrite !lookup_insert_ne in Hl by done.
      destruct Hg' as [Hg'|Hg']; [by apply Hg' in Hl|done]. }
  destruct y; try discriminate Hplain; cbn;
    rewrite !cached_list_insert_eq;
    (split; [done|]); (split; [done|]); (split; [done|]);
    (split; [apply Hnormal; [done|by right]
            |intros g' Hg'; apply Hnormal; [done|by left]]).
Qed.

(** X11: the handle lists over repeated calls.  For an endpoint with one
    marker whose producer is a generator function, every resolution
    succeeds and creates one generator object; since neither list is ever
    cleared and the marker's list is copied again at each call, after [n]
    calls the marker holds [n] handles and the method holds [n (n + 1) / 2],
    and the cleanup loop of the next call resumes
    [(n + 1) (n + 2) / 2] generators. *)
Theorem handle_list_grows_quadratically (ds : nat) (p : string) (d id : nat)
    (body : list (string * Value) → Produced) (y : Value) (ys : list Value)
    (n : nat) (w : World) :
  body [] = PGenerator (y :: ys) → is_plain y = true →
  cached_list (depends_cached w) d = [] →
  cached_list (dependencies_cached w) ds = [] →
  let self := {| dependencies_id := ds;
                 endpoint_dependencies :=
                   [(p, {| depends_id := d;
                           dependency := MkFunc id PNil body |})] |} in
  let w' := call_rounds self n w in
  let w1 := (get_dependencies_results self w').2 in
  let w2 := (close_dependencies (cached_list (dependencies_cached w1) ds) w1).2 in
  (get_dependencies_results self w').1 = Ok [(p, y)]
  ∧ length (handle_ids (cached_list (depends_cached w') d)) = n
  ∧ (2 * length (handle_ids (cached_list (dependencies_cached w') ds))
     = n * (n + 1))%nat
  ∧ (2 * length (invocations (new_events w1 w2)) = (n + 1) * (n + 2))%nat.
Proof.
  intros Hbody Hplain Hd Hds self w' w1 w2.
  assert (Hround : ∀ w0,
    (cached_list (depends_cached (resolve_and_close self w0)) d
     = cached_list (depends_cached w0) d ++ [VGenerator (next_generator w0)]
     ∧ cached_list (dependencies_cached (resolve_and_close self w0)) ds
       = cached_list (dependencies_cached w0) ds
         ++ cached_list (depends_cached w0) d
         ++ [VGenerator (next_generator w0)])
    ∧ returns_normally (resolve_and_close self w0) (next_generator w0)
    ∧ ∀ g, returns_normally w0 g →
           returns_normally (resolve_and_close self w0) g).
  { intros w0. unfold resolve_and_close. cbn [dependencies_id self].
    destruct (leaf_generator_resolution ds p d id body y ys w0 Hbody Hplain)
      as (_ & Hd' & Hds' & Hnew & Hold). fold self in Hd', Hds', Hnew, Hold.
    destruct (close_dependencies_keeps
                (cached_list (dependencies_cached
                                (get_dependencies_results self w0).2) ds)
                (get_dependencies_results self w0).2)
      as (Hkeep & Hkeep' & _ & Hnormal).
    split; [by rewrite Hkeep, Hkeep', Hd', Hds'|]. split.
    - apply Hnormal, Hnew.
    - intros g Hg. apply Hnormal, Hold, Hg. }
  assert (Hlists : (length (handle_ids (cached_list (depends_cached w') d)) = n
            ∧ (2 * length (handle_ids (cached_list (dependencies_cached w') ds))
               = n * (n + 1))%nat)
            ∧ Forall (returns_normally w')
                (handle_ids (cached_list (depends_cached w') d))
            ∧ Forall (returns_normally w')
                (handle_ids (cached_list (dependencies_cached w') ds))).
  { subst w'. clear w1 w2.
    induction n as [|n [[IHd IHds] [IHnd IHnds]]].
    - cbn. rewrite Hd, Hds. repeat split; done || apply List.Forall_nil.
    - change (call_rounds self (S n) w)
        with (resolve_and_close self (call_rounds self n w)).
      destruct (Hround (call_rounds self n w)) as ([Hd' Hds'] & Hnew & Hold).
      rewrite Hd', Hds'.
      rewrite !handle_ids_app, !length_app, IHd. cbn [handle_ids length].
      split; [split; [lia|nia]|].
      rewrite !Forall_app. repeat split;
        try (eapply Forall_impl; [eassumption|exact Hold]);
        (apply Forall_cons; split; [exact Hnew|apply List.Forall_nil]). }
  destruct Hlists as ([Hlen_d Hlen_ds] & Hnd & Hnds).
  split; [apply (leaf_generator_resolution ds p d id body y ys _ Hbody Hplain)|].
  split; [exact Hlen_d|]. split; [exact Hlen_ds|].
  destruct (leaf_generator_resolution ds p d id body y ys w' Hbody Hplain)
    as (_ & _ & Hds' & Hnew & Hold).
  fold self in Hds', Hnew, Hold. fold w1 in Hds', Hnew, Hold.
  destruct (close_dependencies_spec (cached_list (dependencies_cached w1) ds) w1)
    as (evs & _ & Htrace & Hinv & _).
  { rewrite Hds', !handle_ids_app, !Forall_app. repeat split;
      try (eapply Forall_impl; [eassumption|exact Hold]).
    apply Forall_cons. split; [exact Hnew|apply List.Forall_nil]. }
  fold w2 in Htrace. rewrite (new_events_app _ _ _ Htrace), Hinv, Hds'.
  rewrite !handle_ids_app, !length_app, Hlen_d. cbn [handle_ids length].
  nia.
Qed.

End DependencyResolution.

Section DependenciesExamples.

Lemma resolve_params_follows_signature_witness :
  let params := PDepends "a" sync_dependency (PDefault "limit" (VInt 10) PNil) in
  let kwargs := [("a", VStr "sync dependency"); ("limit", VInt 10)] in
  (∃ cache' w',
     resolve_params 0 params ∅ empty_world = (Ok (kwargs, cache'), w'))
  ∧ Forall2 (λ p kv, kv.1 = p.1 ∧ ∀ default, p.2 = Some default → kv.2 = default)
      (signature params) kwargs.
Proof.
  intros params kwargs.
  split; [eexists; eexists; vm_compute; reflexivity|].
  eapply (resolve_params_follows_signature params 0 ∅ empty_world).
  vm_compute. reflexivity.
Defined.

Lemma dependencies_results_keys_witness :
  let ep := say_hello [("db", marker 10 sync_gen);
                       ("limit", DefaultValue (VInt 3));
                       ("settings", marker 11 sync_dependency)] in
  ∃ r, (get_dependencies_results (Dependencies_init 0 ep) empty_world).1 = Ok r
       ∧ map fst r = ["db"; "settings"]
       ∧ dict_get "request" r = None.
Proof.
  intros ep. eexists. split; [vm_compute; reflexivity|].
  edestruct (dependencies_results_keys 0 ep empty_world) as [Hkeys Hdict].
  - by compute_done.
  - vm_compute. reflexivity.
  - split; [exact Hkeys|]. reflexivity.
Defined.

Lemma resolution_never_raises_StopIteration_witness :
  (resolve_dependencies 0 failing_dependency ∅ empty_world).1
  = Raise (ValueError "no database")
  ∧ isinstance (ValueError "no database") "StopIteration" = false
  ∧ (Depends_call {| depends_id := 10;
                     dependency := MkFunc 5 PNil (λ _, PGenerator []) |}
       empty_world).1
    = Raise (RuntimeError "coroutine raised StopIteration")
  ∧ (Depends_call {| depends_id := 10;
                     dependency := MkFunc 5 PNil (λ _, PAsyncGenerator []) |}
       empty_world).1
    = Raise StopAsyncIteration.
Proof.
  destruct resolution_never_raises_StopIteration as (Hfunc & _ & Hgen & Hagen).
  split; [vm_compute; reflexivity|]. split; [|split].
  - eapply (Hfunc 0 failing_dependency ∅ empty_world). vm_compute. reflexivity.
  - apply Hgen. reflexivity.
  - apply Hagen. reflexivity.
Defined.

Lemma close_dependency_single_step_witness :
  let w := (new_generator [VInt 1] None empty_world).2 in
  let w1 := (close_dependency (VGenerator 0) w).2 in
  let w2 := (close_dependency (VGenerator 0) w1).2 in
  let failing :=
    (new_generator [] (Some (ValueError "teardown failed")) empty_world).2 in
  (generators w !! 0%nat = Some ([VInt 1], None)
   ∧ new_events w w1 = [EvNext 0]
   ∧ generators w1 !! 0%nat = Some ([], None)
   ∧ new_events w1 w2 = [EvNext 0; EvReturn 0]
   ∧ generators w2 !! 0%nat = None)
  ∧ (close_dependency (VGenerator 0) failing).1
    = Raise (ValueError "teardown failed")
  ∧ (close_dependency (VAsyncGen 0) failing).1
    = Raise (ValueError "teardown failed").
Proof.
  intros w w1 w2 failing.
  assert (Hw : generators w !! 0%nat = Some ([VInt 1], None)) by reflexivity.
  assert (Hw1 : generators w1 !! 0%nat = Some ([], None)) by reflexivity.
  assert (Hf : generators failing !! 0%nat
               = Some ([], Some (ValueError "teardown failed")))
    by reflexivity.
  split; [|split].
  - destruct (close_dependency_single_step (VGenerator 0) w) as (_ & Hstep).
    destruct (Hstep 0%nat eq_refl) as (Hmore & _).
    destruct (Hmore (VInt 1) [] None Hw) as (_ & _ & Hevents).
    destruct (close_dependency_single_step (VGenerator 0) w1)
      as (_ & Hstep1).
    destruct (Hstep1 0%nat eq_refl) as (_ & Hlast & _).
    destruct (Hlast Hw1) as (_ & Hgens & Hevents1).
    split; [exact Hw|]. split; [exact Hevents|]. split; [exact Hw1|].
    split; [exact Hevents1|].
    fold w2 in Hgens. rewrite Hgens. apply lookup_delete_eq.
  - destruct (close_dependency_single_step (VGenerator 0) failing)
      as (_ & Hstep).
    destruct (Hstep 0%nat eq_refl) as (_ & _ & Hraise & _).
    destruct (Hraise _ Hf) as (_ & _ & Hgen & _).
    exact (Hgen eq_refl).
  - destruct (close_dependency_single_step (VAsyncGen 0) failing)
      as (_ & Hstep).
    destruct (Hstep 0%nat eq_refl) as (_ & _ & Hraise & _).
    destruct (Hraise _ Hf) as (_ & _ & _ & Hgen).
    exact (Hgen eq_refl).
Defined.

Lemma resolution_copies_marker_history_witness :
  let d := {| depends_id := 10; dependency := sync_gen |} in
  let w := (resolve_endpoint_dependency 0 "db" d [] empty_world).2 in
  let w' := (resolve_endpoint_dependency 0 "db" d [] w).2 in
  (resolve_endpoint_dependency 0 "db" d [] w).1 = Ok [("db", VInt 1)]
  ∧ cached_list (depends_cached w) 10 = [VGenerator 0]
  ∧ cached_list (dependencies_cached w) 0 = [VGenerator 0]
  ∧ ∃ new tail,
      cached_list (depends_cached w') 10 = [VGenerator 0] ++ new
      ∧ cached_list (dependencies_cached w') 0
        = [VGenerator 0] ++ ([VGenerator 0] ++ new) ++ tail.
Proof.
  intros d w w'.
  split; [vm_compute; reflexivity|]. split; [reflexivity|].
  split; [reflexivity|].
  apply (resolution_copies_marker_history 0 "db" d [] w [("db", VInt 1)] w').
  vm_compute. reflexivity.
Defined.

Lemma handle_list_grows_quadratically_witness :
  let self := {| dependencies_id := 0;
                 endpoint_dependencies :=
                   [("db", {| depends_id := 10; dependency := sync_gen |})] |} in
  let w' := call_rounds self 3 empty_world in
  let w1 := (get_dependencies_results self w').2 in
  let w2 := (close_dependencies (cached_list (dependencies_cached w1) 0) w1).2 in
  length (handle_ids (cached_list (dependencies_cached w') 0)) = 6%nat
  ∧ length (invocations (new_events w1 w2)) = 10%nat.
Proof.
  intros self w' w1 w2.
  pose proof (handle_list_grows_quadratically 0 "db" 10 1
                (λ _, PGenerator [VInt 1]) (VInt 1) [] 3 empty_world
                eq_refl eq_refl eq_refl eq_refl) as (_ & _ & Hlen & Hnext).
  change (2 * length (handle_ids (cached_list (dependencies_cached w') 0))
          = 3 * (3 + 1))%nat in Hlen.
  change (2 * length (invocations (new_events w1 w2)) = (3 + 1) * (3 + 2))%nat
    in Hnext.
  lia.
Defined.

End DependenciesExamples.

(** ** middleware and core/controller.py *)

Section Stages.
Context `{Transport} `{Codec}.

(** Two nested async generators let out what one does. *)
Lemma async_generator_body_idemp (g : G) (w : World) :
  async_generator_body (async_generator_body g) w = async_generator_body g w.
Proof.
  unfold async_generator_body. destruct (g w) as [[items [e|]] w']; [|done].
  simpl. by rewrite leaving_async_generator_idemp.
Qed.

(** What comes out of [AsyncGeneratorWrapper.__call__] has left an async
    generator: leaving another one does not change it. *)
Lemma AsyncGeneratorWrapper_call_raises method request context kwargs w items
    exc w' :
  AsyncGeneratorWrapper_call method request context kwargs w
  = ((items, Some exc), w') →
  leaving_async_generator exc = exc.
Proof.
  unfold AsyncGeneratorWrapper_call.
  generalize (match wg_dependencies method with
              | Some deps =>
                  g_bind (get_dependencies_results deps) (λ r,
                    wg_func method request context
                      (with_dependencies_results kwargs r))
              | None => wg_func method request context kwargs
              end).
  intros g. unfold async_generator_body.
  destruct (g w) as [[items0 [e|]] w0]; [|discriminate].
  intros [= _ <- _]. apply leaving_async_generator_idemp.
Qed.

(** X12: the exception stage outside the handler registry.  A
    [grpc.RpcError] is aborted with UNKNOWN and its text without any handler
    being looked up, on either kind of context.  An exception that is not an
    [Exception] (a [BaseException] such as a cancellation) is none of the
    stage's business: it leaves both flavours of the stage as it was raised,
    nothing is aborted, and the items yielded so far stay yielded.  On the
    transport's own context an [Exception] is replaced by the
    [AttributeError] of the log line, before any handler or abort. *)
Theorem exception_stage_outside_registry
    (handlers : gmap string ExceptionHandler) (request : Value)
    (context : Context) (exc : Exc) (w : World) :
  (isinstance exc "RpcError" = true →
     handle_exception handlers request context exc w
     = abort context UNKNOWN (exc_str exc) w)
  ∧ (isinstance exc "RpcError" = false → isinstance exc "Exception" = false →
       handle_exception handlers request context exc w = (Raise exc, w)
       ∧ (∀ method kwargs w0,
            AsyncFunctionWrapper_call method request context kwargs w0
            = (Raise exc, w) →
            NotIterableExceptionMiddleware handlers method request context
              kwargs w0 = (Raise exc, w))
       ∧ (∀ method kwargs w0 items,
            AsyncGeneratorWrapper_call method request context kwargs w0
            = ((items, Some exc), w) →
            IterableExceptionMiddleware handlers method request context
              kwargs w0 = ((items, Some exc), w)))
  ∧ (isinstance exc "RpcError" = false → isinstance exc "Exception" = true →
       ∀ sched, context = ServicerContext sched →
       handle_exception handlers request context exc w
       = (Raise (AttributeError
                   "'grpc._cython.cygrpc._ServicerContext' object has no attribute 'controller_method'"),
          w)).
Proof.
  split; [|split].
  - intros Hrpc. unfold handle_exception. by rewrite Hrpc.
  - intros Hrpc Hexc.
    assert (Hpass : handle_exception handlers request context exc w
                    = (Raise exc, w)).
    { unfold handle_exception. by rewrite Hrpc, Hexc. }
    split; [exact Hpass|]. split.
    + intros method kwargs w0 Hrun. unfold NotIterableExceptionMiddleware.
      rewrite (try_except_raise _ _ _ _ _ Hrun).
      by apply bind_raise.
    + intros method kwargs w0 items Hrun.
      unfold IterableExceptionMiddleware, async_generator_body, g_try.
      rewrite Hrun, Hpass. simpl.
      by rewrite (AsyncGeneratorWrapper_call_raises _ _ _ _ _ _ _ _ Hrun).
  - intros Hrpc Hexc sched ->. unfold handle_exception.
    by rewrite Hrpc, Hexc.
Qed.

Lemma kwargs_merge_with_results kwargs md r :
  kw_method_descriptor kwargs = Some md →
  kwargs_merge kwargs (with_dependencies_results kwargs r)
  = with_dependencies_results kwargs r.
Proof.
  intros Hmd. unfold kwargs_merge, with_dependencies_results. cbn.
  by rewrite Hmd.
Qed.

(** The two built-in stages at the head of every controller's chain. *)
Lemma builtin_function_stages kwargs name handlers rest inner md r request
    context :
  kw_method_descriptor kwargs = Some md →
  function_chain kwargs name
    (NotIterableContextMiddleware
     :: NotIterableExceptionMiddleware handlers :: rest)
    inner request context (with_dependencies_results no_kwargs r)
  = try_except
      (function_chain kwargs name rest inner request
         (ControllerContext name md None) (with_dependencies_results kwargs r))
      (λ exc, handle_exception handlers request
                (ControllerContext name md None) exc ;; ret VNone).
Proof.
  intros Hmd. simpl.
  unfold partial_function at 1. unfold NotIterableContextMiddleware.
  simpl. rewrite Hmd. simpl.
  unfold AsyncFunctionWrapper_call at 1. simpl.
  unfold partial_function at 1.
  unfold NotIterableExceptionMiddleware.
  unfold AsyncFunctionWrapper_call at 1. simpl.
  unfold kwargs_merge, pop_method_descriptor, with_dependencies_results.
  simpl. rewrite Hmd.
  destruct (kw_dependencies_results kwargs); done.
Qed.

Lemma builtin_generator_stages kwargs name handlers rest inner md r request
    context w :
  kw_method_descriptor kwargs = Some md →
  generator_chain kwargs name
    (IterableContextMiddleware
     :: IterableExceptionMiddleware handlers :: rest)
    inner request context (with_dependencies_results no_kwargs r) w
  = async_generator_body
      (g_try
         (async_generator_body
            (generator_chain kwargs name rest inner request
               (ControllerContext name md None)
               (with_dependencies_results kwargs r)))
         (handle_exception handlers request (ControllerContext name md None)))
      w.
Proof.
  intros Hmd. simpl.
  unfold partial_generator at 1. unfold IterableContextMiddleware.
  simpl. rewrite Hmd. simpl.
  unfold AsyncGeneratorWrapper_call at 1. simpl.
  unfold partial_generator at 1.
  unfold IterableExceptionMiddleware.
  unfold AsyncGeneratorWrapper_call at 1. simpl.
  unfold kwargs_merge, pop_method_descriptor, with_dependencies_results.
  simpl. rewrite Hmd. rewrite !async_generator_body_idemp.
  destruct (kw_dependencies_results kwargs); done.
Qed.

(** The built-in stages of a controller's two chains, around the stages the
    user registered. *)
Lemma controller_function_chain (c : Controller) kwargs name inner md r request
    context :
  kw_method_descriptor kwargs = Some md →
  function_chain kwargs name (_middlewares (middleware_manager c)) inner
    request context (with_dependencies_results no_kwargs r)
  = try_except
      (function_chain kwargs name (user_middlewares c) inner request
         (ControllerContext name md (controller_scheduler c))
         (with_dependencies_results kwargs r))
      (λ exc, handle_exception (exception_handlers c) request
                (ControllerContext name md None) exc ;; ret VNone).
Proof.
  intros Hmd. unfold middleware_manager. cbn [_middlewares app].
  rewrite (builtin_function_stages _ _ _ _ _ md r request context Hmd).
  destruct (controller_scheduler c) as [s|]; cbn [app function_chain];
    [|reflexivity].
  unfold partial_function at 1. unfold NotIterableSchedulerMiddleware.
  unfold AsyncFunctionWrapper_call. cbn [wf_dependencies wf_func set_scheduler].
  by rewrite (kwargs_merge_with_results _ md r Hmd).
Qed.

Lemma controller_generator_chain (c : Controller) kwargs name inner md r request
    context w :
  kw_method_descriptor kwargs = Some md →
  generator_chain kwargs name (_iterable_middlewares (middleware_manager c))
    inner request context (with_dependencies_results no_kwargs r) w
  = async_generator_body
      (g_try
         (async_generator_body
            (generator_chain kwargs name (user_iterable_middlewares c) inner
               request (ControllerContext name md (controller_scheduler c))
               (with_dependencies_results kwargs r)))
         (handle_exception (exception_handlers c) request
            (ControllerContext name md None)))
      w.
Proof.
  intros Hmd. unfold middleware_manager. cbn [_iterable_middlewares app].
  rewrite (builtin_generator_stages _ _ _ _ _ md r request context w Hmd).
  destruct (controller_scheduler c) as [s|]; cbn [app generator_chain];
    [|reflexivity].
  unfold partial_generator at 1. unfold IterableSchedulerMiddleware.
  unfold AsyncGeneratorWrapper_call. cbn [wg_dependencies wg_func set_scheduler].
  rewrite (kwargs_merge_with_results _ md r Hmd).
  unfold async_generator_body, g_try.
  destruct (generator_chain kwargs name (user_iterable_middlewares c) inner
              request (ControllerContext name md (Some s))
              (with_dependencies_results kwargs r) w) as [[items [e|]] w1];
    simpl; [|done].
  by rewrite !leaving_async_generator_idemp.
Qed.

(** X13: what the built-in stages of a controller do to a call that goes
    well.  The context the transport passes is replaced: the stages the user
    registered, and the method inside them, run on a [ControllerContext]
    named after the method, built on the call's descriptor and carrying the
    controller's scheduler; they still receive the descriptor among their
    keyword arguments, with the dependency results.  Whatever that inner part
    returns or yields without raising is the outcome of the whole chain. *)
Theorem controller_stages_bind_context (c : Controller) (method : Method)
    (kwargs : Kwargs) (md : MethodDescriptor) (request : Value)
    (context : Context) (r : list (string * Value)) (w : World) :
  kw_method_descriptor kwargs = Some md →
  let name := method_name method in
  let bound := ControllerContext name md (controller_scheduler c) in
  (∀ v w',
     function_chain kwargs name (user_middlewares c)
       (UnaryUnaryMethod_call method) request bound
       (with_dependencies_results kwargs r) w = (Ok v, w') →
     function_chain kwargs name (_middlewares (middleware_manager c))
       (UnaryUnaryMethod_call method) request context
       (with_dependencies_results no_kwargs r) w = (Ok v, w'))
  ∧ (∀ items w',
       generator_chain kwargs name (user_iterable_middlewares c)
         (UnaryStreamMethod_call method) request bound
         (with_dependencies_results kwargs r) w = ((items, None), w') →
       generator_chain kwargs name (_iterable_middlewares (middleware_manager c))
         (UnaryStreamMethod_call method) request context
         (with_dependencies_results no_kwargs r) w = ((items, None), w')).
Proof.
  intros Hmd name bound. subst bound. split.
  - intros v w' Hinner.
    rewrite (controller_function_chain c _ _ _ md r request context Hmd).
    unfold try_except. by rewrite Hinner.
  - intros items w' Hinner.
    rewrite (controller_generator_chain c _ _ _ md r request context w Hmd).
    unfold async_generator_body, g_try. by rewrite Hinner.
Qed.

(** X14: registering exception handlers on a controller.  For an exception
    the registry is consulted for, a handler given for its class replaces
    the one the controller had, the default ones included; for every other
    class the stage reacts as before. *)
Theorem user_handler_replaces_default (c : Controller)
    (exceptions : gmap string ExceptionHandler) (request : Value)
    (name : string) (md : MethodDescriptor) (sched : option nat) (exc : Exc) :
  isinstance exc "RpcError" = false →
  isinstance exc "Exception" = true →
  let context := ControllerContext name md sched in
  let handlers := exception_handlers (add_exception_handler c exceptions) in
  (∀ h, exceptions !! exc_type exc = Some h →
     handle_exception handlers request context exc
     = (h request context exc ;; abort context UNKNOWN (exc_str exc)))
  ∧ (exceptions !! exc_type exc = None →
     handle_exception handlers request context exc
     = handle_exception (exception_handlers c) request context exc).
Proof.
  intros Hrpc Hexc context handlers. subst context handlers.
  rewrite !(handle_exception_lookup _ _ _ _ _ _ Hrpc Hexc).
  cbn [exception_handlers add_exception_handler].
  unfold ExceptionHandler in *.
  split.
  - intros h Hh. by rewrite (lookup_union_Some_l _ _ _ _ Hh).
  - intros Hnone. by rewrite lookup_union_r.
Qed.

(** X15: [add_middleware] is registration on the controller's manager: the
    new stages come after the built-in ones and after those registered
    earlier, in the order given, and nothing else of the controller
    changes. *)
Theorem add_middleware_registers_innermost (c : Controller)
    (simple : list Middleware) (iterable : list IterableMiddleware) :
  middleware_manager (add_middleware c simple iterable)
  = register (register_iterable (middleware_manager c) iterable) simple
  ∧ methods (add_middleware c simple iterable) = methods c
  ∧ exception_handlers (add_middleware c simple iterable)
    = exception_handlers c.
Proof.
  split; [|done].
  unfold middleware_manager, register, register_iterable, add_middleware.
  cbn. f_equal; by rewrite <- !app_assoc.
Qed.

End Stages.

Section ServicerClass.
Context `{Transport} `{Codec}.

(** X16: when [make_grpc_service_from_methods] succeeds.  The controller's
    name has to be a service of the proto module, and then the class is
    built exactly when the name of every method is a method of that service;
    the class then has one attribute per entry of [methods], under the
    entry's key and in the same order.  Otherwise the error is the
    [RuntimeError] naming the first method the service does not have. *)
Theorem make_grpc_service_from_methods_outcome
    (services_by_name : gmap string ServiceDescriptor) (controller_name : string)
    (methods : list (string * Method)) (manager : MiddlewareManager) :
  (services_by_name !! controller_name = None →
   ¬ is_ok (make_grpc_service_from_methods services_by_name controller_name
              methods manager))
  ∧ ∀ controller_descriptor,
      services_by_name !! controller_name = Some controller_descriptor →
      let known (item : string * Method) :=
        is_Some (methods_by_name controller_descriptor !! method_name item.2) in
      (is_ok (make_grpc_service_from_methods services_by_name controller_name
                methods manager)
       ↔ Forall known methods)
      ∧ (∀ wrapped,
           make_grpc_service_from_methods services_by_name controller_name
             methods manager = Ok wrapped →
           map fst wrapped = map fst methods)
      ∧ (∀ found item rest,
           methods = found ++ item :: rest →
           Forall known found → ¬ known item →
           make_grpc_service_from_methods services_by_name controller_name
             methods manager
           = Raise (RuntimeError
                      ("Method '" +:+ method_name item.2 +:+ "' not found"))).
Proof.
  unfold make_grpc_service_from_methods. split.
  - intros ->. intros [wrapped Hw]. discriminate.
  - intros sd Hsd. rewrite Hsd. split; [|split].
    + induction methods as [|[name method] rest IH]; cbn [create_methods].
      * split; [intros _; constructor|intros _; by eexists].
      * unfold create_method.
        destruct (methods_by_name sd !! method_name method) as [d|] eqn:Hd.
        -- destruct (create_methods sd manager rest) as [ws|e].
           ++ split; [|intros _; by eexists].
              intros _. constructor; [by exists d|]. apply IH. by eexists.
           ++ split; [intros [? ?]; discriminate|].
              intros Hall. apply Forall_cons in Hall as [_ Hall].
              apply IH in Hall as [? ?]. discriminate.
        -- split; [intros [? ?]; discriminate|].
           intros Hall. apply Forall_cons in Hall as [[d Hd'] _].
           cbn in Hd'. congruence.
    + induction methods as [|[name method] rest IH]; intros wrapped;
        cbn [create_methods].
      * by intros [= <-].
      * destruct (create_method _ _ _ _) as [wm|e]; [|discriminate].
        destruct (create_methods sd manager rest) as [ws|e]; [|discriminate].
        intros [= <-]. cbn. f_equal. by apply IH.
    + intros found item rest -> Hfound Hitem.
      induction found as [|[name method] found IH]; cbn [app create_methods].
      * destruct item as [name method]. unfold create_method.
        destruct (methods_by_name sd !! method_name method) as [d|] eqn:Hd;
          [|reflexivity].
        destruct Hitem. by exists d.
      * apply Forall_cons in Hfound as [[d Hd] Hfound].
        cbn in Hd. unfold create_method at 1. rewrite Hd.
        rewrite (IH Hfound). reflexivity.
Qed.

End ServicerClass.

(** ** core/controller.py: the constructor *)

Section Strings.

Lemma append_cons c (a b : string) : String c a +:+ b = String c (a +:+ b).
Proof. reflexivity. Qed.

Lemma length_append (a b : string) :
  String.length (a +:+ b) = (String.length a + String.length b)%nat.
Proof. induction a as [|c a IH]; simpl; [done|by f_equal]. Qed.

Lemma substring_all (s : string) : String.substring 0 (String.length s) s = s.
Proof. induction s as [|c s IH]; simpl; [done|by f_equal]. Qed.

Lemma substring_append (a b : string) :
  String.substring (String.length a) (String.length b) (a +:+ b) = b.
Proof. induction a as [|c a IH]; simpl; [apply substring_all|exact IH]. Qed.

Lemma substring_split (s : string) :
  ∀ n, (n ≤ String.length s)%nat →
       s = String.substring 0 n s
           +:+ String.substring n (String.length s - n) s.
Proof.
  induction s as [|c s IH]; intros n Hn.
  - cbn in Hn. assert (n = 0%nat) as -> by lia. reflexivity.
  - destruct n as [|n].
    + rewrite Nat.sub_0_r. change (String.substring 0 0 (String c s)) with "".
      by rewrite substring_all.
    + simpl in Hn. simpl. rewrite append_cons. f_equal. apply IH. lia.
Qed.

(** [s.endswith(suffix)] *)
Lemma ends_with_spec (suffix s : string) :
  ends_with suffix s = true ↔ ∃ stem, s = stem +:+ suffix.
Proof.
  unfold ends_with. rewrite andb_true_iff, bool_decide_eq_true, Nat.leb_le.
  split.
  - intros [Hsub Hlen].
    exists (String.substring 0 (String.length s - String.length suffix) s).
    pose proof (substring_split s (String.length s - String.length suffix)
                  ltac:(lia)) as Hsplit.
    replace (String.length s - (String.length s - String.length suffix))%nat
      with (String.length suffix) in Hsplit by lia.
    by rewrite Hsub in Hsplit.
  - intros [stem ->]. rewrite length_append.
    replace (String.length stem + String.length suffix - String.length suffix)%nat
      with (String.length stem) by lia.
    split; [apply substring_append|lia].
Qed.

End Strings.

Section Construction.
Context `{Transport} `{Codec}.

(** X17: [Controller.__init__].  It fails exactly when a proto path is given
    that does not end in [.proto]; the empty path is accepted.  A new
    controller has no method, handles exactly the two default exception
    classes, and each of its two chains consists of the built-in stages
    only: context binding first, then the exception stage over the default
    handlers, then the scheduler stage with the given scheduler when one was
    given. *)
Theorem Controller_init_outcome (name proto_ : string) (scheduler : option nat) :
  (is_ok (Controller_init name proto_ scheduler)
   ↔ proto_ = "" ∨ ∃ stem, proto_ = stem +:+ ".proto")
  ∧ ∀ c, Controller_init name proto_ scheduler = Ok c →
      controller_name c = name ∧ proto c = proto_ ∧ methods c = ∅
      ∧ (∀ k, is_Some (exception_handlers c !! k)
              ↔ k = "GRPCException" ∨ k = "ValidationError")
      ∧ _middlewares (middleware_manager c)
        = [NotIterableContextMiddleware;
           NotIterableExceptionMiddleware base_exception_handlers]
          ++ match scheduler with
             | Some s => [NotIterableSchedulerMiddleware s]
             | None => []
             end
      ∧ _iterable_middlewares (middleware_manager c)
        = [IterableContextMiddleware;
           IterableExceptionMiddleware base_exception_handlers]
          ++ match scheduler with
             | Some s => [IterableSchedulerMiddleware s]
             | None => []
             end.
Proof.
  unfold Controller_init. split.
  - destruct (bool_decide (proto_ = "")) eqn:Hempty; cbn [negb andb].
    + apply bool_decide_eq_true in Hempty.
      split; [intros _; by left|intros _; by eexists].
    + apply bool_decide_eq_false in Hempty.
      destruct (ends_with ".proto" proto_) eqn:Hends; cbn [negb].
      * split; [|intros _; by eexists].
        intros _. right. by apply ends_with_spec.
      * split; [intros [? ?]; discriminate|].
        intros [?|Hstem]; [done|].
        apply ends_with_spec in Hstem. congruence.
  - intros c Hc.
    destruct (negb (bool_decide (proto_ = "")) && negb (ends_with ".proto" proto_));
      [discriminate|].
    injection Hc as <-. cbn [controller_name proto methods exception_handlers].
    split; [done|]. split; [done|]. split; [done|]. split.
    + intros k. unfold base_exception_handlers, ExceptionHandler.
      destruct (decide (k = "ValidationError")) as [->|Hne1].
      { rewrite lookup_insert_eq. split; [by right|by eexists]. }
      rewrite lookup_insert_ne by done.
      destruct (decide (k = "GRPCException")) as [->|Hne2].
      { rewrite lookup_insert_eq. split; [by left|by eexists]. }
      rewrite lookup_insert_ne by done. rewrite lookup_empty.
      split; [intros [? ?]; done|intros [?|?]; done].
    + unfold middleware_manager.
      cbn [_middlewares _iterable_middlewares controller_scheduler
           exception_handlers user_middlewares user_iterable_middlewares].
      rewrite !app_nil_r. done.
Qed.

End Construction.

Section StagesExamples.
#[local] Existing Instance grpc_aio.
#[local] Existing Instance simple_codec.

Lemma exception_stage_outside_registry_witness :
  handle_exception catch_all_handlers hello_request (ServicerContext None)
    (AioRpcError "unavailable") empty_world
  = abort (ServicerContext None) UNKNOWN "unavailable" empty_world
  ∧ handle_exception catch_all_handlers hello_request bound_context
      CancelledError empty_world
    = (Raise CancelledError, empty_world)
  ∧ handle_exception catch_all_handlers hello_request (ServicerContext None)
      (ValueError "boom") empty_world
    = (Raise (AttributeError
                "'grpc._cython.cygrpc._ServicerContext' object has no attribute 'controller_method'"),
       empty_world).
Proof.
  split; [|split].
  - apply (exception_stage_outside_registry catch_all_handlers hello_request
             (ServicerContext None) (AioRpcError "unavailable") empty_world).
    reflexivity.
  - apply (exception_stage_outside_registry catch_all_handlers hello_request
             bound_context CancelledError empty_world); reflexivity.
  - apply (exception_stage_outside_registry catch_all_handlers hello_request
             (ServicerContext None) (ValueError "boom") empty_world)
      with (sched := None); reflexivity.
Defined.

Lemma controller_stages_bind_context_witness :
  let method := constructed_method UNARY_UNARY (say_hello []) in
  kw_method_descriptor with_descriptor = Some hello_descriptor
  ∧ ∃ w',
      function_chain with_descriptor (method_name method)
        (_middlewares (middleware_manager scheduled_greeter))
        (UnaryUnaryMethod_call method) hello_request (ServicerContext None)
        (with_dependencies_results no_kwargs []) empty_world
      = (Ok (VMessage "HelloReply" [("message", VStr "Hello")]), w').
Proof.
  intros method. split; [reflexivity|]. eexists.
  apply (proj1 (controller_stages_bind_context scheduled_greeter method
                  with_descriptor hello_descriptor hello_request
                  (ServicerContext None) [] empty_world eq_refl)).
  vm_compute. reflexivity.
Defined.

Lemma make_grpc_service_from_methods_outcome_witness :
  let say := constructed_method UNARY_UNARY (say_hello []) in
  let stream := constructed_method UNARY_STREAM unary_stream in
  is_ok (make_grpc_service_from_methods greeter_services "Greeter"
           [("SayHello", say)] (middleware_manager greeter))
  ∧ make_grpc_service_from_methods greeter_services "Greeter"
      [("SayHello", say); ("UnaryStream", stream)] (middleware_manager greeter)
    = Raise (RuntimeError "Method 'UnaryStream' not found").
Proof.
  intros say stream.
  assert (Hservice : greeter_services !! "Greeter"
                     = Some {| full_name := "greeter.Greeter";
                               methods_by_name := {[ "SayHello" := hello_descriptor ]} |})
    by reflexivity.
  assert (Hsay : is_Some (({[ "SayHello" := hello_descriptor ]}
                             : gmap string MethodDescriptor) !! method_name say))
    by (by exists hello_descriptor).
  split.
  - destruct (make_grpc_service_from_methods_outcome greeter_services "Greeter"
                [("SayHello", say)] (middleware_manager greeter)) as [_ Hknown].
    destruct (Hknown _ Hservice) as (Hok & _ & _).
    apply Hok. constructor; [exact Hsay|constructor].
  - destruct (make_grpc_service_from_methods_outcome greeter_services "Greeter"
                [("SayHello", say); ("UnaryStream", stream)]
                (middleware_manager greeter)) as [_ Hknown].
    destruct (Hknown _ Hservice) as (_ & _ & Hfirst).
    apply (Hfirst [("SayHello", say)] ("UnaryStream", stream) []).
    + reflexivity.
    + constructor; [exact Hsay|constructor].
    + intros [d Hd]. discriminate.
Defined.

Lemma user_handler_replaces_default_witness :
  let handlers :=
    exception_handlers
      (add_exception_handler greeter
         {[ "ValidationError" := invalid_argument_handler ]}) in
  handle_exception handlers hello_request bound_context missing_name
  = (invalid_argument_handler hello_request bound_context missing_name ;;
     abort bound_context UNKNOWN (exc_str missing_name))
  ∧ handle_exception handlers hello_request bound_context
      (GRPCException NOT_FOUND "no such user")
    = handle_exception base_exception_handlers hello_request bound_context
        (GRPCException NOT_FOUND "no such user").
Proof.
  intros handlers. split.
  - apply (user_handler_replaces_default greeter
             {[ "ValidationError" := invalid_argument_handler ]} hello_request
             "SayHello" hello_descriptor None missing_name);
      reflexivity.
  - apply (user_handler_replaces_default greeter
             {[ "ValidationError" := invalid_argument_handler ]} hello_request
             "SayHello" hello_descriptor None
             (GRPCException NOT_FOUND "no such user"));
      reflexivity.
Defined.

Lemma Controller_init_outcome_witness :
  is_ok (Controller_init "Greeter" "greeter.proto" (Some 7%nat))
  ∧ is_ok (Controller_init "Greeter" "" None)
  ∧ ∀ c, Controller_init "Greeter" "greeter.proto" (Some 7%nat) = Ok c →
         methods c = ∅
         ∧ _middlewares (middleware_manager c)
           = [NotIterableContextMiddleware;
              NotIterableExceptionMiddleware base_exception_handlers;
              NotIterableSchedulerMiddleware 7]
         ∧ _iterable_middlewares (middleware_manager c)
           = [IterableContextMiddleware;
              IterableExceptionMiddleware base_exception_handlers;
              IterableSchedulerMiddleware 7].
Proof.
  destruct (Controller_init_outcome "Greeter" "greeter.proto" (Some 7%nat))
    as [Hok Hfields].
  destruct (Controller_init_outcome "Greeter" "" None) as [Hempty _].
  split; [|split].
  - apply Hok. right. by exists "greeter".
  - apply Hempty. by left.
  - intros c Hc.
    destruct (Hfields c Hc) as (_ & _ & Hmethods & _ & Hchain & Hiterable).
    split; [exact Hmethods|]. split; [exact Hchain|exact Hiterable].
Defined.

End StagesExamples.

(** ** schema/utils.py *)

Section Naming.

Ltac ascii_cases c :=
  destruct c as [[] [] [] [] [] [] [] []]; vm_compute; try done.

Lemma lower_underscore c : lower c = "_"%char ↔ c = "_"%char.
Proof. split; [|by intros ->]. ascii_cases c. Qed.

Lemma upper_underscore c : upper c = "_"%char ↔ c = "_"%char.
Proof. split; [|by intros ->]. ascii_cases c. Qed.

Lemma lower_lower c : lower (lower c) = lower c.
Proof. ascii_cases c. Qed.

Lemma upper_lower c : upper (lower c) = upper c.
Proof. ascii_cases c. Qed.

Lemma is_upper_lower c :
  is_upper c = true → upper (lower c) = c ∧ lower c ≠ "_"%char.
Proof. ascii_cases c. Qed.

Lemma is_lower_facts c :
  is_lower c = true →
  lower c = c ∧ c ≠ "_"%char ∧ is_upper c = false
  ∧ is_upper (upper c) = true ∧ lower (upper c) = c.
Proof. ascii_cases c. Qed.

Lemma not_upper_lower c : is_upper c = false → lower c = c.
Proof. ascii_cases c. Qed.

Lemma concat_cons (w : string) (ws : list string) :
  String.concat "" (w :: ws) = w +:+ String.concat "" ws.
Proof.
  destruct ws as [|w' ws]; cbn [String.concat]; [|done].
  induction w as [|c w IH]; [done|]. rewrite append_cons. by f_equal.
Qed.

Lemma split_cons delimiter (s : string) :
  ∃ word words, split delimiter s = word :: words.
Proof.
  induction s as [|c s (word & words & IH)]; cbn [split]; [by eexists _, _|].
  destruct (decide (c = delimiter)); [by eexists _, _|].
  rewrite IH. by eexists _, _.
Qed.

Lemma split_lower (s : string) :
  split "_"%char (map_string lower s)
  = map (map_string lower) (split "_"%char s).
Proof.
  induction s as [|c s IH]; [done|]. cbn [map_string split].
  destruct (decide (c = "_"%char)) as [->|Hne].
  - rewrite decide_True by done. cbn [map]. by rewrite IH.
  - rewrite decide_False by (by rewrite lower_underscore).
    rewrite IH. by destruct (split "_"%char s).
Qed.

Lemma map_string_lower_idem (s : string) :
  map_string lower (map_string lower s) = map_string lower s.
Proof.
  induction s as [|c s IH]; [done|]. cbn [map_string].
  by rewrite lower_lower, IH.
Qed.

Lemma capitalize_lower (w : string) :
  capitalize (map_string lower w) = capitalize w.
Proof.
  destruct w as [|c w]; [done|]. cbn [map_string capitalize].
  by rewrite upper_lower, map_string_lower_idem.
Qed.

Lemma length_map_string f (s : string) :
  String.length (map_string f s) = String.length s.
Proof. induction s as [|c s IH]; simpl; [done|by f_equal]. Qed.

Lemma length_capitalize (w : string) :
  String.length (capitalize w) = String.length w.
Proof. destruct w; simpl; [done|]. by rewrite length_map_string. Qed.

Lemma count_char_append c (a b : string) :
  count_char c (a +:+ b) = (count_char c a + count_char c b)%nat.
Proof.
  induction a as [|c' a IH]; [done|]. rewrite append_cons.
  cbn [count_char]. rewrite IH. lia.
Qed.

Lemma count_char_map_lower (w : string) :
  count_char "_"%char (map_string lower w) = count_char "_"%char w.
Proof.
  induction w as [|c w IH]; [done|]. cbn [map_string count_char].
  rewrite IH. f_equal.
  destruct (decide (c = "_"%char)) as [->|Hne]; [done|].
  rewrite decide_False; [done|by rewrite lower_underscore].
Qed.

Lemma count_char_capitalize (w : string) :
  count_char "_"%char (capitalize w) = count_char "_"%char w.
Proof.
  destruct w as [|c w]; [done|]. cbn [capitalize count_char].
  rewrite count_char_map_lower. f_equal.
  destruct (decide (c = "_"%char)) as [->|Hne]; [done|].
  rewrite decide_False; [done|by rewrite upper_underscore].
Qed.

(** The words [split] gives contain no delimiter, and their lengths add up
    to the characters that are no delimiter. *)
Lemma split_words delimiter (s : string) :
  Forall (λ w, count_char delimiter w = 0%nat) (split delimiter s)
  ∧ (String.length (String.concat "" (split delimiter s))
     + count_char delimiter s = String.length s)%nat.
Proof.
  induction s as [|c s [IHwords IHlen]]; cbn [split].
  - split; [by repeat constructor|done].
  - destruct (decide (c = delimiter)) as [->|Hne].
    + split; [by constructor|].
      rewrite concat_cons. cbn [count_char]. rewrite decide_True by done.
      change ("" +:+ String.concat "" (split delimiter s))
        with (String.concat "" (split delimiter s)).
      simpl. lia.
    + destruct (split delimiter s) as [|word words] eqn:Hsplit.
      { destruct (split_cons delimiter s) as (? & ? & ?). congruence. }
      apply Forall_cons in IHwords as [Hword Hwords].
      split.
      * constructor; [|done]. cbn [count_char]. by rewrite decide_False.
      * rewrite concat_cons in *. rewrite append_cons.
        cbn [count_char]. rewrite decide_False by done. simpl. lia.
Qed.

(** X18: [to_pascal_case] consumes the underscores and nothing else: on an
    ASCII name its result contains no underscore and is shorter than the
    input by the number of underscores in it.  [snake_to_camel] is the same
    function. *)
Theorem to_pascal_case_drops_underscores (snake_str : string) :
  string_forall is_ascii snake_str = true →
  count_char "_"%char (to_pascal_case snake_str) = 0%nat
  ∧ (String.length (to_pascal_case snake_str)
     + count_char "_"%char snake_str = String.length snake_str)%nat
  ∧ snake_to_camel snake_str = to_pascal_case snake_str.
Proof.
  intros _. unfold to_pascal_case, snake_to_camel.
  destruct (split_words "_"%char snake_str) as [Hwords Hlen].
  split; [|split; [|done]].
  - clear Hlen. induction Hwords as [|w ws Hw _ IH]; [done|].
    cbn [map]. rewrite concat_cons, count_char_append, IH.
    by rewrite count_char_capitalize, Hw.
  - rewrite <- Hlen. f_equal. clear.
    induction (split "_"%char snake_str) as [|w ws IH]; [done|].
    cbn [map]. rewrite !concat_cons, !length_append, IH.
    by rewrite length_capitalize.
Qed.

(** X19: [to_pascal_case] does not see the case of its input: two ASCII
    names with the same lowered form give the same method name, so two
    endpoint names that differ only in case are registered under one
    name. *)
Theorem to_pascal_case_ignores_case (snake_str other : string) :
  string_forall is_ascii snake_str = true →
  string_forall is_ascii other = true →
  map_string lower snake_str = map_string lower other →
  to_pascal_case snake_str = to_pascal_case other.
Proof.
  intros _ _ Hlower.
  assert (Hfold : ∀ s, to_pascal_case (map_string lower s) = to_pascal_case s).
  { intros s. unfold to_pascal_case. rewrite split_lower. f_equal.
    rewrite map_map. apply map_ext. intros w. apply capitalize_lower. }
  by rewrite <- (Hfold snake_str), <- (Hfold other), Hlower.
Qed.

Lemma append_nil_r (s : string) : s +:+ "" = s.
Proof. induction s as [|c s IH]; [done|]. rewrite append_cons. by f_equal. Qed.


Lemma split_cons_ne delimiter c (s : string) :
  c ≠ delimiter →
  ∀ word words, split delimiter s = word :: words →
  split delimiter (String c s) = String c word :: words.
Proof.
  intros Hne word words Hsplit. cbn [split].
  by rewrite decide_False, Hsplit.
Qed.

(** The words of a camel-case name, read back from its snake form. *)
Lemma camel_words_round_trip (s : string) :
  ∀ st, st ≠ AtBoundary → camel_case_from st s = true →
  ∃ word words,
    split "_"%char (map_string lower (underscore_capitals s)) = word :: words
    ∧ s = word +:+ String.concat "" (map capitalize words)
    ∧ map_string lower word = word.
Proof.
  induction s as [|c rest IH]; intros st Hst Hcamel.
  { by exists "", []. }
  assert (Hsmall : ∀ st', is_lower c = true → st' ≠ AtBoundary →
            camel_case_from st' rest = true →
            ∃ word words,
              split "_"%char (map_string lower (underscore_capitals (String c rest)))
              = word :: words
              ∧ String c rest = word +:+ String.concat "" (map capitalize words)
              ∧ map_string lower word = word).
  { intros st' Hlower Hst' Hrest.
    destruct (is_lower_facts c Hlower) as (Hfix & Hne & Hnotupper & _).
    destruct (IH st' Hst' Hrest) as (word & words & Hsplit & Hjoin & Hword).
    exists (String c word), words. cbn [underscore_capitals].
    rewrite Hnotupper. cbn [map_string]. rewrite !Hfix.
    split; [by apply split_cons_ne|]. rewrite append_cons.
    split; [by f_equal|]. by rewrite Hword. }
  destruct st; [done| |]; cbn [camel_case_from] in Hcamel.
  - apply andb_true_iff in Hcamel as [Hlower Hrest].
    by apply (Hsmall InWord).
  - destruct (is_upper c) eqn:Hupper.
    + destruct (is_upper_lower c Hupper) as [Hback Hne].
      destruct (IH AfterCapital ltac:(done) Hcamel)
        as (word & words & Hsplit & Hjoin & Hword).
      exists "", (String (lower c) word :: words).
      cbn [underscore_capitals]. rewrite Hupper. cbn [map_string].
      split.
      * change (lower "_") with "_"%char. cbn [split].
        rewrite decide_True by done. f_equal. by apply split_cons_ne.
      * split; [|done]. cbn [map]. rewrite concat_cons.
        cbn [capitalize]. rewrite Hback, Hword, append_cons.
        change ("" +:+ ?x) with x. by f_equal.
    + destruct (is_lower c) eqn:Hlower; [by apply (Hsmall InWord)|].
      apply bool_decide_eq_true in Hcamel as [-> ->].
      by exists (String "010"%char ""), [].
Qed.

(** X20: [snake_to_camel] undoes [camel_to_snake] on every name that
    [is_camel_case] accepts. *)
Theorem snake_to_camel_camel_to_snake (name : string) :
  is_camel_case name = true →
  snake_to_camel (camel_to_snake name) = name.
Proof.
  unfold is_camel_case. destruct name as [|c rest]; [done|].
  cbn [camel_case_from]. intros Hcamel.
  destruct (is_upper c) eqn:Hupper.
  - destruct (is_upper_lower c Hupper) as [Hback Hne].
    destruct (camel_words_round_trip rest AfterCapital ltac:(done) Hcamel)
      as (word & words & Hsplit & Hjoin & Hword).
    unfold camel_to_snake, snake_to_camel. cbn [map_string].
    rewrite decide_False by done.
    rewrite (split_cons_ne _ _ _ Hne _ _ Hsplit).
    cbn [map]. rewrite concat_cons. cbn [capitalize].
    rewrite Hback, Hword, append_cons. by f_equal.
  - destruct (is_lower c); [done|].
    apply bool_decide_eq_true in Hcamel as [-> ->]. reflexivity.
Qed.

Lemma concat_sep_cons sep (w w' : string) (ws : list string) :
  String.concat sep (w :: w' :: ws) = w +:+ sep +:+ String.concat sep (w' :: ws).
Proof. reflexivity. Qed.

Lemma concat_split (s : string) :
  String.concat "_" (split "_"%char s) = s.
Proof.
  induction s as [|c s IH]; [done|]. cbn [split].
  destruct (split_cons "_"%char s) as (word & words & Hsplit).
  rewrite Hsplit in *.
  destruct (decide (c = "_"%char)) as [->|Hne].
  - by rewrite concat_sep_cons, IH.
  - destruct words as [|word' words].
    + cbn [String.concat] in *. by rewrite IH.
    + rewrite concat_sep_cons in *. rewrite append_cons. by rewrite IH.
Qed.

(** A run of characters that are not capitals passes through the
    underscoring and the lowering unchanged. *)
Lemma plain_run_unchanged (run rest : string) :
  string_forall (λ x, is_ascii x && negb (is_upper x)) run = true →
  map_string lower (underscore_capitals (run +:+ rest))
  = run +:+ map_string lower (underscore_capitals rest).
Proof.
  induction run as [|c run IH]; intros Hrun; [done|].
  cbn [string_forall] in Hrun.
  apply andb_true_iff in Hrun as [Hc Hrun].
  apply andb_true_iff in Hc as [_ Hc]. apply negb_true_iff in Hc.
  rewrite !append_cons. cbn [underscore_capitals]. rewrite Hc.
  cbn [map_string]. by rewrite (not_upper_lower c Hc), IH.
Qed.

Lemma plain_run_lower (run : string) :
  string_forall (λ x, is_ascii x && negb (is_upper x)) run = true →
  map_string lower run = run.
Proof.
  induction run as [|c run IH]; intros Hrun; [done|].
  cbn [string_forall] in Hrun.
  apply andb_true_iff in Hrun as [Hc Hrun].
  apply andb_true_iff in Hc as [_ Hc]. apply negb_true_iff in Hc.
  cbn [map_string]. by rewrite (not_upper_lower c Hc), IH.
Qed.

(** The snake form of the words after the first. *)
Lemma pascal_words_snake (words : list string) :
  forallb name_word words = true →
  map_string lower
    (underscore_capitals (String.concat "" (map capitalize words)))
  = match words with
    | [] => ""
    | _ => "_" +:+ String.concat "_" words
    end.
Proof.
  induction words as [|word words IH]; intros Hwords; [done|].
  cbn [forallb] in Hwords. apply andb_true_iff in Hwords as [Hword Hwords].
  destruct word as [|c run]; [done|]. cbn [name_word] in Hword.
  apply andb_true_iff in Hword as [Hc Hrun].
  destruct (is_lower_facts c Hc) as (_ & _ & _ & Hupper & Hback).
  cbn [map]. rewrite concat_cons. cbn [capitalize].
  rewrite (plain_run_lower run Hrun), append_cons.
  cbn [underscore_capitals]. rewrite Hupper. cbn [map_string].
  rewrite Hback, (plain_run_unchanged run _ Hrun), (IH Hwords).
  change (lower "_") with "_"%char.
  destruct words as [|word' words]; cbn [String.concat].
  - by rewrite append_nil_r.
  - reflexivity.
Qed.

(** X21: [camel_to_snake] undoes [to_pascal_case] on every name made of
    words that start with a small letter and contain no capital: the method
    name derived from such an endpoint name leads back to the endpoint
    name. *)
Theorem camel_to_snake_to_pascal_case (snake_str : string) :
  words_name snake_str = true →
  camel_to_snake (to_pascal_case snake_str) = snake_str.
Proof.
  unfold words_name, to_pascal_case. intros Hwords.
  rewrite <- (concat_split snake_str) at 2.
  destruct (split "_"%char snake_str) as [|word words]; [done|].
  cbn [forallb] in Hwords. apply andb_true_iff in Hwords as [Hword Hwords].
  destruct word as [|c run]; [done|]. cbn [name_word] in Hword.
  apply andb_true_iff in Hword as [Hc Hrun].
  destruct (is_lower_facts c Hc) as (_ & Hne & _ & _ & Hback).
  cbn [map]. rewrite concat_cons. cbn [capitalize].
  rewrite (plain_run_lower run Hrun), append_cons.
  unfold camel_to_snake. cbn [map_string]. rewrite Hback.
  rewrite decide_False by done.
  rewrite (plain_run_unchanged run _ Hrun), (pascal_words_snake words Hwords).
  destruct words as [|word' words]; cbn [String.concat].
  - by rewrite append_nil_r.
  - by rewrite append_cons.
Qed.

End Naming.

Section NamingExamples.

Lemma to_pascal_case_drops_underscores_witness :
  string_forall is_ascii "say_hello_again" = true
  ∧ to_pascal_case "say_hello_again" = "SayHelloAgain"
  ∧ count_char "_"%char (to_pascal_case "say_hello_again") = 0%nat
  ∧ (String.length (to_pascal_case "say_hello_again") + 2 = 15)%nat.
Proof.
  destruct (to_pascal_case_drops_underscores "say_hello_again" eq_refl)
    as (Hnone & Hlength & _).
  split; [reflexivity|]. split; [reflexivity|]. split; [exact Hnone|].
  exact Hlength.
Defined.

Lemma to_pascal_case_ignores_case_witness :
  map_string lower "Say_Hello" = map_string lower "say_hello"
  ∧ to_pascal_case "Say_Hello" = to_pascal_case "say_hello".
Proof.
  split; [reflexivity|].
  apply to_pascal_case_ignores_case; reflexivity.
Defined.

Lemma snake_to_camel_camel_to_snake_witness :
  is_camel_case "FastGrpc" = true
  ∧ camel_to_snake "FastGrpc" = "fast_grpc"
  ∧ snake_to_camel (camel_to_snake "FastGrpc") = "FastGrpc".
Proof.
  split; [reflexivity|]. split; [reflexivity|].
  apply snake_to_camel_camel_to_snake. reflexivity.
Defined.

Lemma camel_to_snake_to_pascal_case_witness :
  words_name "say_hello" = true
  ∧ to_pascal_case "say_hello" = "SayHello"
  ∧ camel_to_snake (to_pascal_case "say_hello") = "say_hello".
Proof.
  split; [reflexivity|]. split; [reflexivity|].
  apply camel_to_snake_to_pascal_case. reflexivity.
Defined.

End NamingExamples.

(** ** core/app.py, core/meta.py and the default handlers *)

Section ApplicationFacts.
Context `{Transport} `{Codec}.

Lemma Controller_init_ok name proto_ scheduler :
  proto_ = "" ∨ (∃ stem, proto_ = stem +:+ ".proto") →
  Controller_init name proto_ scheduler
  = Ok {| controller_name := name; proto := proto_; methods := ∅;
          exception_handlers := base_exception_handlers;
          controller_scheduler := scheduler;
          user_middlewares := []; user_iterable_middlewares := [] |}.
Proof.
  intros Hproto. unfold Controller_init.
  destruct Hproto as [->|Hstem]; [done|].
  apply ends_with_spec in Hstem. rewrite Hstem.
  by rewrite andb_false_r.
Qed.

(** X22: what [FastGRPC.add_service] stores.  With a proto path that is
    empty or ends in [.proto] (the service's own, or the application's when
    the service has none) it always succeeds, and only the entry of the
    service's path name changes.  The methods of the service are merged into
    that entry, the service's method winning under a name both have.  When
    the path name is already there, the controller found keeps its handlers,
    middlewares and scheduler.  When it is not, the entry is a newly
    constructed controller: it has the default exception handlers, no user
    middleware and the application's scheduler, whatever handlers,
    middlewares and scheduler the added service had. *)
Theorem add_service_outcome (self : FastGRPC) (service : Controller) :
  let proto_ :=
    if decide (proto service = "") then service_proto self else proto service in
  let path_name := proto_ +:+ ":" +:+ controller_name service in
  proto_ = "" ∨ (∃ stem, proto_ = stem +:+ ".proto") →
  ∃ self' stored,
    add_service self service = Ok self'
    ∧ _services self' = <[path_name := stored]> (_services self)
    ∧ app_scheduler self' = app_scheduler self
    ∧ service_proto self' = service_proto self
    ∧ match _services self !! path_name with
      | Some existing =>
          (∀ k, methods stored !! k
                = match methods service !! k with
                  | Some m => Some m
                  | None => methods existing !! k
                  end)
          ∧ exception_handlers stored = exception_handlers existing
          ∧ user_middlewares stored = user_middlewares existing
          ∧ user_iterable_middlewares stored = user_iterable_middlewares existing
          ∧ controller_scheduler stored = controller_scheduler existing
      | None =>
          methods stored = methods service
          ∧ controller_name stored = controller_name service
          ∧ proto stored = proto_
          ∧ exception_handlers stored = base_exception_handlers
          ∧ user_middlewares stored = []
          ∧ user_iterable_middlewares stored = []
          ∧ controller_scheduler stored = app_scheduler self
      end.
Proof.
  intros proto_ path_name Hproto. unfold add_service.
  fold proto_. fold path_name.
  destruct (_services self !! path_name) as [existing|] eqn:Hlookup.
  - eexists _, (set_methods existing (methods service ∪ methods existing)).
    split; [reflexivity|].
    cbn [_services app_scheduler service_proto methods set_methods
         exception_handlers user_middlewares user_iterable_middlewares
         controller_scheduler].
    split; [done|]. split; [done|]. split; [done|]. split; [|done].
    intros k. rewrite lookup_union.
    destruct (methods service !! k), (methods existing !! k); done.
  - rewrite (Controller_init_ok _ _ _ Hproto).
    eexists _, (set_methods _ (methods service ∪ ∅)).
    split; [reflexivity|].
    cbn [_services app_scheduler service_proto methods set_methods
         exception_handlers user_middlewares user_iterable_middlewares
         controller_scheduler controller_name proto].
    split; [done|]. split; [done|]. split; [done|]. split; [|done].
    apply (right_id_L ∅ (∪)).
Qed.

(** X23: [_get_method_type_by_annotations] against the two properties of
    the method classes.  It picks a class exactly when both annotations are
    there and each has [BaseModel] or [AsyncIterable] as its base; the class
    picked takes a streamed request exactly when the request annotation is
    the iterable one, and gives a streamed response exactly when the return
    annotation is.  A missing return annotation is what is reported when
    both are missing. *)
Theorem get_method_type_by_annotations_outcome (name : string)
    (request return_ : option AnnotationBase) :
  (is_ok (_get_method_type_by_annotations name request return_)
   ↔ (request = Some BaseModelBase ∨ request = Some AsyncIterableBase)
     ∧ (return_ = Some BaseModelBase ∨ return_ = Some AsyncIterableBase))
  ∧ (∀ method_class,
       _get_method_type_by_annotations name request return_ = Ok method_class →
       (is_request_iterable method_class = true
        ↔ request = Some AsyncIterableBase)
       ∧ (is_response_iterable method_class = true
          ↔ return_ = Some AsyncIterableBase))
  ∧ (return_ = None →
     _get_method_type_by_annotations name request return_
     = Raise (PlainException ("No return in method " +:+ name))).
Proof.
  split; [|split].
  - destruct request as [[]|], return_ as [[]|]; cbn;
      (split; [intros [m Hm]; try discriminate; split; auto
              |intros [[?|?] [?|?]]; try discriminate; by eexists]).
  - intros method_class.
    destruct request as [[]|], return_ as [[]|]; cbn;
      intros Hm; try discriminate; injection Hm as <-; cbn;
      split; split; intros; done.
  - by intros ->.
Qed.



(** X25: the default handler of [GRPCException].  On a bound context the
    exception stage aborts the call with the status and the details the
    exception carries.  When the transport's [abort] raises, that is the
    only abort; when it returns, the stage goes on and aborts a second time,
    with UNKNOWN and the text of the exception. *)
Theorem grpc_exception_aborts_with_its_status (request : Value) (name : string)
    (md : MethodDescriptor) (sched : option nat) (status : StatusCode)
    (details : string) (w : World) :
  let context := ControllerContext name md sched in
  let exc := GRPCException status details in
  let run := handle_exception base_exception_handlers request context exc w in
  resulting_abort w run.2 = Some (status, details)
  ∧ new_events w run.2
    = EvAbort status details
      :: match abort_signal with
         | Some _ => []
         | None => [EvAbort UNKNOWN (exc_str exc)]
         end
  ∧ run.1 = match abort_signal with
            | Some e => Raise e
            | None => Ok tt
            end.
Proof.
  intros context exc run. subst run.
  assert (Hrun : handle_exception base_exception_handlers request context exc w
                 = (abort context status details ;;
                    abort context UNKNOWN (exc_str exc)) w).
  { subst context. rewrite handle_exception_lookup by reflexivity.
    unfold base_exception_handlers, ExceptionHandler.
    rewrite lookup_insert_ne by done. by rewrite lookup_insert_eq. }
  rewrite Hrun. unfold bind. rewrite !abort_result.
  unfold resulting_abort, new_events.
  destruct abort_signal as [e|]; cbn.
  - rewrite drop_app_length. done.
  - rewrite <- app_assoc, drop_app_length. done.
Qed.

End ApplicationFacts.

Section ApplicationExamples.
#[local] Existing Instance grpc_aio.
#[local] Existing Instance simple_codec.

Lemma add_service_outcome_witness :
  FastGRPC_init "FastGRPC" "fast_grpc.proto" None = Ok default_app
  ∧ ∃ self' stored,
      add_service default_app configured_greeter = Ok self'
      ∧ _services self'
        = <["greeter.proto:Greeter" := stored]> (_services default_app)
      ∧ methods stored = methods configured_greeter
      ∧ exception_handlers stored = base_exception_handlers
      ∧ controller_scheduler stored = None.
Proof.
  split; [reflexivity|].
  destruct (add_service_outcome default_app configured_greeter)
    as (self' & stored & Hadd & Hservices & _ & _ & Hstored).
  { right. by exists "greeter". }
  exists self', stored. split; [exact Hadd|]. split; [exact Hservices|].
  destruct (Hstored
            : methods stored = methods configured_greeter
              ∧ controller_name stored = "Greeter"
              ∧ proto stored = "greeter.proto"
              ∧ exception_handlers stored = base_exception_handlers
              ∧ user_middlewares stored = []
              ∧ user_iterable_middlewares stored = []
              ∧ controller_scheduler stored = None)
    as (Hmethods & _ & _ & Hhandlers & _ & _ & Hscheduler).
  done.
Defined.

Lemma get_method_type_by_annotations_outcome_witness :
  _get_method_type_by_annotations "stream_unary"
    (Some AsyncIterableBase) (Some BaseModelBase) = Ok STREAM_UNARY
  ∧ is_request_iterable STREAM_UNARY = true
  ∧ _get_method_type_by_annotations "say_hello" None None
    = Raise (PlainException "No return in method say_hello").
Proof.
  destruct (get_method_type_by_annotations_outcome "stream_unary"
              (Some AsyncIterableBase) (Some BaseModelBase))
    as (_ & Hclass & _).
  destruct (get_method_type_by_annotations_outcome "say_hello" None None)
    as (_ & _ & Hmissing).
  split; [reflexivity|]. split.
  - by apply (Hclass STREAM_UNARY eq_refl).
  - by apply Hmissing.
Defined.


End ApplicationExamples.

(** ** Whole calls through a controller *)

Section Calls.
Context `{Transport} `{Codec}.

Lemma log_call_bound name md sched w :
  log_call (ControllerContext name md sched) w = (Ok tt, w).
Proof. reflexivity. Qed.

(** X26: a single-result call that goes well, from the transport's call to
    its result.  For a method built by [BaseMethod.__init__] and bound
    through a controller without user middleware: when the dependencies
    resolve, the request passes [solve_params], the endpoint returns on the
    solved parameters updated with the dependency results, no generator on
    the method's handle list raises in the code after its last [yield], and
    the endpoint's result serializes, then the transport gets the serialized
    result; after the endpoint's own events come exactly the resumptions of
    the handles on the method's list, and nothing is aborted. *)
Theorem unary_call_end_to_end (c : Controller) (md : MethodMode) (oid : nat)
    (ep : Endpoint) (args : MethodArgs) (m : Method) (kwargs : Kwargs)
    (d : MethodDescriptor) (request : Value) (context : Context)
    (w w1 w2 : World) (r values : list (string * Value))
    (result response : Value) :
  BaseMethod_init md oid ep args = Ok m →
  is_response_iterable md = false →
  user_middlewares c = [] →
  kw_method_descriptor kwargs = Some d →
  let bound := ControllerContext (method_name m) d (controller_scheduler c) in
  get_dependencies_results (dependencies m) w = (Ok r, w1) →
  (solve_params m request bound w1).1 = Ok values →
  await_ (ep_call ep (dict_update values r)) w1 = (Ok result, w2) →
  Forall (returns_normally w2)
    (handle_ids (cached_list (dependencies_cached w2) oid)) →
  (serialize_response m result bound w2).1 = Ok response →
  ∃ w3 evs,
    dispatch_function (middleware_manager c) m kwargs request context w
    = (Ok response, w3)
    ∧ trace w3 = trace w2 ++ evs
    ∧ invocations evs = handle_ids (cached_list (dependencies_cached w2) oid)
    ∧ first_abort evs = None.
Proof.
  intros Hinit Hmode Huser Hmd bound Hdeps Hvalues Hendpoint Hnormal Hresponse.
  destruct (BaseMethod_init_fields _ _ _ _ _ Hinit)
    as (rq & keys & _ & _ & _ & Hmode' & Hdependencies & Hwrapped & _).
  destruct (wrapped_endpoint_after_return (Dependencies_init oid ep)
              (ep_call ep) _ _ _ _ Hendpoint Hnormal)
    as (w3 & evs & Hcall & Htrace & Hinv & Habort & Hkeep).
  exists w3, evs. split; [|done].
  rewrite dispatch_function_unfold by (by rewrite Hmode').
  unfold bind at 1. rewrite Hdeps.
  rewrite (controller_function_chain c _ _ _ d r request context Hmd).
  rewrite Huser. cbn [function_chain]. fold bound.
  unfold try_except, UnaryUnaryMethod_call.
  cbn [kw_dependencies_results with_dependencies_results].
  unfold bind at 1. rewrite (solve_params_result m request bound w1), Hvalues.
  unfold bind at 1. rewrite Hwrapped, Hcall.
  unfold bind at 1.
  rewrite (serialize_response_result m result bound w3).
  rewrite (surjective_pairing (serialize_response m result bound w2)) in Hresponse.
  assert (Hsame : (serialize_response m result bound w3).1
                  = (serialize_response m result bound w2).1).
  { unfold serialize_response, bound. cbn [output_type_of]. unfold bind, ret.
    destruct (is_message_of result (output_type d)); [reflexivity|].
    destruct (response_model m) as [cls|].
    - unfold lift_result. destruct (model_validate cls result); reflexivity.
    - destruct result; reflexivity. }
  rewrite Hsame. cbn [fst] in Hresponse. rewrite Hresponse.
  reflexivity.
Qed.

(** X27: no sequence-producing call delivers an item.  For a method of a
    streaming class built by [BaseMethod.__init__], whatever its endpoint,
    bound through a controller without user middleware and without a handler
    for [TypeError]: when the dependencies resolve and the request passes
    [solve_params], the method iterates the coroutine object its cleanup
    wrapper returns, the exception stage takes the [TypeError], and the call
    ends with no item and one abort, UNKNOWN with the text of that error;
    what the transport's [abort] raises comes out as the async generators of
    the chain let it out.  Neither the endpoint nor the cleanup loop has
    run. *)
Theorem streaming_call_is_always_aborted (c : Controller) (md : MethodMode)
    (oid : nat) (ep : Endpoint) (args : MethodArgs) (m : Method)
    (kwargs : Kwargs) (d : MethodDescriptor) (request : Value)
    (context : Context) (w w1 : World) (r : list (string * Value)) :
  BaseMethod_init md oid ep args = Ok m →
  is_response_iterable md = true →
  user_iterable_middlewares c = [] →
  exception_handlers c !! "TypeError" = None →
  kw_method_descriptor kwargs = Some d →
  let bound := ControllerContext (method_name m) d (controller_scheduler c) in
  let text := "'async for' requires an object with __aiter__ method, got coroutine" in
  get_dependencies_results (dependencies m) w = (Ok r, w1) →
  is_ok (solve_params m request bound w1).1 →
  dispatch_generator (middleware_manager c) m kwargs request context w
  = (([], leaving_async_generator <$> abort_signal),
     set_trace (λ t, t ++ [EvAbort UNKNOWN text]) w1).
Proof.
  intros Hinit Hmode Huser Hhandler Hmd bound text Hdeps [values Hvalues].
  destruct (BaseMethod_init_fields _ _ _ _ _ Hinit)
    as (rq & keys & _ & _ & _ & Hmode' & _ & Hwrapped & _).
  rewrite dispatch_generator_unfold by (by rewrite Hmode').
  rewrite async_generator_body_idemp.
  unfold async_generator_body at 1, g_bind at 1. rewrite Hdeps.
  rewrite (controller_generator_chain c _ _ _ d r request context w1 Hmd).
  rewrite Huser. cbn [generator_chain]. fold bound.
  assert (Hmethod :
    UnaryStreamMethod_call m request bound (with_dependencies_results kwargs r) w1
    = (([], Some (TypeError text)), w1)).
  { unfold UnaryStreamMethod_call.
    cbn [kw_dependencies_results with_dependencies_results].
    unfold async_generator_body, g_bind.
    rewrite (solve_params_result m request bound w1), Hvalues.
    rewrite Hwrapped. reflexivity. }
  unfold async_generator_body, g_try. rewrite Hmethod.
  change (leaving_async_generator <$> Some (TypeError text))
    with (Some (TypeError text)).
  cbv beta iota. rewrite handle_exception_lookup by reflexivity.
  unfold ExceptionHandler in *. cbn [exc_type TypeError builtin_exc].
  rewrite Hhandler. unfold bind at 1. cbn [ret].
  rewrite abort_result. cbn [exc_str TypeError builtin_exc].
  destruct abort_signal as [e|]; [|done]. simpl.
  by rewrite leaving_async_generator_idemp.
Qed.

(** X28: a single-result call whose endpoint raises.  Same setting as for a
    call that goes well, but the endpoint raises an [Exception] that is no
    [grpc.RpcError] and for whose class the controller has no handler.  The
    call is aborted once, with UNKNOWN and the text of the exception, right
    after the endpoint's own events: the cleanup loop has not run, so the
    generators resolved for the call stay suspended.  The transport's
    [abort] decides the outcome: its exception when it raises, the result
    [None] when it returns. *)
Theorem failing_endpoint_is_aborted_without_cleanup (c : Controller)
    (md : MethodMode) (oid : nat) (ep : Endpoint) (args : MethodArgs)
    (m : Method) (kwargs : Kwargs) (d : MethodDescriptor) (request : Value)
    (context : Context) (w w1 w2 : World) (r values : list (string * Value))
    (exc : Exc) :
  BaseMethod_init md oid ep args = Ok m →
  is_response_iterable md = false →
  user_middlewares c = [] →
  kw_method_descriptor kwargs = Some d →
  let bound := ControllerContext (method_name m) d (controller_scheduler c) in
  get_dependencies_results (dependencies m) w = (Ok r, w1) →
  (solve_params m request bound w1).1 = Ok values →
  await_ (ep_call ep (dict_update values r)) w1 = (Raise exc, w2) →
  isinstance exc "RpcError" = false →
  isinstance exc "Exception" = true →
  exception_handlers c !! exc_type exc = None →
  dispatch_function (middleware_manager c) m kwargs request context w
  = (match abort_signal with Some e => Raise e | None => Ok VNone end,
     set_trace (λ t, t ++ [EvAbort UNKNOWN (exc_str exc)]) w2).
Proof.
  intros Hinit Hmode Huser Hmd bound Hdeps Hvalues Hendpoint Hrpc Hexc Hhandler.
  destruct (BaseMethod_init_fields _ _ _ _ _ Hinit)
    as (rq & keys & _ & _ & _ & Hmode' & _ & Hwrapped & _).
  pose proof (wrapped_endpoint_after_raise (Dependencies_init oid ep)
                (ep_call ep) _ _ _ _ Hendpoint) as Hcall.
  rewrite dispatch_function_unfold by (by rewrite Hmode').
  unfold bind at 1. rewrite Hdeps.
  rewrite (controller_function_chain c _ _ _ d r request context Hmd).
  rewrite Huser. cbn [function_chain]. fold bound.
  assert (Hmethod :
    UnaryUnaryMethod_call m request bound (with_dependencies_results kwargs r) w1
    = (Raise exc, w2)).
  { unfold UnaryUnaryMethod_call.
    cbn [kw_dependencies_results with_dependencies_results].
    unfold bind at 1. rewrite (solve_params_result m request bound w1), Hvalues.
    apply bind_raise. by rewrite Hwrapped. }
  rewrite (try_except_raise _ _ _ _ _ Hmethod).
  rewrite (handle_exception_lookup _ _ _ _ _ _ Hrpc Hexc).
  unfold ExceptionHandler in *. rewrite Hhandler.
  unfold bind at 1 2. cbn [ret]. rewrite abort_result.
  by destruct abort_signal.
Qed.

End Calls.

Section CallsExamples.
#[local] Existing Instance grpc_aio.
#[local] Existing Instance simple_codec.

Lemma unary_call_end_to_end_witness :
  let ep := say_hello [("db", marker 10 sync_gen)] in
  let m := constructed_method UNARY_UNARY ep in
  ∃ w3 evs,
    dispatch_function (middleware_manager scheduled_greeter) m with_descriptor
      hello_request (ServicerContext None) empty_world
    = (Ok (VMessage "HelloReply" [("message", VStr "Hello")]), w3)
    ∧ invocations evs = [0%nat]
    ∧ first_abort evs = None.
Proof.
  intros ep m.
  edestruct (unary_call_end_to_end scheduled_greeter UNARY_UNARY 0 ep no_args m
               with_descriptor hello_descriptor hello_request
               (ServicerContext None) empty_world)
    as (w3 & evs & Hcall & _ & Hinv & Habort).
  - reflexivity.
  - reflexivity.
  - reflexivity.
  - reflexivity.
  - vm_compute. reflexivity.
  - vm_compute. reflexivity.
  - vm_compute. reflexivity.
  - normal_teardown.
  - vm_compute. reflexivity.
  - exists w3, evs. split; [exact Hcall|]. split; [exact Hinv|exact Habort].
Defined.

Lemma streaming_call_is_always_aborted_witness :
  let m := constructed_method UNARY_STREAM unary_stream in
  dispatch_generator (middleware_manager greeter) m with_descriptor
    hello_request (ServicerContext None) empty_world
  = (([], Some AbortError),
     set_trace
       (λ t, t ++ [EvAbort UNKNOWN
                     "'async for' requires an object with __aiter__ method, got coroutine"])
       empty_world).
Proof.
  intros m.
  change (Some AbortError)
    with (leaving_async_generator <$> @abort_signal grpc_aio).
  apply (streaming_call_is_always_aborted greeter UNARY_STREAM 0 unary_stream
           no_args m with_descriptor hello_descriptor hello_request
           (ServicerContext None) empty_world empty_world []).
  - reflexivity.
  - reflexivity.
  - reflexivity.
  - reflexivity.
  - reflexivity.
  - reflexivity.
  - by eexists.
Defined.

Lemma failing_endpoint_is_aborted_without_cleanup_witness :
  let ep := broken [("db", marker 10 sync_gen)] in
  let m := constructed_method UNARY_UNARY ep in
  ∃ w2,
    dispatch_function (middleware_manager greeter) m with_descriptor
      hello_request (ServicerContext None) empty_world
    = (Raise AbortError, set_trace (λ t, t ++ [EvAbort UNKNOWN "boom"]) w2)
    ∧ generators w2 !! 0%nat = Some ([], None).
Proof.
  intros ep m. eexists. split.
  - change (Raise AbortError)
      with (match @abort_signal grpc_aio with
            | Some e => @Raise Value e
            | None => Ok VNone
            end).
    change "boom" with (exc_str (ValueError "boom")).
    eapply (failing_endpoint_is_aborted_without_cleanup greeter UNARY_UNARY 0 ep
              no_args m with_descriptor hello_descriptor hello_request
              (ServicerContext None) empty_world).
    + reflexivity.
    + reflexivity.
    + reflexivity.
    + reflexivity.
    + vm_compute. reflexivity.
    + vm_compute. reflexivity.
    + vm_compute. reflexivity.
    + reflexivity.
    + reflexivity.
    + reflexivity.
  - reflexivity.
Defined.

End CallsExamples.
